(** * SmolPot backend: round orchestrator and randomness beacon client

    A shallow embedding of [src/services/gameManager.js] and
    [src/services/eosService.js].  The two services are [async] JavaScript:
    they interleave synchronous code on the fields of two singleton objects
    with awaited calls to the outside world (the ledger gateway, the
    database, the EOS HTTP endpoints, the clock).  A program is therefore a
    tree of external calls ([Prog]); the answer to every call is chosen by
    an environment, so a theorem quantified over environments speaks about
    every behaviour of the collaborators.

    What the model keeps and what it leaves out:
    - every [await], every clock read, every log call (level and message;
      the structured payload of a log call is dropped), every [try], [catch]
      and [finally], and the two mutable fields [isProcessing] and
      [currentEndpointIndex];
    - the ledger gateway ([contractService]) and the database
      ([supabaseService]) are external calls that resolve or reject;
    - the JSON an endpoint answers with has the fields the client reads,
      with the types the chain API gives them;
    - numbers are integers ([Z], indices [nat]): no [NaN], no rounding;
    - the [while] loop of [waitForBlock] is bounded by the clock only, so
      it takes a fuel; [waitForBlock_loop_fuel] shows that one unit is
      always enough. *)

From Stdlib Require Import ZArith List String Ascii Bool Lia Arith PeanoNat.
From Stdlib Require Import DecimalString.
Import ListNotations.
Open Scope string_scope.
Open Scope Z_scope.

Set Implicit Arguments.

(** ** Values exchanged with the collaborators *)

(** A JavaScript [Error].  [response_status] is [error.response.status] of
    an axios error; an error made with [new Error(msg)] has no [response]. *)
Record JsError := mkError {
  message : string;
  response_status : option Z
}.

Definition new_Error (msg : string) : JsError := mkError msg None.

(** What an awaited promise settles to. *)
Inductive Outcome (R : Type) : Type :=
| Resolved (v : R)
| Rejected (e : JsError).

Arguments Resolved {R} v.

Arguments Rejected {R} e.

(** [contractService.getPotState()].  The gateway returns the numeric fields
    as decimal strings of unsigned integers and the orchestrator reads them
    back with [parseInt]; the fields hold the integers themselves here. *)
Record PotState := mkPotState {
  potId : string;
  phase : Z;
  startTime : Z;
  totalAmount : Z;
  tickets : Z;
  playerCount : Z
}.

(** [this.GamePhase] *)
Module GamePhase.
Definition IDLE : Z := 0.
Definition BETTING : Z := 1.
Definition LOCKED : Z := 2.
Definition COMPLETE : Z := 3.
End GamePhase.

Record Tx := mkTx { hash : string }.

Record LockResult := mkLockResult {
  lock_txHash : string;
  lock_blockNumber : Z
}.

Record FinishResult := mkFinishResult {
  winner : option string;
  txHash : string;
  blockNumber : Z
}.

(** The two EOS chain API calls the client makes, and their JSON answers. *)
Inductive RpcPath := get_info | get_block.

Definition path_string (p : RpcPath) : string :=
  match p with
  | get_info => "/v1/chain/get_info"
  | get_block => "/v1/chain/get_block"
  end.

Record InfoJson := mkInfoJson {
  head_block_num : Z;
  last_irreversible_block_num : Z;
  chain_id : string
}.

Record BlockJson := mkBlockJson {
  block_num : Z;
  id : string;
  timestamp : string;
  producer : string
}.

Definition RpcData (p : RpcPath) : Type :=
  match p with
  | get_info => InfoJson
  | get_block => BlockJson
  end.

Inductive RpcBody :=
| EmptyBody
| BlockNumOrId (block_num_or_id : Z).

(** What [getChainInfo] and [getBlock] / [getFutureBlockHash] return. *)
Record ChainInfo := mkChainInfo {
  headBlockNum : Z;
  lastIrreversibleBlockNum : Z;
  chainId : string
}.

Record Block := mkBlock {
  blockNum : Z;
  blockId : string;
  blockTimestamp : string;
  blockProducer : string
}.

Record EosBlock := mkEosBlock {
  eos_blockNum : Z;
  blockHash : string;
  eos_timestamp : string;
  eos_producer : string
}.

(** Rows written through the persistence port.  Times are the clock reading
    in milliseconds (the source formats it with [toISOString]). *)
Record RoundRow := mkRoundRow {
  row_pot_id : string;
  row_phase : string;
  row_started_at : Z;
  row_total_amount : string;
  row_total_tickets : Z;
  row_player_count : Z
}.

Inductive RoundUpdate :=
| LockedUpdate (locked_at : Z) (lock_tx_hash : string)
| CompleteUpdate (winner_address : option string) (finished_at : Z)
    (finish_tx_hash : string) (eos_block_number : Z) (eos_block_hash : string)
    (eos_block_timestamp : string).

Record ProofRow := mkProofRow {
  proof_pot_id : string;
  proof_block_number : Z;
  proof_block_hash : string;
  proof_timestamp : string;
  proof_producer : string;
  proof_fetched_at : Z
}.

(** ** External calls

    [Cmd R] is a call to the outside world answered by a value of type [R].
    Awaited promises answer with an [Outcome]. *)
Inductive Cmd : Type -> Type :=
| DateNow : Cmd Z
| SetTimeout (ms : Z) : Cmd unit
| GetPotState : Cmd (Outcome PotState)
| StartGame : Cmd (Outcome Tx)
| EmergencyCancel : Cmd (Outcome Tx)
| TxWait (tx : Tx) : Cmd (Outcome unit)
| ContractLockGame : Cmd (Outcome LockResult)
| ContractFinishGame (eosBlockHash : string) : Cmd (Outcome FinishResult)
| DbCreateGameRound (row : RoundRow) : Cmd (Outcome unit)
| DbUpdateGameRoundByPotId (pot : string) (updates : RoundUpdate)
    : Cmd (Outcome unit)
| DbCreateEosProof (proof : ProofRow) : Cmd (Outcome unit)
| AxiosPost (url : string) (p : RpcPath) (data : RpcBody)
    : Cmd (Outcome (RpcData p)).

Inductive Level := debug | info | warn | error.

(** One entry of the history: a log line (the structured payload of the log
    call is not kept) or an external call with the answer it got. *)
Inductive Event :=
| EvLog (lvl : Level) (msg : string)
| EvCall {R : Type} (c : Cmd R) (r : R).

(** ** The two singleton objects and the process environment *)

Record GameManager := mkGameManager {
  isProcessing : bool
}.

Record EosService := mkEosService {
  rpcEndpoints : list string;
  currentEndpointIndex : nat;
  futureBlockOffset : Z
}.

Record Heap := mkHeap {
  gameManager : GameManager;
  eosService : EosService;
  GAME_TIMER_DURATION : option Z   (* process.env.GAME_TIMER_DURATION *)
}.

Definition set_isProcessing (b : bool) (h : Heap) : Heap :=
  mkHeap (mkGameManager b) (eosService h) (GAME_TIMER_DURATION h).

Definition set_currentEndpointIndex (i : nat) (h : Heap) : Heap :=
  mkHeap (gameManager h)
         (mkEosService (rpcEndpoints (eosService h)) i
                       (futureBlockOffset (eosService h)))
         (GAME_TIMER_DURATION h).

(** ** Programs *)

Inductive Prog (A : Type) : Type :=
| Ret (a : A)
| Throw (e : JsError)
| Spin                                  (* a loop ran out of fuel *)
| ReadThis (k : Heap -> Prog A)
| Update (f : Heap -> Heap) (k : Prog A)
| Log (lvl : Level) (msg : string) (k : Prog A)
| Call {R : Type} (c : Cmd R) (k : R -> Prog A).

Arguments Ret {A} a.

Arguments Throw {A} e.

Arguments Spin {A}.

Arguments ReadThis {A} k.

Arguments Update {A} f k.

Arguments Log {A} lvl msg k.

Arguments Call {A R} c k.

Fixpoint bind {A B : Type} (p : Prog A) (f : A -> Prog B) : Prog B :=
  match p with
  | Ret a => f a
  | Throw e => Throw e
  | Spin => Spin
  | ReadThis k => ReadThis (fun h => bind (k h) f)
  | Update g k => Update g (bind k f)
  | Log l m k => Log l m (bind k f)
  | Call c k => Call c (fun r => bind (k r) f)
  end.

(** [try { p } catch (e) { h e }] *)
Fixpoint tryCatch {A : Type} (p : Prog A) (h : JsError -> Prog A) : Prog A :=
  match p with
  | Ret a => Ret a
  | Throw e => h e
  | Spin => Spin
  | ReadThis k => ReadThis (fun x => tryCatch (k x) h)
  | Update g k => Update g (tryCatch k h)
  | Log l m k => Log l m (tryCatch k h)
  | Call c k => Call c (fun r => tryCatch (k r) h)
  end.

(** [try { p } finally { fin }], for a [fin] that completes normally. *)
Fixpoint tryFinally {A : Type} (p : Prog A) (fin : Prog unit) : Prog A :=
  match p with
  | Ret a => bind fin (fun _ => Ret a)
  | Throw e => bind fin (fun _ => Throw e)
  | Spin => Spin
  | ReadThis k => ReadThis (fun x => tryFinally (k x) fin)
  | Update g k => Update g (tryFinally k fin)
  | Log l m k => Log l m (tryFinally k fin)
  | Call c k => Call c (fun r => tryFinally (k r) fin)
  end.

(** [await c]: a rejected promise throws at the [await]. *)
Definition await {R : Type} (c : Cmd (Outcome R)) : Prog R :=
  Call c (fun o => match o with
                   | Resolved v => Ret v
                   | Rejected e => Throw e
                   end).

Definition call {R : Type} (c : Cmd R) : Prog R := Call c Ret.

Definition log (l : Level) (m : string) : Prog unit := Log l m (Ret tt).

Definition readThis : Prog Heap := ReadThis Ret.

Definition update (f : Heap -> Heap) : Prog unit := Update f (Ret tt).

Declare Scope prog_scope.

Delimit Scope prog_scope with prog.

Notation "x <- p ;; q" := (bind p (fun x => q))
  (at level 61, p at next level, right associativity) : prog_scope.

Notation "p ;;; q" := (bind p (fun _ => q))
  (at level 61, right associativity) : prog_scope.

Open Scope prog_scope.

(** ** Running a program against an environment *)

(** The environment answers a call knowing everything that happened before. *)
Definition Env := forall R : Type, list Event -> Cmd R -> R.

Record World := mkWorld {
  heap : Heap;
  trace : list Event     (* oldest first *)
}.

Inductive Result (A : Type) : Type :=
| Normal (a : A)
| Thrown (e : JsError)
| Diverged.

Arguments Normal {A} a.

Arguments Thrown {A} e.

Arguments Diverged {A}.

Definition record (ev : Event) (w : World) : World :=
  mkWorld (heap w) (trace w ++ [ev]).

Fixpoint run {A : Type} (p : Prog A) (env : Env) (w : World)
  : World * Result A :=
  match p with
  | Ret a => (w, Normal a)
  | Throw e => (w, Thrown e)
  | Spin => (w, Diverged)
  | ReadThis k => run (k (heap w)) env w
  | Update f k => run k env (mkWorld (f (heap w)) (trace w))
  | Log l m k => run k env (record (EvLog l m) w)
  | Call c k =>
      let r := env _ (trace w) c in
      run (k r) env (record (EvCall c r) w)
  end.

Definition result {A : Type} (x : World * Result A) : Result A := snd x.

Definition final {A : Type} (x : World * Result A) : World := fst x.

(** ** eosService.js *)

Definition nat_to_string (n : nat) : string :=
  NilEmpty.string_of_uint (Nat.to_uint n).

Definition Z_to_string (z : Z) : string :=
  NilZero.string_of_int (Z.to_int z).

(** [this.rpcEndpoints[this.currentEndpointIndex]]; an index outside the
    array reads [undefined], which the URL template prints as such. *)
Definition getCurrentEndpoint : Prog string :=
  h <- readThis ;;
  Ret (nth (currentEndpointIndex (eosService h))
           (rpcEndpoints (eosService h)) "undefined").

Definition switchToNextEndpoint : Prog unit :=
  h <- readThis ;;
  update (set_currentEndpointIndex
            ((currentEndpointIndex (eosService h) + 1)
               mod List.length (rpcEndpoints (eosService h)))%nat) ;;;
  log warn "Switching to next EOS RPC endpoint".

(** The body of the [for] loop of [makeRpcCall], from iteration [attempt]
    with [remaining = maxRetries - attempt] iterations to go.  The [try]
    block leaves the function with the response data ([inl]); the [catch]
    block falls through to the next iteration ([inr]). *)
Fixpoint makeRpcCall_loop (remaining attempt maxRetries : nat)
    (path : RpcPath) (data : RpcBody) (lastError : option JsError)
  : Prog (RpcData path) :=
  match remaining with
  | O =>
      match lastError with
      | Some e =>
          Throw (new_Error
            ("Failed to connect to any EOS RPC endpoint after "
             ++ nat_to_string maxRetries ++ " attempts. "
             ++ "Last error: " ++ message e))
      | None =>
          (* lastError.message on undefined *)
          Throw (new_Error
            "Cannot read properties of undefined (reading 'message')")
      end
  | S remaining' =>
      r <- tryCatch
             (endpoint <- getCurrentEndpoint ;;
              let url := endpoint ++ path_string path in
              log debug "Making EOS RPC call" ;;;
              response <- await (AxiosPost url path data) ;;
              Ret (inl response))
             (fun err =>
                log error "EOS RPC call failed" ;;;
                (if (attempt <? maxRetries - 1)%nat
                 then switchToNextEndpoint
                 else Ret tt) ;;;
                Ret (inr err)) ;;
      match r with
      | inl d => Ret d
      | inr e =>
          makeRpcCall_loop remaining' (S attempt) maxRetries path data (Some e)
      end
  end.

Definition makeRpcCall (path : RpcPath) (data : RpcBody)
  : Prog (RpcData path) :=
  h <- readThis ;;
  let maxRetries := List.length (rpcEndpoints (eosService h)) in
  makeRpcCall_loop maxRetries 0 maxRetries path data None.

Definition getChainInfo : Prog ChainInfo :=
  tryCatch
    (info <- makeRpcCall get_info EmptyBody ;;
     log debug "Got EOS chain info" ;;;
     Ret (mkChainInfo (head_block_num info)
                      (last_irreversible_block_num info)
                      (chain_id info)))
    (fun err =>
       log error "Failed to get EOS chain info" ;;;
       Throw err).

(** [null] is [None]. *)
Definition getBlock (blockNum : Z) : Prog (option Block) :=
  tryCatch
    (block <- makeRpcCall get_block (BlockNumOrId blockNum) ;;
     log debug "Got EOS block" ;;;
     Ret (Some (mkBlock (block_num block) (id block)
                        (timestamp block) (producer block))))
    (fun err =>
       match response_status err with
       | Some status =>
           if status =? 400 then Ret None
           else (log error "Failed to get EOS block" ;;; Throw err)
       | None => log error "Failed to get EOS block" ;;; Throw err
       end).

(** The [while] loop of [waitForBlock].  The clock alone bounds it, so the
    model takes [fuel], the number of iterations it may start; [Spin] is
    reached when they are used up.  Inside the [try], [Some b] is
    [return block] and [None] falls through to the next iteration. *)
Fixpoint waitForBlock_loop (fuel : nat) (targetBlockNum startTime maxWaitMs : Z)
  : Prog Block :=
  match fuel with
  | O => Spin
  | S fuel' =>
      now <- call DateNow ;;
      if now - startTime <? maxWaitMs then
        r <- tryCatch
               (block <- getBlock targetBlockNum ;;
                match block with
                | Some b =>
                    _ <- call DateNow ;;      (* wait_time_seconds *)
                    log info "EOS block produced" ;;;
                    Ret (Some b)
                | None =>
                    call (SetTimeout 500) ;;;
                    Ret None
                end)
               (fun err =>
                  log error "Error while waiting for block" ;;;
                  Throw err) ;;
        match r with
        | Some b => Ret b
        | None => waitForBlock_loop fuel' targetBlockNum startTime maxWaitMs
        end
      else
        Throw (new_Error
          ("Timeout waiting for EOS block " ++ Z_to_string targetBlockNum
           ++ " after " ++ Z_to_string (maxWaitMs / 1000) ++ " seconds"))
  end.

Definition waitForBlock (fuel : nat) (targetBlockNum maxWaitMs : Z)
  : Prog Block :=
  startTime <- call DateNow ;;
  log info "Waiting for EOS block" ;;;
  waitForBlock_loop fuel targetBlockNum startTime maxWaitMs.

(** [a || b] on numbers, [None] being [null]: [0] is falsy. *)
Definition js_or (a : option Z) (b : Z) : Z :=
  match a with
  | Some v => if v =? 0 then b else v
  | None => b
  end.

(** [blockId.startsWith('0x') ? blockId : '0x' + blockId] *)
Definition normalizeBlockId (blockId : string) : string :=
  if prefix "0x" blockId then blockId else "0x" ++ blockId.

Definition getFutureBlockHash (fuel : nat) (blocksInFuture : option Z)
  : Prog EosBlock :=
  tryCatch
    (h <- readThis ;;
     let offset := js_or blocksInFuture (futureBlockOffset (eosService h)) in
     log info "Fetching future EOS block hash" ;;;
     chainInfo <- getChainInfo ;;
     let targetBlockNum := lastIrreversibleBlockNum chainInfo + offset in
     log info "Target block calculated" ;;;
     block <- waitForBlock fuel targetBlockNum 300000 ;;
     let blockHash := normalizeBlockId (blockId block) in
     log info "Future block hash fetched successfully" ;;;
     Ret (mkEosBlock (blockNum block) blockHash
                     (blockTimestamp block) (blockProducer block)))
    (fun err =>
       log error "Failed to get future block hash" ;;;
       Throw err).

(** ** gameManager.js *)

Definition createGameRound (pot : string) : Prog unit :=
  tryCatch
    (now <- call DateNow ;;
     let roundData := mkRoundRow pot "BETTING" now "0" 0 0 in
     await (DbCreateGameRound roundData) ;;;
     log info "Game round created in database")
    (fun err => log error "Failed to create game round").

Definition updateGameRound (pot : string) (updates : RoundUpdate)
  : Prog unit :=
  tryCatch
    (await (DbUpdateGameRoundByPotId pot updates) ;;;
     log debug "Game round updated in database")
    (fun err => log error "Failed to update game round").

Definition storeEosProof (pot : string) (eosBlock : EosBlock) : Prog unit :=
  tryCatch
    (now <- call DateNow ;;
     let proofData :=
       mkProofRow pot (eos_blockNum eosBlock) (blockHash eosBlock)
                  (eos_timestamp eosBlock) (eos_producer eosBlock) now in
     await (DbCreateEosProof proofData) ;;;
     log info "EOS proof stored for verification")
    (fun err => log error "Failed to store EOS proof").

Definition lockGame (state : PotState) : Prog unit :=
  tryCatch
    (log info "Locking game" ;;;
     res <- await ContractLockGame ;;
     log info "Game locked successfully" ;;;
     now <- call DateNow ;;
     updateGameRound (potId state) (LockedUpdate now (lock_txHash res)))
    (fun err =>
       log error "Failed to lock game" ;;;
       Throw err).

Definition finishGame (state : PotState) (eosBlock : EosBlock) : Prog unit :=
  tryCatch
    (log info "Finishing game" ;;;
     res <- await (ContractFinishGame (blockHash eosBlock)) ;;
     log info "Game finished successfully" ;;;
     now <- call DateNow ;;
     updateGameRound (potId state)
       (CompleteUpdate (winner res) now (txHash res)
          (eos_blockNum eosBlock) (blockHash eosBlock)
          (eos_timestamp eosBlock)) ;;;
     storeEosProof (potId state) eosBlock)
    (fun err =>
       log error "Failed to finish game" ;;;
       Throw err).

Definition handleIdlePhase (state : PotState) : Prog unit :=
  log info "Game in IDLE phase - starting new round" ;;;
  tryCatch
    (tx <- await StartGame ;;
     await (TxWait tx) ;;;
     log info "New game started successfully" ;;;
     createGameRound (potId state))
    (fun err => log error "Failed to start new game").

(** [parseInt(process.env.GAME_TIMER_DURATION || '60')] *)
Definition timerDuration (h : Heap) : Z :=
  match GAME_TIMER_DURATION h with
  | Some d => d
  | None => 60
  end.

(** [[30, 10, 5, 0].includes(timeRemaining)] *)
Definition at_log_threshold (timeRemaining : Z) : bool :=
  existsb (Z.eqb timeRemaining) [30; 10; 5; 0].

Definition handleBettingPhase (state : PotState) : Prog unit :=
  tryCatch
    (nowMs <- call DateNow ;;
     h <- readThis ;;
     let currentTime := nowMs / 1000 in
     let expiryTime := startTime state + timerDuration h in
     let timeRemaining := expiryTime - currentTime in
     (if at_log_threshold timeRemaining
      then log info "Game timer update"
      else Ret tt) ;;;
     if currentTime >=? expiryTime then
       log info "Game timer expired - locking game" ;;;
       lockGame state
     else Ret tt)
    (fun err => log error "Error handling betting phase").

Definition handleLockedPhase (fuel : nat) (state : PotState) : Prog unit :=
  log info "Game in LOCKED phase - fetching randomness" ;;;
  tryCatch
    (if tickets state =? 0 then
       log warn "No tickets sold - cancelling game" ;;;
       tx <- await EmergencyCancel ;;
       await (TxWait tx) ;;;
       log info "Game cancelled - no participants"
     else
       log info "Fetching EOS randomness" ;;;
       eosBlock <- getFutureBlockHash fuel None ;;
       log info "EOS randomness fetched" ;;;
       finishGame state eosBlock)
    (fun err => log error "Error handling locked phase").

Definition handleCompletePhase (state : PotState) : Prog unit :=
  log info "Game in COMPLETE phase - waiting for transition to IDLE".

(** [checkAndProcessGameState] with the four phase handlers as parameters:
    the guard, the [try]/[catch]/[finally] and the [switch] are the
    source's; what is said of it holds whatever a handler does. *)
Definition checkAndProcessGameState_with
    (onIdle onBetting onLocked onComplete : PotState -> Prog unit)
  : Prog unit :=
  h <- readThis ;;
  if isProcessing (gameManager h) then Ret tt
  else
    update (set_isProcessing true) ;;;
    tryFinally
      (tryCatch
         (state <- await GetPotState ;;
          let currentPhase := phase state in
          log debug "Game state check" ;;;
          if currentPhase =? GamePhase.IDLE then onIdle state
          else if currentPhase =? GamePhase.BETTING then onBetting state
          else if currentPhase =? GamePhase.LOCKED then onLocked state
          else if currentPhase =? GamePhase.COMPLETE then onComplete state
          else log error "Unknown game phase")
         (fun err => log error "Error checking game state"))
      (update (set_isProcessing false)).

Definition checkAndProcessGameState (fuel : nat) : Prog unit :=
  checkAndProcessGameState_with
    handleIdlePhase handleBettingPhase (handleLockedPhase fuel)
    handleCompletePhase.

(** The events a run adds to the history. *)
Definition emitted {A : Type} (p : Prog A) (env : Env) (w : World)
  : list Event :=
  skipn (List.length (trace w)) (trace (final (run p env w))).

(** ** A program logic over every environment

    [Sat okU okC Q p]: along every path of [p], whatever the answers to its
    calls, each heap update satisfies [okU], each call satisfies [okC], and
    the way [p] ends satisfies [Q]. *)
Section SatDef.
Variable okU : (Heap -> Heap) -> Prop.
Variable okC : forall R : Type, Cmd R -> Prop.

Inductive Sat {A : Type} (Q : Result A -> Prop) : Prog A -> Prop :=
| Sat_Ret a : Q (Normal a) -> Sat Q (Ret a)
| Sat_Throw e : Q (Thrown e) -> Sat Q (Throw e)
| Sat_Spin : Q Diverged -> Sat Q Spin
| Sat_ReadThis k : (forall h, Sat Q (k h)) -> Sat Q (ReadThis k)
| Sat_Update f k : okU f -> Sat Q k -> Sat Q (Update f k)
| Sat_Log l m k : Sat Q k -> Sat Q (Log l m k)
| Sat_Call R (c : Cmd R) k :
    okC c -> (forall r, Sat Q (k r)) -> Sat Q (Call c k).
End SatDef.

(** ** Classes of external calls *)

Definition is_clock {R : Type} (c : Cmd R) : bool :=
  match c with
  | DateNow | SetTimeout _ => true
  | _ => false
  end.

(** A request to a beacon (EOS) endpoint. *)
Definition is_beacon {R : Type} (c : Cmd R) : bool :=
  match c with
  | AxiosPost _ _ _ => true
  | _ => false
  end.

Definition is_ledger_read {R : Type} (c : Cmd R) : bool :=
  match c with
  | GetPotState => true
  | _ => false
  end.

(** A state-changing ledger transaction being submitted. *)
Definition is_ledger_write {R : Type} (c : Cmd R) : bool :=
  match c with
  | StartGame | EmergencyCancel | ContractLockGame | ContractFinishGame _ =>
      true
  | _ => false
  end.

Definition is_tx_wait {R : Type} (c : Cmd R) : bool :=
  match c with
  | TxWait _ => true
  | _ => false
  end.

Definition is_db_write {R : Type} (c : Cmd R) : bool :=
  match c with
  | DbCreateGameRound _ | DbUpdateGameRoundByPotId _ _ | DbCreateEosProof _ =>
      true
  | _ => false
  end.

Definition is_cancel {R : Type} (c : Cmd R) : bool :=
  match c with
  | EmergencyCancel => true
  | _ => false
  end.

Definition is_lock {R : Type} (c : Cmd R) : bool :=
  match c with
  | ContractLockGame => true
  | _ => false
  end.

(** Lifting a class of calls to events; a log line is in no class. *)
Definition ev_is (cls : forall R : Type, Cmd R -> bool) (ev : Event) : bool :=
  match ev with
  | EvLog _ _ => false
  | EvCall c _ => cls _ c
  end.

Definition count_ev (cls : forall R : Type, Cmd R -> bool) (evs : list Event)
  : nat :=
  List.length (filter (ev_is cls) evs).

(** A heap update that leaves the in-progress guard alone. *)
Definition guardU (f : Heap -> Heap) : Prop :=
  forall h, isProcessing (gameManager (f h)) = isProcessing (gameManager h).

(** The run ends, by a return or by an exception. *)
Definition terminates {A : Type} (r : Result A) : Prop :=
  match r with
  | Diverged => False
  | _ => True
  end.

(** The run ends, and an exception it throws carries no HTTP [response]. *)
Definition plain_failure {A : Type} (r : Result A) : Prop :=
  match r with
  | Normal _ => True
  | Thrown e => response_status e = None
  | Diverged => False
  end.

(** The run ends, and not by returning [null]. *)
Definition never_null {A : Type} (r : Result (option A)) : Prop :=
  match r with
  | Normal (Some _) => True
  | Normal None => False
  | Thrown _ => True
  | Diverged => False
  end.

Definition returns_unit (r : Result unit) : Prop := r = Normal tt.

(** ** The scheduler: ticks that overlap

    Node runs one piece of synchronous code at a time; an [async] function
    gives up control only where it awaits.  [advance] runs a program up to
    its next external call, where it is parked as a [Task] until the answer
    arrives.  Between two answers the timer may fire and start another
    invocation of the tick.  (Every external call is taken as a point where
    the tick may be overtaken, the clock reads included: this only adds
    interleavings.) *)
Inductive Task : Type :=
| Awaiting {R : Type} (c : Cmd R) (k : R -> Prog unit)
| Stalled.                     (* inside a loop that never ends *)

Fixpoint advance (p : Prog unit) (w : World) : World * option Task :=
  match p with
  | Ret _ => (w, None)
  | Throw _ => (w, None)
  | Spin => (w, Some Stalled)
  | ReadThis k => advance (k (heap w)) w
  | Update f k => advance k (mkWorld (f (heap w)) (trace w))
  | Log l m k => advance k (record (EvLog l m) w)
  | Call c k => (w, Some (Awaiting c k))
  end.

Record Sched := mkSched {
  world : World;
  pending : list Task       (* invocations parked at an await *)
}.

Definition park (x : World * option Task) (pre post : list Task) : Sched :=
  mkSched (fst x)
          (pre ++ match snd x with
                  | Some t => t :: post
                  | None => post
                  end).

(** The timer fires: a new invocation of [tick] starts. *)
Definition fire (tick : Prog unit) (s : Sched) : Sched :=
  park (advance tick (world s)) (pending s) [].

Inductive step (tick : Prog unit) : Sched -> Sched -> Prop :=
| step_fire s : step tick s (fire tick s)
| step_settle s pre post R (c : Cmd R) k (r : R) :
    pending s = (pre ++ Awaiting c k :: post)%list ->
    step tick s
         (park (advance (k r) (record (EvCall c r) (world s))) pre post).

Inductive reachable (tick : Prog unit) (s0 : Sched) : Sched -> Prop :=
| reach_start : reachable tick s0 s0
| reach_step s s' : reachable tick s0 s -> step tick s s' ->
                    reachable tick s0 s'.

Definition guard_set (s : Sched) : bool :=
  isProcessing (gameManager (heap (world s))).

(** A program that never writes the in-progress guard. *)
Definition GuardFree {A : Type} (p : Prog A) : Prop :=
  Sat guardU (fun _ _ => True) (fun _ => True) p.

Definition release : Prog unit := update (set_isProcessing false).

(** What is left of a tick that passed the guard: guard-free code inside
    the [finally] that clears the guard. *)
Definition Releasing (p : Prog unit) : Prop :=
  exists q, p = tryFinally q release /\ GuardFree q.

Definition InFlight (t : Task) : Prop :=
  match t with
  | Awaiting c k => forall r, Releasing (k r)
  | Stalled => True
  end.

Definition SingleFlight (s : Sched) : Prop :=
  (pending s = [] /\ guard_set s = false)
  \/ (exists t, pending s = [t] /\ guard_set s = true /\ InFlight t).

(** ** Sample objects for concrete runs *)

Definition heap0 : Heap :=
  mkHeap (mkGameManager false)
         (mkEosService ["https://eos.antelope.tools"] 0%nat 5)
         None.

Definition w0 : World := mkWorld heap0 [].

Definition sched0 : Sched := mkSched w0 [].

(** ** Reading the history *)

Fixpoint choose {A B : Type} (f : A -> option B) (l : list A) : list B :=
  match l with
  | [] => []
  | x :: l' =>
      match f x with
      | Some y => y :: choose f l'
      | None => choose f l'
      end
  end.

(** The URL of an HTTP request to a beacon endpoint. *)
Definition post_url (ev : Event) : option string :=
  match ev with
  | EvCall c _ =>
      match c with
      | AxiosPost url _ _ => Some url
      | _ => None
      end
  | EvLog _ _ => None
  end.

(** The error of an HTTP request that failed. *)
Definition post_error (ev : Event) : option JsError :=
  match ev with
  | EvCall c r =>
      match c in Cmd R return R -> option JsError with
      | AxiosPost _ _ _ =>
          fun o => match o with
                   | Rejected e => Some e
                   | Resolved _ => None
                   end
      | _ => fun _ => None
      end r
  | EvLog _ _ => None
  end.

Definition posted_urls (evs : list Event) : list string :=
  choose post_url evs.

Definition post_failures (evs : list Event) : list JsError :=
  choose post_error evs.

(** The aggregate error [makeRpcCall] throws after its last attempt. *)
Definition aggregate_error (maxRetries : nat) (lastError : JsError)
  : JsError :=
  new_Error ("Failed to connect to any EOS RPC endpoint after "
             ++ nat_to_string maxRetries ++ " attempts. "
             ++ "Last error: " ++ message lastError).

(** The URL of attempt [j] of a call that starts at endpoint index [i]. *)
Definition attempt_url (eps : list string) (i : nat) (path : RpcPath)
    (j : nat) : string :=
  nth ((i + j) mod List.length eps)%nat eps "undefined" ++ path_string path.

Definition endpoints_of (w : World) : list string :=
  rpcEndpoints (eosService (heap w)).

Definition index_of (w : World) : nat :=
  currentEndpointIndex (eosService (heap w)).

(** Two endpoints, the first of which is down. *)
Definition w_two : World :=
  mkWorld (mkHeap (mkGameManager false)
             (mkEosService ["https://a.example"; "https://b.example"]
                           0%nat 5)
             None) [].

Definition env_first_down : Env :=
  fun R _ c =>
    match c in Cmd R return R with
    | DateNow => 0
    | SetTimeout _ => tt
    | AxiosPost url p _ =>
        if prefix "https://a.example" url
        then Rejected (mkError "timeout of 10000ms exceeded" None)
        else Resolved (match p return RpcData p with
                       | get_info => mkInfoJson 1330 1000 "chain"
                       | get_block => mkBlockJson 1005 "ab" "t" "p"
                       end)
    | _ => Rejected (new_Error "not used")
    end.

(** ** A program logic over the events of a run

    [Holds Q p]: whatever the heap and the answers, the events [p] emits and
    the way it ends satisfy [Q]. *)
Inductive Holds {A : Type}
  : (list Event -> Result A -> Prop) -> Prog A -> Prop :=
| Holds_Ret (Q : list Event -> Result A -> Prop) a :
    Q [] (Normal a) -> Holds Q (Ret a)
| Holds_Throw (Q : list Event -> Result A -> Prop) e :
    Q [] (Thrown e) -> Holds Q (Throw e)
| Holds_Spin (Q : list Event -> Result A -> Prop) :
    Q [] Diverged -> Holds Q Spin
| Holds_ReadThis (Q : list Event -> Result A -> Prop) k :
    (forall h, Holds Q (k h)) -> Holds Q (ReadThis k)
| Holds_Update (Q : list Event -> Result A -> Prop) f k :
    Holds Q k -> Holds Q (Update f k)
| Holds_Log (Q : list Event -> Result A -> Prop) l m k :
    Holds (fun evs r => Q (EvLog l m :: evs) r) k -> Holds Q (Log l m k)
| Holds_Call (Q : list Event -> Result A -> Prop) R (c : Cmd R) k :
    (forall r, Holds (fun evs res => Q (EvCall c r :: evs) res) (k r)) ->
    Holds Q (Call c k).

(** ** Where a returned block comes from *)

(** Among [evs] is a [get_block] request that an endpoint answered with the
    record [b] was built from. *)
Definition from_block_response (evs : list Event) (b : Block) : Prop :=
  exists url data blk,
    In (EvCall (AxiosPost url get_block data) (Resolved blk)) evs
    /\ b = mkBlock (block_num blk) (id blk) (timestamp blk) (producer blk).

(** The path and body of an HTTP request. *)
Definition post_request (ev : Event) : option (RpcPath * RpcBody) :=
  match ev with
  | EvCall c _ =>
      match c with
      | AxiosPost _ p data => Some (p, data)
      | _ => None
      end
  | EvLog _ _ => None
  end.

Definition post_requests (evs : list Event) : list (RpcPath * RpcBody) :=
  choose post_request evs.

(** A successful [makeRpcCall] returns what an endpoint answered, and every
    request of the call carries the call's path and body. *)
Definition answered (path : RpcPath) (data : RpcBody)
    (evs : list Event) (r : Result (RpcData path)) : Prop :=
  (forall d, r = Normal d ->
             exists url,
               In (EvCall (AxiosPost url path data) (Resolved d)) evs)
  /\ Forall (eq (path, data)) (post_requests evs).

Definition block_answered (evs : list Event) (r : Result (option Block))
  : Prop :=
  forall b, r = Normal (Some b) -> from_block_response evs b.

Definition block_returned (evs : list Event) (r : Result Block) : Prop :=
  forall b, r = Normal b -> from_block_response evs b.

(** What [getFutureBlockHash] returns is built from a block an endpoint
    answered with, its [id] normalized. *)
Definition seed_from_response (evs : list Event) (r : Result EosBlock)
  : Prop :=
  forall eb, r = Normal eb ->
    exists url data blk,
      In (EvCall (AxiosPost url get_block data) (Resolved blk)) evs
      /\ eb = mkEosBlock (block_num blk) (normalizeBlockId (id blk))
                         (timestamp blk) (producer blk).

(** ** The seed format *)

(** [[0-9a-f]] *)
Definition is_lower_hex (c : ascii) : bool :=
  let n := nat_of_ascii c in
  ((48 <=? n) && (n <=? 57) || (97 <=? n) && (n <=? 102))%nat.

Fixpoint all_chars (f : ascii -> bool) (s : string) : bool :=
  match s with
  | EmptyString => true
  | String c s' => f c && all_chars f s'
  end.

(** [^[0-9a-f]{64}$] *)
Definition is_hex64 (s : string) : bool :=
  (String.length s =? 64)%nat && all_chars is_lower_hex s.

(** [^0x[0-9a-f]{64}$] *)
Definition matches_seed_regex (s : string) : bool :=
  match s with
  | String "0" (String "x" rest) => is_hex64 rest
  | _ => false
  end.

(** ** Which block a call asks for *)

Definition block_request (ev : Event) : option Z :=
  match post_request ev with
  | Some (get_block, BlockNumOrId n) => Some n
  | _ => None
  end.

(** The block numbers of the [get_block] requests. *)
Definition block_requests (evs : list Event) : list Z :=
  choose block_request evs.

(** The chain info an endpoint answered a [get_info] request with. *)
Definition info_answer (ev : Event) : option InfoJson :=
  match ev with
  | EvCall c r =>
      match c in Cmd R return R -> option InfoJson with
      | AxiosPost _ p _ =>
          match p return Outcome (RpcData p) -> option InfoJson with
          | get_info => fun o => match o with
                                 | Resolved i => Some i
                                 | Rejected _ => None
                                 end
          | get_block => fun _ => None
          end
      | _ => fun _ => None
      end r
  | EvLog _ _ => None
  end.

Definition info_answers (evs : list Event) : list InfoJson :=
  choose info_answer evs.

(** Every [get_block] request among [evs] asks for the block [d] past the
    last irreversible block some [get_info] request among [evs] was
    answered with. *)
Definition targets (d : Z) (evs : list Event) : Prop :=
  forall n, In n (block_requests evs) ->
            exists i, In i (info_answers evs)
                      /\ n = last_irreversible_block_num i + d.

Definition info_returned (evs : list Event) (r : Result ChainInfo) : Prop :=
  block_requests evs = []
  /\ forall ci, r = Normal ci ->
                exists i, In i (info_answers evs)
                          /\ lastIrreversibleBlockNum ci
                             = last_irreversible_block_num i.

Definition asks_for (target : Z) (evs : list Event) : Prop :=
  forall n, In n (block_requests evs) -> n = target.

(** What is left of a program once it has read the heap [h]. *)
Definition after_read {A : Type} (p : Prog A) (h : Heap) : Prog A :=
  match p with
  | ReadThis k => k h
  | _ => p
  end.

(** ** Sample collaborators for concrete runs *)

Definition sample_info : InfoJson :=
  mkInfoJson 1330 1000
    "aca376f206b8fc25a6ed44dbdc66547c36c6c33e3a119ffbeaef943642f0e906".

Definition sample_block (blockid : string) : BlockJson :=
  mkBlockJson 1005 blockid "2025-10-15T12:00:02.500" "eosnation".

Definition sample_id : string :=
  "000003ed5b1f0a9c3d7e8f6a4b2c1d0e9f8a7b6c5d4e3f2a1b0c9d8e7f6a5b4c".

Definition sample_state (ph start tk : Z) : PotState :=
  mkPotState "42" ph start 1000 tk 3.

(** Everything works: the ledger reports [st], the beacon answers every
    request at once, its blocks carrying the identifier [blockid], the
    clock reads [nowMs], and the database accepts writes iff [db_ok]. *)
Definition env_sample (st : PotState) (blockid : string) (nowMs : Z)
    (db_ok : bool) : Env :=
  fun R _ c =>
    match c in Cmd R return R with
    | DateNow => nowMs
    | SetTimeout _ => tt
    | GetPotState => Resolved st
    | StartGame => Resolved (mkTx "0xstart")
    | EmergencyCancel => Resolved (mkTx "0xcancel")
    | TxWait _ => Resolved tt
    | ContractLockGame => Resolved (mkLockResult "0xlock" 7)
    | ContractFinishGame _ =>
        Resolved (mkFinishResult (Some "0xwinner") "0xfinish" 8)
    | DbCreateGameRound _ | DbUpdateGameRoundByPotId _ _
    | DbCreateEosProof _ =>
        if db_ok then Resolved tt
        else Rejected (new_Error "database unavailable")
    | AxiosPost _ p _ =>
        Resolved (match p return RpcData p with
                  | get_info => sample_info
                  | get_block => sample_block blockid
                  end)
    end.

(** The requested block does not exist yet: the endpoint answers the
    [get_block] request with HTTP status 400. *)
Definition error_400 : JsError :=
  mkError "Request failed with status code 400" (Some 400).

Definition env_400 : Env :=
  fun R _ c =>
    match c in Cmd R return R with
    | DateNow => 0
    | SetTimeout _ => tt
    | AxiosPost _ get_info _ => Resolved sample_info
    | AxiosPost _ get_block _ => Rejected error_400
    | _ => Rejected (new_Error "not used")
    end.

Definition is_sleep {R : Type} (c : Cmd R) : bool :=
  match c with
  | SetTimeout _ => true
  | _ => false
  end.

(** ** Computing the events of a run *)

Fixpoint events {A : Type} (p : Prog A) (env : Env) (w : World)
  : list Event :=
  match p with
  | Ret _ | Throw _ | Spin => []
  | ReadThis k => events (k (heap w)) env w
  | Update f k => events k env (mkWorld (f (heap w)) (trace w))
  | Log l m k => EvLog l m :: events k env (record (EvLog l m) w)
  | Call c k =>
      let r := env _ (trace w) c in
      EvCall c r :: events (k r) env (record (EvCall c r) w)
  end.

(** The handler the [switch] of the tick selects. *)
Definition dispatch (fuel : nat) (st : PotState) : Prog unit :=
  if phase st =? GamePhase.IDLE then handleIdlePhase st
  else if phase st =? GamePhase.BETTING then handleBettingPhase st
  else if phase st =? GamePhase.LOCKED then handleLockedPhase fuel st
  else if phase st =? GamePhase.COMPLETE then handleCompletePhase st
  else log error "Unknown game phase".

(** ** What is written to the database *)

Inductive DbWrite :=
| WCreateRound (row : RoundRow)
| WUpdateRound (pot : string) (updates : RoundUpdate)
| WCreateProof (proof : ProofRow).

Definition db_write (ev : Event) : option DbWrite :=
  match ev with
  | EvCall c _ =>
      match c with
      | DbCreateGameRound row => Some (WCreateRound row)
      | DbUpdateGameRoundByPotId pot u => Some (WUpdateRound pot u)
      | DbCreateEosProof p => Some (WCreateProof p)
      | _ => None
      end
  | EvLog _ _ => None
  end.

Definition db_writes (evs : list Event) : list DbWrite :=
  choose db_write evs.

(** * More of eosService.js *)

(** [String.prototype.toLowerCase], on ASCII text (block identifiers and
    hashes are hex digits). *)
Definition lower_ascii (c : ascii) : ascii :=
  let n := nat_of_ascii c in
  if ((65 <=? n) && (n <=? 90))%nat then ascii_of_nat (n + 32) else c.

Fixpoint toLowerCase (s : string) : string :=
  match s with
  | EmptyString => EmptyString
  | String c s' => String (lower_ascii c) (toLowerCase s')
  end.

Definition verifyBlockHash (blockNum : Z) (expectedHash : string)
  : Prog bool :=
  tryCatch
    (block <- getBlock blockNum ;;
     match block with
     | None =>
         Throw (new_Error ("Block " ++ Z_to_string blockNum ++ " not found"))
     | Some b =>
         let blockHash := normalizeBlockId (blockId b) in
         let matches :=
           String.eqb (toLowerCase blockHash) (toLowerCase expectedHash) in
         log info "Block hash verification" ;;;
         Ret matches
     end)
    (fun err =>
       log error "Failed to verify block hash" ;;;
       Throw err).

(** What [verifyBlockHash] returns is computed from a block an endpoint
    answered with. *)
Definition verified_against (expectedHash : string)
    (evs : list Event) (r : Result bool) : Prop :=
  forall m, r = Normal m ->
    exists url data blk,
      In (EvCall (AxiosPost url get_block data) (Resolved blk)) evs
      /\ m = String.eqb (toLowerCase (normalizeBlockId (id blk)))
                        (toLowerCase expectedHash).

(** The endpoint selection points into the endpoint list. *)
Definition endpoint_ok (w : World) : Prop :=
  (index_of w < List.length (endpoints_of w))%nat.

(** The configuration of [w'] is that of [w]: the endpoint list, the
    default block offset and the timer setting. *)
Definition same_config (w w' : World) : Prop :=
  endpoints_of w' = endpoints_of w
  /\ futureBlockOffset (eosService (heap w'))
     = futureBlockOffset (eosService (heap w))
  /\ GAME_TIMER_DURATION (heap w') = GAME_TIMER_DURATION (heap w).

(** A URL made of a configured endpoint and a chain API path. *)
Definition configured_url (eps : list string) (u : string) : Prop :=
  exists ep path, In ep eps /\ u = ep ++ path_string path.

(** Run from a good endpoint selection, [p] ends with a good selection and
    the same configuration, and every HTTP request it made went to a
    configured endpoint. *)
Definition keeps_service {A : Type} (p : Prog A) : Prop :=
  forall env w,
    endpoint_ok w ->
    endpoint_ok (final (run p env w))
    /\ same_config w (final (run p env w))
    /\ Forall (configured_url (endpoints_of w))
              (posted_urls (events p env w)).

(** A heap update that leaves the beacon client and the settings alone. *)
Definition serviceU (f : Heap -> Heap) : Prop :=
  forall h, eosService (f h) = eosService h
            /\ GAME_TIMER_DURATION (f h) = GAME_TIMER_DURATION h.

(** [p], [n] times in a row. *)
Fixpoint repeat_prog (n : nat) (p : Prog unit) : Prog unit :=
  match n with
  | O => Ret tt
  | S n' => p ;;; repeat_prog n' p
  end.

(** * More of gameManager.js *)

(** The [labels] object of [getPhaseLabel], by phase. *)
Definition labels : list (Z * string) :=
  [(GamePhase.IDLE, "IDLE"); (GamePhase.BETTING, "BETTING");
   (GamePhase.LOCKED, "LOCKED"); (GamePhase.COMPLETE, "COMPLETE")].

(** [obj[key]], [None] being [undefined]. *)
Fixpoint property (key : Z) (obj : list (Z * string)) : option string :=
  match obj with
  | [] => None
  | (k, v) :: rest => if key =? k then Some v else property key rest
  end.

(** [labels[phase] || 'UNKNOWN']: the empty string is falsy. *)
Definition getPhaseLabel (phase : Z) : string :=
  match property phase labels with
  | Some label => if String.eqb label "" then "UNKNOWN" else label
  | None => "UNKNOWN"
  end.

(** The seed a ledger finish call was given. *)
Definition finish_seed (ev : Event) : option string :=
  match ev with
  | EvCall c _ =>
      match c with
      | ContractFinishGame h => Some h
      | _ => None
      end
  | EvLog _ _ => None
  end.

Definition finish_seeds (evs : list Event) : list string :=
  choose finish_seed evs.

(** The seeds a tick handed to the ledger: none, or the one a Locked round
    with tickets was finished with, made from the identifier of a block an
    endpoint answered with. *)
Definition seed_from_beacon (evs : list Event) : Prop :=
  finish_seeds evs = []
  \/ exists st url data blk,
       In (EvCall GetPotState (Resolved st)) evs
       /\ phase st = GamePhase.LOCKED /\ tickets st <> 0
       /\ In (EvCall (AxiosPost url get_block data) (Resolved blk)) evs
       /\ finish_seeds evs = [normalizeBlockId (id blk)]
       /\ prefix "0x" (normalizeBlockId (id blk)) = true.

(** The database writes of a tick: none, or those that record a ledger
    transaction of this tick that resolved. *)
Definition writes_follow_ledger (evs : list Event) : Prop :=
  db_writes evs = []
  \/ (exists st tx t,
         In (EvCall GetPotState (Resolved st)) evs
         /\ phase st = GamePhase.IDLE
         /\ In (EvCall StartGame (Resolved tx)) evs
         /\ In (EvCall (TxWait tx) (Resolved tt)) evs
         /\ db_writes evs
            = [WCreateRound (mkRoundRow (potId st) "BETTING" t "0" 0 0)])
  \/ (exists st res t,
         In (EvCall GetPotState (Resolved st)) evs
         /\ phase st = GamePhase.BETTING
         /\ In (EvCall ContractLockGame (Resolved res)) evs
         /\ db_writes evs
            = [WUpdateRound (potId st) (LockedUpdate t (lock_txHash res))])
  \/ (exists st res eb t1 t2,
         In (EvCall GetPotState (Resolved st)) evs
         /\ phase st = GamePhase.LOCKED /\ tickets st <> 0
         /\ In (EvCall (ContractFinishGame (blockHash eb)) (Resolved res))
               evs
         /\ db_writes evs
            = [WUpdateRound (potId st)
                 (CompleteUpdate (winner res) t1 (txHash res)
                    (eos_blockNum eb) (blockHash eb) (eos_timestamp eb));
               WCreateProof
                 (mkProofRow (potId st) (eos_blockNum eb) (blockHash eb)
                    (eos_timestamp eb) (eos_producer eb) t2)]).

(** * contractService.js: the ledger gateway

    [lockGame] and [finishGame] of the gateway, which the orchestrator
    awaits as [ContractLockGame] and [ContractFinishGame].  The chain
    behind it is a [Ledger]: what submitting a transaction and waiting for
    it answer.  A gateway call yields the transactions it submitted and
    waited for, and what its promise settles to; its log lines are left
    out, and its [catch], which logs and rethrows, with them. *)

(** A log of a mined transaction: the name of its parsed event fragment,
    when it has one, and [args.winner]. *)
Record ReceiptLog := mkReceiptLog {
  fragment_name : option string;
  args_winner : string
}.

Record Receipt := mkReceipt {
  receipt_hash : string;
  receipt_blockNumber : Z;
  logs : list ReceiptLog
}.

Record Ledger := mkLedger {
  core_finishGame : string -> Outcome Tx;
  core_lockGame : Outcome Tx;
  tx_wait : Tx -> Outcome Receipt
}.

Inductive Sent :=
| SentFinishGame (eosBlockHash : string)
| SentLockGame
| Waited (tx : Tx).

(** [[0-9a-fA-F]] *)
Definition is_hex_digit (c : ascii) : bool :=
  let n := nat_of_ascii c in
  ((48 <=? n) && (n <=? 57) || (97 <=? n) && (n <=? 102)
   || (65 <=? n) && (n <=? 70))%nat.

(** [/^0x[0-9a-fA-F]{64}$/.test(s)] *)
Definition test_hash_regex (s : string) : bool :=
  match s with
  | String "0" (String "x" rest) =>
      (String.length rest =? 64)%nat && all_chars is_hex_digit rest
  | _ => false
  end.

Module ContractService.

(** A gateway call so far: what it sent, and how it stands. *)
Definition Gateway (A : Type) : Type := (list Sent * Outcome A)%type.

Definition ret {A : Type} (a : A) : Gateway A := ([], Resolved a).

Definition throw {A : Type} (e : JsError) : Gateway A := ([], Rejected e).

Definition bind {A B : Type} (p : Gateway A) (f : A -> Gateway B)
  : Gateway B :=
  match p with
  | (sent, Resolved a) => let (sent', r) := f a in ((sent ++ sent')%list, r)
  | (sent, Rejected e) => (sent, Rejected e)
  end.

(** [await] of a transaction or of its receipt. *)
Definition await {A : Type} (what : Sent) (answer : Outcome A) : Gateway A :=
  ([what], answer).

Definition not_initialized : JsError :=
  new_Error "ContractService not initialized. Call initialize() first.".

Definition lockGame (initialized : bool) (ledger : Ledger)
  : Gateway LockResult :=
  if negb initialized then throw not_initialized
  else
    bind (await SentLockGame (core_lockGame ledger)) (fun tx =>
    bind (await (Waited tx) (tx_wait ledger tx)) (fun receipt =>
    ret (mkLockResult (receipt_hash receipt) (receipt_blockNumber receipt)))).

(** [log.fragment && log.fragment.name === 'GameFinished'] *)
Definition is_GameFinished (l : ReceiptLog) : bool :=
  match fragment_name l with
  | Some name => String.eqb name "GameFinished"
  | None => false
  end.

Definition finishGame (initialized : bool) (ledger : Ledger)
    (eosBlockHash : string) : Gateway FinishResult :=
  if negb initialized then throw not_initialized
  else if negb (test_hash_regex eosBlockHash)
  then throw (new_Error "Invalid EOS block hash format")
  else
    bind (await (SentFinishGame eosBlockHash)
                (core_finishGame ledger eosBlockHash)) (fun tx =>
    bind (await (Waited tx) (tx_wait ledger tx)) (fun receipt =>
    let gameFinishedEvent := find is_GameFinished (logs receipt) in
    let winner := match gameFinishedEvent with
                  | Some ev => Some (args_winner ev)
                  | None => None
                  end in
    ret (mkFinishResult winner (receipt_hash receipt)
                        (receipt_blockNumber receipt)))).

End ContractService.

(** The orchestrator's collaborators, with the two gateway calls answered
    by the gateway itself in front of a ledger that may answer differently
    as the history grows. *)
Definition env_through_gateway (initialized : bool)
    (ledger : list Event -> Ledger) (base : Env) : Env :=
  fun R tr c =>
    match c in Cmd R return R with
    | ContractLockGame =>
        snd (ContractService.lockGame initialized (ledger tr))
    | ContractFinishGame h =>
        snd (ContractService.finishGame initialized (ledger tr) h)
    | c' => base _ tr c'
    end.

(** [^[0-9a-fA-F]{64}$] *)
Definition is_hex64_any (s : string) : bool :=
  (String.length s =? 64)%nat && all_chars is_hex_digit s.

Definition sample_ledger : Ledger :=
  mkLedger (fun _ => Resolved (mkTx "0xfinish"))
           (Resolved (mkTx "0xlock"))
           (fun tx => Resolved
                        (mkReceipt (hash tx) 8
                           [mkReceiptLog None "";
                            mkReceiptLog (Some "GameFinished") "0xwinner"])).

(** * The life cycle of the manager: gameManager.js and server.js

    [initialize], [start] and [stop] work on three fields of the manager
    that the tick does not touch.  node-cron is modelled by the tasks that
    are running: [cron.schedule] makes a new task, numbered in order, and
    starts it; [task.stop()] stops it.  [initialize] awaits the two
    services it depends on; what they answer is a [Services], and the
    manager's fields are written only after the last await. *)

Module Lifecycle.

Definition CronJob := nat.

Record Manager := mkManager {
  cronJob : option CronJob;
  isRunning : bool;
  initialized : bool
}.

Record Node := mkNode {
  manager : Manager;
  running : list CronJob;
  scheduled : nat;
  logged : list (Level * string)
}.

(** [new GameManager()], with no task scheduled yet. *)
Definition fresh : Node := mkNode (mkManager None false false) [] 0 [].

Definition log (l : Level) (m : string) (n : Node) : Node :=
  mkNode (manager n) (running n) (scheduled n) (logged n ++ [(l, m)]).

Definition set_manager (m : Manager) (n : Node) : Node :=
  mkNode m (running n) (scheduled n) (logged n).

(** [cron.schedule('* * * * * *', ...)] *)
Definition schedule (n : Node) : CronJob * Node :=
  (scheduled n,
   mkNode (manager n) (scheduled n :: running n) (S (scheduled n))
          (logged n)).

(** [job.stop()] *)
Definition job_stop (job : CronJob) (n : Node) : Node :=
  mkNode (manager n) (List.remove Nat.eq_dec job (running n)) (scheduled n)
         (logged n).

Record Services := mkServices {
  contract_isInitialized : bool;
  contract_initialize : Outcome unit;
  supabase_isInitialized : bool;
  supabase_initialize : Outcome unit
}.

Definition not_initialized : JsError :=
  new_Error "Game Manager not initialized. Call initialize() first.".

Definition initialize (sv : Services) (n : Node) : Node * Result unit :=
  if initialized (manager n)
  then (log info "Game Manager already initialized" n, Normal tt)
  else
    match (if contract_isInitialized sv then Resolved tt
           else contract_initialize sv) with
    | Rejected e => (log error "Failed to initialize Game Manager" n, Thrown e)
    | Resolved _ =>
        match (if supabase_isInitialized sv then Resolved tt
               else supabase_initialize sv) with
        | Rejected e =>
            (log error "Failed to initialize Game Manager" n, Thrown e)
        | Resolved _ =>
            let n1 := log info "Game Manager initialized successfully" n in
            let m := manager n1 in
            (set_manager (mkManager (cronJob m) (isRunning m) true) n1,
             Normal tt)
        end
    end.

Definition start (n : Node) : Node * Result unit :=
  if isRunning (manager n)
  then (log warn "Game Manager already running" n, Normal tt)
  else if negb (initialized (manager n))
  then (n, Thrown not_initialized)
  else
    let n1 := log info "Starting Game Manager" n in
    let (job, n2) := schedule n1 in
    let n3 := set_manager (mkManager (Some job) (isRunning (manager n2))
                                     (initialized (manager n2))) n2 in
    let n4 := set_manager (mkManager (cronJob (manager n3)) true
                                     (initialized (manager n3))) n3 in
    (log info "Game Manager started successfully" n4, Normal tt).

Definition stop (n : Node) : Node * Result unit :=
  if negb (isRunning (manager n))
  then (log warn "Game Manager not running" n, Normal tt)
  else
    let n1 := log info "Stopping Game Manager" n in
    let n2 := match cronJob (manager n1) with
              | Some job =>
                  let n' := job_stop job n1 in
                  set_manager (mkManager None (isRunning (manager n'))
                                         (initialized (manager n'))) n'
              | None => n1
              end in
    let n3 := set_manager (mkManager (cronJob (manager n2)) false
                                     (initialized (manager n2))) n2 in
    (log info "Game Manager stopped successfully" n3, Normal tt).

Definition isManagerRunning (n : Node) : bool := isRunning (manager n).

(** The [SIGTERM] and [SIGINT] handlers of the server, up to
    [process.exit(0)]; [signal] is the name of the one received.  The
    second log line is without its check mark. *)
Definition shutdown (signal : string) (n : Node) : Node * Result unit :=
  let n1 := log info (signal ++ " received, shutting down gracefully...") n in
  if isManagerRunning n1 then
    match stop n1 with
    | (n2, Normal _) => (log info "Game Manager stopped" n2, Normal tt)
    | (n2, r) => (n2, r)
    end
  else (n1, Normal tt).

(** What may happen to the manager, in any order. *)
Inductive Op :=
| Initialize (sv : Services)
| Start
| Stop
| Shutdown (signal : string).

Definition apply (op : Op) (n : Node) : Node * Result unit :=
  match op with
  | Initialize sv => initialize sv n
  | Start => start n
  | Stop => stop n
  | Shutdown signal => shutdown signal n
  end.

(** The node after [ops], an exception of one being caught by its
    caller. *)
Fixpoint after (ops : list Op) (n : Node) : Node :=
  match ops with
  | [] => n
  | op :: rest => after rest (fst (apply op n))
  end.

(** How each of [ops] ended. *)
Fixpoint outcomes (ops : list Op) (n : Node) : list (Op * Result unit) :=
  match ops with
  | [] => []
  | op :: rest =>
      (op, snd (apply op n)) :: outcomes rest (fst (apply op n))
  end.

(** Either the manager is stopped, holds no task and none is running; or
    it is running, initialized, and the task it holds is the one task
    running. *)
Definition Inv (n : Node) : Prop :=
  (isRunning (manager n) = false /\ cronJob (manager n) = None
   /\ running n = [])
  \/ (isRunning (manager n) = true /\ initialized (manager n) = true
      /\ exists job, cronJob (manager n) = Some job /\ running n = [job]).

End Lifecycle.

(** * The constructor of the beacon client (eosService.js)

    Strings are ASCII here: of the white space [trim] removes, the
    characters that are. *)

(** [a || b] on strings, [None] being [undefined]: the empty string is
    falsy. *)
Definition or_default (a : option string) (b : string) : string :=
  match a with
  | Some EmptyString => b
  | Some s => s
  | None => b
  end.

(** [s.split(sep)] for a separator of one character. *)
Fixpoint split (sep : ascii) (s : string) : list string :=
  match s with
  | EmptyString => [EmptyString]
  | String c s' =>
      if Ascii.eqb c sep then EmptyString :: split sep s'
      else match split sep s' with
           | piece :: rest => String c piece :: rest
           | [] => [String c EmptyString]
           end
  end.

(** Space, tab, line feed, vertical tab, form feed, carriage return. *)
Definition is_space (c : ascii) : bool :=
  let n := nat_of_ascii c in
  ((n =? 32) || (9 <=? n) && (n <=? 13))%nat.

Fixpoint trimStart (s : string) : string :=
  match s with
  | EmptyString => EmptyString
  | String c s' => if is_space c then trimStart s' else s
  end.

Fixpoint trimEnd (s : string) : string :=
  match s with
  | EmptyString => EmptyString
  | String c s' =>
      match trimEnd s' with
      | EmptyString => if is_space c then EmptyString
                       else String c EmptyString
      | t => String c t
      end
  end.

(** [s.trim()] *)
Definition trim (s : string) : string := trimEnd (trimStart s).

(** [new EosService()] on a first construction, given the two settings it
    reads: [EOS_RPC_ENDPOINTS], and [EOS_FUTURE_BLOCKS] as the integer it
    parses to when it is set. *)
Definition new_EosService (EOS_RPC_ENDPOINTS : option string)
    (EOS_FUTURE_BLOCKS : option Z) : EosService :=
  let endpoints :=
    split "," (or_default EOS_RPC_ENDPOINTS "https://eos.antelope.tools") in
  mkEosService (map trim endpoints) 0
               (match EOS_FUTURE_BLOCKS with
                | Some n => n
                | None => 5
                end).

(** [EosService.getInstance()]: the instance and the static field
    afterwards. *)
Definition getInstance (instance : option EosService)
    (EOS_RPC_ENDPOINTS : option string) (EOS_FUTURE_BLOCKS : option Z)
  : EosService * option EosService :=
  match instance with
  | Some service => (service, instance)
  | None =>
      let service := new_EosService EOS_RPC_ENDPOINTS EOS_FUTURE_BLOCKS in
      (service, Some service)
  end.

Fixpoint count_char (c : ascii) (s : string) : nat :=
  match s with
  | EmptyString => 0
  | String c' s' => (if Ascii.eqb c' c then 1 else 0) + count_char c s'
  end.

Definition starts_with_space (s : string) : bool :=
  match s with
  | EmptyString => false
  | String c _ => is_space c
  end.

Fixpoint ends_with_space (s : string) : bool :=
  match s with
  | EmptyString => false
  | String c EmptyString => is_space c
  | String _ s' => ends_with_space s'
  end.

(** * Lemmas and theorems *)

(** ** Sequential runs: composition lemmas *)

Lemma run_bind A B (p : Prog A) (f : A -> Prog B) env w :
  run (bind p f) env w =
  match run p env w with
  | (w', Normal a) => run (f a) env w'
  | (w', Thrown e) => (w', Thrown e)
  | (w', Diverged) => (w', Diverged)
  end.
Proof.
  revert w. induction p; intros w; simpl; auto.
Qed.

Lemma run_tryCatch A (p : Prog A) (h : JsError -> Prog A) env w :
  run (tryCatch p h) env w =
  match run p env w with
  | (w', Thrown e) => run (h e) env w'
  | other => other
  end.
Proof.
  revert w. induction p; intros w; simpl; auto.
Qed.

Lemma run_tryFinally A (p : Prog A) (fin : Prog unit) env w :
  run (tryFinally p fin) env w =
  match run p env w with
  | (w', Normal a) => run (fin ;;; Ret a) env w'
  | (w', Thrown e) => run (fin ;;; Throw e) env w'
  | (w', Diverged) => (w', Diverged)
  end.
Proof.
  revert w. induction p; intros w; simpl; auto.
Qed.

Lemma run_trace A (p : Prog A) env w :
  exists evs, trace (final (run p env w)) = (trace w ++ evs)%list.
Proof.
  revert w.
  induction p as [a | e | | k IH | f k IH | l m k IH | R c k IH];
    intros w; simpl.
  - exists []. rewrite app_nil_r. reflexivity.
  - exists []. rewrite app_nil_r. reflexivity.
  - exists []. rewrite app_nil_r. reflexivity.
  - apply IH.
  - apply (IH (mkWorld (f (heap w)) (trace w))).
  - destruct (IH (record (EvLog l m) w)) as [evs E].
    exists (EvLog l m :: evs). rewrite E. simpl.
    rewrite <- app_assoc. reflexivity.
  - destruct (IH (env R (trace w) c)
                 (record (EvCall c (env R (trace w) c)) w)) as [evs E].
    eexists (_ :: evs). rewrite E. simpl.
    rewrite <- app_assoc. reflexivity.
Qed.

Lemma trace_emitted A (p : Prog A) env w :
  trace (final (run p env w)) = (trace w ++ emitted p env w)%list.
Proof.
  unfold emitted. destruct (run_trace p env w) as [evs E].
  rewrite E at 2. rewrite skipn_app, skipn_all, Nat.sub_diag. simpl.
  exact E.
Qed.

(** ** Rules of the program logic *)

Section SatRules.
Variable okU : (Heap -> Heap) -> Prop.
Variable okC : forall R : Type, Cmd R -> Prop.

Lemma Sat_weaken A (Q Q' : Result A -> Prop) p :
  Sat okU okC Q p -> (forall r, Q r -> Q' r) -> Sat okU okC Q' p.
Proof.
  induction 1; intros HQ; constructor; auto.
Qed.

Lemma Sat_bind A B (Q1 : Result A -> Prop) (Q : Result B -> Prop)
      (p : Prog A) (f : A -> Prog B) :
  Sat okU okC Q1 p ->
  (forall a, Q1 (Normal a) -> Sat okU okC Q (f a)) ->
  (forall e, Q1 (Thrown e) -> Q (Thrown e)) ->
  (Q1 Diverged -> Q Diverged) ->
  Sat okU okC Q (bind p f).
Proof.
  induction 1; intros Hn Ht Hd; simpl; try (constructor; auto); auto.
Qed.

Lemma Sat_tryCatch A (Q1 Q : Result A -> Prop)
      (p : Prog A) (h : JsError -> Prog A) :
  Sat okU okC Q1 p ->
  (forall a, Q1 (Normal a) -> Q (Normal a)) ->
  (forall e, Q1 (Thrown e) -> Sat okU okC Q (h e)) ->
  (Q1 Diverged -> Q Diverged) ->
  Sat okU okC Q (tryCatch p h).
Proof.
  induction 1; intros Hn Ht Hd; simpl; try (constructor; auto); auto.
Qed.

Lemma Sat_run A (Q : Result A -> Prop) (p : Prog A) env w :
  Sat okU okC Q p -> Q (result (run p env w)).
Proof.
  intros H. revert w. induction H; intros w; simpl; auto.
Qed.

Lemma Sat_await R (c : Cmd (Outcome R)) (Q : Result R -> Prop) :
  okC c -> (forall v, Q (Normal v)) -> (forall e, Q (Thrown e)) ->
  Sat okU okC Q (await c).
Proof.
  intros Hc Hv He. unfold await. constructor; auto.
  intros [v | e]; constructor; auto.
Qed.
End SatRules.

(** ** eosService.js and gameManager.js: how the functions end *)

Lemma guardU_index i : guardU (set_currentEndpointIndex i).
Proof. intros h. reflexivity. Qed.

Ltac sat_side :=
  try solve [ exact I | reflexivity | assumption | discriminate
            | contradiction | intros; exact I | intros; reflexivity
            | intros; assumption | intros; discriminate
            | intros; contradiction | apply guardU_index ].

Section EosSat.
Variable okC : forall R : Type, Cmd R -> Prop.
Hypothesis ok_clock : forall R (c : Cmd R), is_clock c = true -> okC c.
Hypothesis ok_beacon : forall R (c : Cmd R), is_beacon c = true -> okC c.

Lemma switchToNextEndpoint_Sat :
  Sat guardU okC returns_unit switchToNextEndpoint.
Proof.
  unfold switchToNextEndpoint. cbn.
  constructor; intros h. constructor; [apply guardU_index|].
  repeat constructor.
Qed.

Lemma makeRpcCall_loop_Sat remaining :
  forall attempt maxRetries path data lastError,
    Sat guardU okC plain_failure
        (makeRpcCall_loop remaining attempt maxRetries path data lastError).
Proof.
  induction remaining as [| n IH]; intros attempt maxRetries path data last.
  - simpl. destruct last; constructor; reflexivity.
  - simpl. constructor; intros h. constructor.
    constructor; [apply ok_beacon; reflexivity|].
    intros [d | e]; simpl.
    + constructor. exact I.
    + constructor.
      destruct (attempt <? maxRetries - 1)%nat; simpl.
      * constructor; intros h'. constructor; [apply guardU_index|].
        constructor. apply IH.
      * apply IH.
Qed.

Lemma makeRpcCall_Sat path data :
  Sat guardU okC plain_failure (makeRpcCall path data).
Proof.
  unfold makeRpcCall. simpl. constructor; intros h.
  apply makeRpcCall_loop_Sat.
Qed.

Lemma getChainInfo_Sat : Sat guardU okC plain_failure getChainInfo.
Proof.
  unfold getChainInfo.
  eapply Sat_tryCatch with (Q1 := plain_failure).
  - eapply Sat_bind; [apply makeRpcCall_Sat | | | ]; sat_side.
    intros a _. simpl. repeat constructor.
  - sat_side.
  - intros e He. simpl. repeat constructor. exact He.
  - sat_side.
Qed.

Lemma getBlock_Sat blockNum : Sat guardU okC never_null (getBlock blockNum).
Proof.
  unfold getBlock.
  eapply Sat_tryCatch
    with (Q1 := fun r => plain_failure r /\ never_null r).
  - eapply Sat_bind; [apply makeRpcCall_Sat | | | ].
    + intros a _. simpl. repeat constructor.
    + intros e He. simpl. split; [exact He | exact I].
    + intros [].
  - intros a [_ H]. exact H.
  - intros e [He _]. simpl in He. rewrite He. simpl.
    repeat constructor.
  - intros [[] _].
Qed.

Lemma waitForBlock_loop_Sat fuel target startT maxWait :
  Sat guardU okC terminates
      (waitForBlock_loop (S fuel) target startT maxWait).
Proof.
  cbn [waitForBlock_loop bind call].
  constructor; [apply ok_clock; reflexivity|]. intros now.
  destruct (now - startT <? maxWait); [| constructor; exact I].
  eapply Sat_bind
    with (Q1 := fun r => never_null r).
  - eapply Sat_tryCatch with (Q1 := never_null).
    + eapply Sat_bind; [apply getBlock_Sat | | | ]; sat_side.
      intros [b |] Hb; [| destruct Hb]. simpl.
      constructor; [apply ok_clock; reflexivity|]. intros _.
      repeat constructor.
    + sat_side.
    + intros e _. simpl. repeat constructor.
    + sat_side.
  - intros [b |] Hb; [| destruct Hb]. constructor. exact I.
  - sat_side.
  - sat_side.
Qed.

Lemma waitForBlock_Sat fuel target maxWait :
  Sat guardU okC terminates (waitForBlock (S fuel) target maxWait).
Proof.
  unfold waitForBlock. cbn [bind call log].
  constructor; [apply ok_clock; reflexivity|]. intros startT.
  constructor. apply waitForBlock_loop_Sat.
Qed.

Lemma getFutureBlockHash_Sat fuel blocksInFuture :
  Sat guardU okC terminates (getFutureBlockHash (S fuel) blocksInFuture).
Proof.
  unfold getFutureBlockHash.
  eapply Sat_tryCatch with (Q1 := terminates); sat_side.
  - cbn [bind readThis log]. constructor; intros h. constructor.
    eapply Sat_bind; [apply getChainInfo_Sat | | | ]; sat_side.
    intros info _. cbn [bind log]. constructor.
    eapply Sat_bind; [apply waitForBlock_Sat | | | ]; sat_side.
    intros b _. simpl. repeat constructor.
  - intros e _. simpl. repeat constructor.
Qed.
End EosSat.

Section GameSat.
Variable okC : forall R : Type, Cmd R -> Prop.
(** Every call but the emergency cancel is allowed. *)
Hypothesis ok_other : forall R (c : Cmd R), is_cancel c = false -> okC c.

Lemma ok_clock : forall R (c : Cmd R), is_clock c = true -> okC c.
Proof.
  intros R c H. apply ok_other. destruct c; try reflexivity; discriminate.
Qed.

Lemma ok_beacon : forall R (c : Cmd R), is_beacon c = true -> okC c.
Proof.
  intros R c H. apply ok_other. destruct c; try reflexivity; discriminate.
Qed.

Ltac allowed := apply ok_other; reflexivity.

Lemma createGameRound_Sat pot :
  Sat guardU okC returns_unit (createGameRound pot).
Proof.
  unfold createGameRound. simpl.
  constructor; [allowed|]. intros now.
  constructor; [allowed|]. intros [[] | e]; repeat constructor.
Qed.

Lemma updateGameRound_Sat pot updates :
  Sat guardU okC returns_unit (updateGameRound pot updates).
Proof.
  unfold updateGameRound. simpl.
  constructor; [allowed|]. intros [[] | e]; repeat constructor.
Qed.

Lemma storeEosProof_Sat pot eosBlock :
  Sat guardU okC returns_unit (storeEosProof pot eosBlock).
Proof.
  unfold storeEosProof. simpl.
  constructor; [allowed|]. intros now.
  constructor; [allowed|]. intros [[] | e]; repeat constructor.
Qed.

Lemma lockGame_Sat state : Sat guardU okC terminates (lockGame state).
Proof.
  unfold lockGame. simpl. constructor.
  constructor; [allowed|]. intros [res | e]; simpl.
  - constructor. constructor; [allowed|]. intros now.
    constructor; [allowed|]. intros [[] | e]; repeat constructor.
  - repeat constructor.
Qed.

Lemma finishGame_Sat state eosBlock :
  Sat guardU okC terminates (finishGame state eosBlock).
Proof.
  unfold finishGame. simpl. constructor.
  constructor; [allowed|]. intros [res | e]; simpl.
  - constructor. constructor; [allowed|]. intros now.
    constructor; [allowed|].
    intros [[] | e]; simpl; constructor;
      (constructor; [allowed|]); intros now';
      (constructor; [allowed|]); intros [[] | e']; repeat constructor.
  - repeat constructor.
Qed.

Lemma handleIdlePhase_Sat state :
  Sat guardU okC returns_unit (handleIdlePhase state).
Proof.
  unfold handleIdlePhase. simpl. constructor.
  constructor; [allowed|]. intros [tx | e]; simpl.
  - constructor; [allowed|]. intros [[] | e]; simpl.
    + constructor. constructor; [allowed|]. intros now.
      constructor; [allowed|]. intros [[] | e]; repeat constructor.
    + repeat constructor.
  - repeat constructor.
Qed.

Lemma handleBettingPhase_Sat state :
  Sat guardU okC returns_unit (handleBettingPhase state).
Proof.
  unfold handleBettingPhase.
  eapply Sat_tryCatch with (Q1 := terminates).
  - cbn [bind call readThis].
    constructor; [allowed|]. intros nowMs. constructor; intros h.
    eapply Sat_bind with (Q1 := returns_unit).
    + destruct (at_log_threshold _); repeat constructor.
    + intros _ _. destruct (_ >=? _).
      * cbn [bind log]. constructor. apply lockGame_Sat.
      * constructor. exact I.
    + intros e He. discriminate He.
    + intros He. discriminate He.
  - intros [] _. reflexivity.
  - intros e _. repeat constructor.
  - intros [].
Qed.

Lemma handleLockedPhase_Sat fuel state :
  (tickets state = 0 -> okC EmergencyCancel) ->
  Sat guardU okC returns_unit (handleLockedPhase (S fuel) state).
Proof.
  intros Hcancel. unfold handleLockedPhase. cbn [bind log]. constructor.
  eapply Sat_tryCatch with (Q1 := terminates).
  - destruct (tickets state =? 0) eqn:E.
    + apply Z.eqb_eq in E. simpl. constructor.
      constructor; [auto|]. intros [tx | e]; simpl.
      * constructor; [allowed|]. intros [[] | e]; repeat constructor.
      * repeat constructor.
    + cbn [bind log]. constructor.
      eapply Sat_bind;
        [apply getFutureBlockHash_Sat;
         [apply ok_clock | apply ok_beacon] | | | ]; sat_side.
      intros eosBlock _. cbn [bind log]. constructor.
      apply finishGame_Sat.
  - intros [] _. reflexivity.
  - intros e _. repeat constructor.
  - intros [].
Qed.

Lemma handleCompletePhase_Sat state :
  Sat guardU okC returns_unit (handleCompletePhase state).
Proof. repeat constructor. Qed.
End GameSat.

(** ** Single flight *)

Lemma advance_releasing q :
  GuardFree q ->
  forall w, isProcessing (gameManager (heap w)) = true ->
  match advance (tryFinally q release) w with
  | (w', None) => isProcessing (gameManager (heap w')) = false
  | (w', Some t) =>
      isProcessing (gameManager (heap w')) = true /\ InFlight t
  end.
Proof.
  induction 1 as [a _ | e _ | _ | k _ IH | f k Hf _ IH | l m k _ IH
                  | R c k _ Hk _]; intros w Hw; simpl.
  - reflexivity.
  - reflexivity.
  - split; [exact Hw | exact I].
  - apply IH. exact Hw.
  - apply IH. simpl. rewrite Hf. exact Hw.
  - apply IH. exact Hw.
  - split; [exact Hw |]. intros r. exists (k r). split; [reflexivity | apply Hk].
Qed.

Lemma tick_body_GuardFree onIdle onBetting onLocked onComplete :
  (forall st, GuardFree (onIdle st)) ->
  (forall st, GuardFree (onBetting st)) ->
  (forall st, GuardFree (onLocked st)) ->
  (forall st, GuardFree (onComplete st)) ->
  GuardFree
    (tryCatch
       (state <- await GetPotState ;;
        let currentPhase := phase state in
        log debug "Game state check" ;;;
        if currentPhase =? GamePhase.IDLE then onIdle state
        else if currentPhase =? GamePhase.BETTING then onBetting state
        else if currentPhase =? GamePhase.LOCKED then onLocked state
        else if currentPhase =? GamePhase.COMPLETE then onComplete state
        else log error "Unknown game phase")
       (fun err => log error "Error checking game state")).
Proof.
  intros HI HB HL HC. unfold GuardFree.
  eapply Sat_tryCatch with (Q1 := fun _ => True); sat_side.
  - eapply Sat_bind with (Q1 := fun _ => True); sat_side.
    + apply Sat_await; sat_side.
    + intros st _. cbn [bind log]. constructor.
      repeat match goal with
             | |- context [if ?b then _ else _] => destruct b
             end;
        try apply HI; try apply HB; try apply HL; try apply HC.
      repeat constructor.
  - intros e _. repeat constructor.
Qed.

Lemma fire_preserves onIdle onBetting onLocked onComplete s :
  (forall st, GuardFree (onIdle st)) ->
  (forall st, GuardFree (onBetting st)) ->
  (forall st, GuardFree (onLocked st)) ->
  (forall st, GuardFree (onComplete st)) ->
  SingleFlight s ->
  SingleFlight
    (fire (checkAndProcessGameState_with onIdle onBetting onLocked onComplete)
          s).
Proof.
  intros HI HB HL HC Hs.
  pose proof (tick_body_GuardFree onIdle onBetting onLocked onComplete
                HI HB HL HC) as Hbody.
  destruct s as [w ps]. unfold fire, checkAndProcessGameState_with.
  cbn [bind readThis update advance world pending].
  destruct Hs as [[Hp Hg] | (t & Hp & Hg & Ht)];
    unfold guard_set in Hg; simpl in Hp, Hg; subst ps.
  - rewrite Hg. cbn [bind advance].
    pose proof (advance_releasing Hbody
                  (mkWorld (set_isProcessing true (heap w)) (trace w))
                  eq_refl) as H.
    unfold release in H.
    destruct (advance _ _) as [w' [t |]]; unfold park; simpl.
    + right. exists t. destruct H as [H1 H2]. auto.
    + left. auto.
  - rewrite Hg. simpl. right. exists t. auto.
Qed.

Lemma step_preserves onIdle onBetting onLocked onComplete s s' :
  (forall st, GuardFree (onIdle st)) ->
  (forall st, GuardFree (onBetting st)) ->
  (forall st, GuardFree (onLocked st)) ->
  (forall st, GuardFree (onComplete st)) ->
  SingleFlight s ->
  step (checkAndProcessGameState_with onIdle onBetting onLocked onComplete)
       s s' ->
  SingleFlight s'.
Proof.
  intros HI HB HL HC Hs Hstep.
  destruct Hstep as [s | s pre post R c k r Hp].
  - apply fire_preserves; assumption.
  - destruct Hs as [[Hp0 Hg] | (t & Hp0 & Hg & Ht)]; rewrite Hp0 in Hp.
    + destruct pre; discriminate Hp.
    + destruct pre as [| t' pre].
      * simpl in Hp. injection Hp as Ht' Hpost. subst t post.
        destruct (Ht r) as (q & Eq & Hq). rewrite Eq.
        pose proof (advance_releasing Hq
                      (record (EvCall c r) (world s)) Hg) as H.
        destruct (advance _ _) as [w' [t |]]; unfold park; simpl.
        -- right. exists t. destruct H as [H1 H2]. auto.
        -- left. auto.
      * simpl in Hp. injection Hp as _ Hnil. destruct pre; discriminate Hnil.
Qed.

Lemma reachable_SingleFlight onIdle onBetting onLocked onComplete s0 s :
  (forall st, GuardFree (onIdle st)) ->
  (forall st, GuardFree (onBetting st)) ->
  (forall st, GuardFree (onLocked st)) ->
  (forall st, GuardFree (onComplete st)) ->
  pending s0 = [] -> guard_set s0 = false ->
  reachable (checkAndProcessGameState_with onIdle onBetting onLocked onComplete)
            s0 s ->
  SingleFlight s.
Proof.
  intros HI HB HL HC Hp Hg Hr. induction Hr as [| s s' _ IH Hstep].
  - left. auto.
  - exact (step_preserves HI HB HL HC IH Hstep).
Qed.

Lemma fire_dropped onIdle onBetting onLocked onComplete s :
  guard_set s = true ->
  fire (checkAndProcessGameState_with onIdle onBetting onLocked onComplete) s
  = s.
Proof.
  destruct s as [w ps]. unfold guard_set, fire, park. simpl. intros H.
  rewrite H. simpl. rewrite app_nil_r. reflexivity.
Qed.

Lemma run_dropped onIdle onBetting onLocked onComplete env w :
  isProcessing (gameManager (heap w)) = true ->
  run (checkAndProcessGameState_with onIdle onBetting onLocked onComplete)
      env w = (w, Normal tt).
Proof.
  intros H. unfold checkAndProcessGameState_with. simpl. rewrite H.
  reflexivity.
Qed.

Lemma run_released onIdle onBetting onLocked onComplete env w :
  isProcessing (gameManager (heap w)) = false ->
  result (run (checkAndProcessGameState_with
                 onIdle onBetting onLocked onComplete) env w) <> Diverged ->
  isProcessing
    (gameManager
       (heap (final (run (checkAndProcessGameState_with
                            onIdle onBetting onLocked onComplete) env w))))
  = false.
Proof.
  intros Hg.
  unfold checkAndProcessGameState_with. cbn [bind readThis run].
  rewrite Hg. cbn [bind update run]. rewrite run_tryFinally.
  destruct (run _ env _) as [w' [a | e |]]; simpl; auto.
  intros H. contradiction H. reflexivity.
Qed.

(** The real handlers never write the guard. *)
Lemma handlers_GuardFree fuel :
  (forall st, GuardFree (handleIdlePhase st))
  /\ (forall st, GuardFree (handleBettingPhase st))
  /\ (forall st, GuardFree (handleLockedPhase (S fuel) st))
  /\ (forall st, GuardFree (handleCompletePhase st)).
Proof.
  unfold GuardFree.
  repeat split; intros st;
    eapply Sat_weaken;
    try (intros r _; exact I).
  - apply handleIdlePhase_Sat. intros; exact I.
  - apply handleBettingPhase_Sat. intros; exact I.
  - apply handleLockedPhase_Sat; intros; exact I.
  - apply handleCompletePhase_Sat.
Qed.

(** The real tick, for every fuel: its handlers leave the guard alone. *)
Lemma real_tick_SingleFlight fuel s0 s :
  pending s0 = [] -> guard_set s0 = false ->
  reachable (checkAndProcessGameState (S fuel)) s0 s ->
  SingleFlight s.
Proof.
  destruct (handlers_GuardFree fuel) as (HI & HB & HL & HC).
  apply (reachable_SingleFlight HI HB HL HC).
Qed.

(** C1. Single flight.  Start with no tick in flight and the guard clear,
    and let the timer fire and the awaited calls settle in any order, for
    any phase handlers that leave the guard alone (they may throw).  Then
    at most one invocation is ever parked at an await; the guard is set
    exactly while one is, so it is set before the first awaited call and is
    clear again once the tick has left by any path; and a tick fired while
    the guard is set changes nothing: no state is read, no call is issued,
    nothing is queued.  Run on its own, a tick that finds the guard set
    returns at once with the world untouched, and a tick that finds it
    clear ends with the guard clear. *)
Theorem tick_single_flight onIdle onBetting onLocked onComplete s0 s env w :
  let tick :=
    checkAndProcessGameState_with onIdle onBetting onLocked onComplete in
  (forall st, GuardFree (onIdle st)) ->
  (forall st, GuardFree (onBetting st)) ->
  (forall st, GuardFree (onLocked st)) ->
  (forall st, GuardFree (onComplete st)) ->
  pending s0 = [] -> guard_set s0 = false ->
  reachable tick s0 s ->
  (List.length (pending s) <= 1)%nat
  /\ (guard_set s = true <-> pending s <> [])
  /\ (guard_set s = true -> fire tick s = s)
  /\ (isProcessing (gameManager (heap w)) = true ->
      run tick env w = (w, Normal tt))
  /\ (isProcessing (gameManager (heap w)) = false ->
      result (run tick env w) <> Diverged ->
      isProcessing (gameManager (heap (final (run tick env w)))) = false).
Proof.
  intros tick HI HB HL HC Hp Hg Hr.
  pose proof (reachable_SingleFlight HI HB HL HC Hp Hg Hr) as Inv.
  repeat split.
  - destruct Inv as [[E _] | (t & E & _)]; rewrite E; simpl; lia.
  - intros G. destruct Inv as [[_ G'] | (t & E & _)];
      [congruence | rewrite E; discriminate].
  - intros N. destruct Inv as [[E _] | (t & _ & G & _)];
      [contradiction | exact G].
  - apply fire_dropped.
  - apply run_dropped.
  - apply run_released.
Qed.

Lemma tick_single_flight_witness :
  let tick := checkAndProcessGameState 1 in
  let s := fire tick sched0 in
  let env := env_sample (sample_state 1 0 3) sample_id 0 true in
  (List.length (pending s) <= 1)%nat
  /\ (guard_set s = true <-> pending s <> [])
  /\ (guard_set s = true -> fire tick s = s)
  /\ (isProcessing (gameManager (heap w0)) = true ->
      run tick env w0 = (w0, Normal tt))
  /\ (isProcessing (gameManager (heap w0)) = false ->
      result (run tick env w0) <> Diverged ->
      isProcessing (gameManager (heap (final (run tick env w0)))) = false).
Proof.
  intros tick s env.
  destruct (handlers_GuardFree 0) as (HI & HB & HL & HC).
  apply (@tick_single_flight handleIdlePhase handleBettingPhase
           (handleLockedPhase 1) handleCompletePhase sched0 s env w0
           HI HB HL HC eq_refl eq_refl).
  apply reach_step with (s := sched0); [apply reach_start | apply step_fire].
Defined.

(** ** The tick returns *)

(** The fuel of the model never runs out: [getBlock] never returns [null],
    so the loop of [waitForBlock] leaves in its first iteration, and one
    unit of fuel is as good as any. *)
Lemma waitForBlock_loop_fuel fuel target startT maxWait env w :
  run (waitForBlock_loop (S fuel) target startT maxWait) env w
  = run (waitForBlock_loop 1 target startT maxWait) env w.
Proof.
  cbn [waitForBlock_loop bind call run].
  destruct (_ - startT <? maxWait); [| reflexivity].
  rewrite !run_bind.
  match goal with
  | |- context [run (tryCatch ?p ?h) env ?w1] =>
      assert (S : Sat guardU (fun _ _ => True) never_null (tryCatch p h))
  end.
  { eapply Sat_tryCatch with (Q1 := never_null).
    - eapply Sat_bind;
        [apply getBlock_Sat; intros; exact I | | | ]; sat_side.
      intros [b |] Hb; [| destruct Hb]. simpl.
      constructor; [exact I |]. intros _. repeat constructor.
    - sat_side.
    - intros e _. simpl. repeat constructor.
    - sat_side. }
  match goal with
  | |- context [run (tryCatch ?p ?h) env ?w1] =>
      pose proof (Sat_run env w1 S) as Hr;
      destruct (run (tryCatch p h) env w1) as [w' [[b |] | e |]]
  end; try reflexivity; destruct Hr.
Qed.

(** How a tick ends, whatever the handlers are: it returns, unless the
    handler it dispatched to never ends. *)
Lemma run_tick_result onIdle onBetting onLocked onComplete env w :
  result (run (checkAndProcessGameState_with
                 onIdle onBetting onLocked onComplete) env w) = Normal tt
  \/ exists st env' w',
       result (run (checkAndProcessGameState_with
                      onIdle onBetting onLocked onComplete) env w) = Diverged
       /\ env' = env
       /\ (result (run (onIdle st) env' w') = Diverged
           \/ result (run (onBetting st) env' w') = Diverged
           \/ result (run (onLocked st) env' w') = Diverged
           \/ result (run (onComplete st) env' w') = Diverged).
Proof.
  unfold checkAndProcessGameState_with. cbn [bind readThis run].
  destruct (isProcessing (gameManager (heap w))); [left; reflexivity |].
  cbn [bind update run]. rewrite run_tryFinally, run_tryCatch.
  cbn [bind await run].
  destruct (env _ _ GetPotState) as [st | e]; cbn [run bind log].
  2: { left. reflexivity. }
  set (w1 := record (EvLog debug "Game state check") _).
  repeat match goal with
         | |- context [run (if ?b then ?h st else _) env w1] =>
             destruct b;
             [ destruct (run (h st) env w1) as [w' [[] | e |]] eqn:E;
               [ left; reflexivity | left; reflexivity
               | right; exists st, env, w1; rewrite E; simpl; auto 6 ]
             | ]
         end.
  left. reflexivity.
Qed.

(** Each real handler returns: it catches what it awaits. *)
Lemma handlers_return fuel st env w :
  result (run (handleIdlePhase st) env w) = Normal tt
  /\ result (run (handleBettingPhase st) env w) = Normal tt
  /\ result (run (handleLockedPhase (S fuel) st) env w) = Normal tt
  /\ result (run (handleCompletePhase st) env w) = Normal tt.
Proof.
  repeat split.
  - apply (Sat_run env w
             (@handleIdlePhase_Sat (fun _ _ => True) (fun _ _ _ => I) st)).
  - apply (Sat_run env w
             (@handleBettingPhase_Sat (fun _ _ => True) (fun _ _ _ => I) st)).
  - apply (Sat_run env w
             (@handleLockedPhase_Sat (fun _ _ => True) (fun _ _ _ => I)
                                     fuel st (fun _ => I))).
Qed.

(** C8. A tick never throws into the scheduler.  Whatever the four phase
    handlers are, and so also when one of them throws, whatever the ledger
    read answers (a rejection, an unknown phase value) and whatever state
    the tick starts in, the tick does not end with an exception; and a tick
    with the real handlers always returns normally. *)
Theorem tick_never_throws :
  (forall onIdle onBetting onLocked onComplete env w e,
      result (run (checkAndProcessGameState_with
                     onIdle onBetting onLocked onComplete) env w)
      <> Thrown e)
  /\ (forall fuel env w,
         result (run (checkAndProcessGameState (S fuel)) env w) = Normal tt).
Proof.
  split.
  - intros onIdle onBetting onLocked onComplete env w e.
    destruct (run_tick_result onIdle onBetting onLocked onComplete env w)
      as [H | (st & env' & w' & H & _)]; rewrite H; discriminate.
  - intros fuel env w. unfold checkAndProcessGameState.
    destruct (run_tick_result handleIdlePhase handleBettingPhase
                (handleLockedPhase (S fuel)) handleCompletePhase env w)
      as [H | (st & env' & w' & _ & _ & H)]; [exact H |].
    destruct (handlers_return fuel st env' w') as (HI & HB & HL & HC).
    rewrite HI, HB, HL, HC in H.
    destruct H as [H | [H | [H | H]]]; discriminate H.
Qed.

Lemma choose_app A B (f : A -> option B) l1 l2 :
  choose f (l1 ++ l2) = (choose f l1 ++ choose f l2)%list.
Proof.
  induction l1 as [| x l1 IH]; simpl; [reflexivity |].
  destruct (f x); simpl; rewrite IH; reflexivity.
Qed.

(** ** Endpoint failover *)

(** One iteration of the loop of [makeRpcCall], by the answer it gets. *)
Lemma run_makeRpcCall_loop_S r a N path data last env w :
  run (makeRpcCall_loop (S r) a N path data last) env w =
  let url := (nth (index_of w) (endpoints_of w) "undefined"
              ++ path_string path)%string in
  let w1 := record (EvLog debug "Making EOS RPC call") w in
  match env _ (trace w1) (AxiosPost url path data) with
  | Resolved d =>
      (record (EvCall (AxiosPost url path data) (Resolved d)) w1, Normal d)
  | Rejected e =>
      let w2 := record (EvLog error "EOS RPC call failed")
                  (record (EvCall (AxiosPost url path data) (Rejected e)) w1)
      in
      if (a <? N - 1)%nat then
        run (makeRpcCall_loop r (S a) N path data (Some e)) env
            (record (EvLog warn "Switching to next EOS RPC endpoint")
               (mkWorld
                  (set_currentEndpointIndex
                     ((index_of w + 1) mod List.length (endpoints_of w))%nat
                     (heap w))
                  (trace w2)))
      else
        run (makeRpcCall_loop r (S a) N path data (Some e)) env w2
  end.
Proof.
  cbn [makeRpcCall_loop]. rewrite run_bind, run_tryCatch.
  cbn [getCurrentEndpoint bind readThis run await log].
  unfold index_of, endpoints_of.
  destruct (env _ _ (AxiosPost _ path data)) as [d | e]; cbn [run bind].
  - reflexivity.
  - rewrite run_bind.
    destruct (a <? N - 1)%nat; reflexivity.
Qed.

Lemma makeRpcCall_loop_spec r :
  forall a path data last env w,
    (a + r = List.length (endpoints_of w))%nat ->
    (index_of w < List.length (endpoints_of w))%nat ->
    let N := List.length (endpoints_of w) in
    let out := run (makeRpcCall_loop r a N path data last) env w in
    exists evs,
      trace (final out) = (trace w ++ evs)%list
      /\ endpoints_of (final out) = endpoints_of w
      /\ let k := List.length (post_failures evs) in
         (k <= r)%nat
         /\ posted_urls evs
            = map (attempt_url (endpoints_of w) (index_of w) path)
                  (seq 0 (Nat.min (S k) r))
         /\ match result out with
            | Normal _ =>
                (k < r)%nat
                /\ index_of (final out) = ((index_of w + k) mod N)%nat
            | Thrown e =>
                k = r
                /\ index_of (final out)
                   = ((index_of w + (r - 1)) mod N)%nat
                /\ match List.rev (post_failures evs), last with
                   | f :: _, _ => e = aggregate_error N f
                   | [], Some f => e = aggregate_error N f
                   | [], None => True
                   end
            | Diverged => False
            end.
Proof.
  induction r as [| r IH]; intros a path data last env w Ha Hi N out.
  - exists []. subst out. simpl. rewrite app_nil_r.
    destruct last as [f |]; simpl; repeat split; auto;
      rewrite Nat.add_0_r; symmetry; apply Nat.mod_small; exact Hi.
  - subst out. rewrite run_makeRpcCall_loop_S.
    set (url := (nth (index_of w) (endpoints_of w) "undefined"
                 ++ path_string path)%string).
    set (w1 := record (EvLog debug "Making EOS RPC call") w).
    cbv zeta.
    assert (Hurl0 : attempt_url (endpoints_of w) (index_of w) path 0 = url).
    { unfold attempt_url. rewrite Nat.add_0_r, Nat.mod_small by exact Hi.
      reflexivity. }
    assert (Hmod0 : ((index_of w + 0) mod N)%nat = index_of w).
    { rewrite Nat.add_0_r. apply Nat.mod_small. exact Hi. }
    destruct (env _ (trace w1) (AxiosPost url path data)) as [d | e].
    + (* the attempt succeeds *)
      exists [EvLog debug "Making EOS RPC call";
              EvCall (AxiosPost url path data) (Resolved d)].
      split; [unfold record; simpl; rewrite <- app_assoc; reflexivity |].
      split; [reflexivity |].
      unfold post_failures, posted_urls.
      cbn [choose post_url post_error List.length].
      replace (Nat.min 1 (S r)) with 1%nat by lia.
      cbn [seq map result final fst snd]. rewrite Hurl0, Hmod0.
      repeat split; lia.
    + (* the attempt fails *)
      destruct r as [| r'].
      * (* it was the last one *)
        assert (Hlt : (a <? N - 1)%nat = false)
          by (apply Nat.ltb_ge; unfold N; lia).
        rewrite Hlt.
        exists [EvLog debug "Making EOS RPC call";
                EvCall (AxiosPost url path data) (Rejected e);
                EvLog error "EOS RPC call failed"].
        split; [unfold record; simpl; repeat rewrite <- app_assoc;
                reflexivity |].
        split; [reflexivity |].
        unfold post_failures, posted_urls.
        cbn [choose post_url post_error List.length].
        replace (Nat.min 2 1) with 1%nat by lia.
        cbn [seq map result final fst snd makeRpcCall_loop run List.rev app].
        rewrite Hurl0. replace (1 - 1)%nat with 0%nat by lia.
        unfold index_of at 1. cbn [heap record]. fold (index_of w).
        rewrite Hmod0.
        repeat split; lia.
      * (* switch to the next endpoint and go on *)
        assert (Hlt : (a <? N - 1)%nat = true)
          by (apply Nat.ltb_lt; unfold N; lia).
        rewrite Hlt.
        set (w2 := record (EvLog warn "Switching to next EOS RPC endpoint") _).
        assert (Hep : endpoints_of w2 = endpoints_of w) by reflexivity.
        assert (Hix : index_of w2 = ((index_of w + 1) mod N)%nat)
          by reflexivity.
        assert (HN : N <> 0%nat) by (unfold N; lia).
        specialize (IH (S a) path data (Some e) env w2).
        rewrite Hep in IH. fold N in IH.
        destruct IH as (evs & Htr & Heps & Hk & Hurls & Hres).
        { lia. }
        { rewrite Hix. apply Nat.mod_upper_bound. exact HN. }
        exists (EvLog debug "Making EOS RPC call"
                :: EvCall (AxiosPost url path data) (Rejected e)
                :: EvLog error "EOS RPC call failed"
                :: EvLog warn "Switching to next EOS RPC endpoint"
                :: evs).
        split.
        { rewrite Htr. subst w2 w1. unfold record. cbn [trace heap].
          repeat rewrite <- app_assoc. reflexivity. }
        split; [exact Heps |].
        unfold post_failures, posted_urls in *.
        cbn [choose post_url post_error List.length].
        set (k := List.length (choose post_error evs)) in *.
        split; [lia |].
        split.
        { rewrite Hurls.
          replace (Nat.min (S (S k)) (S (S r')))
            with (S (Nat.min (S k) (S r'))) by lia.
          set (m := Nat.min (S k) (S r')).
          cbn [seq map]. rewrite <- seq_shift, map_map. f_equal.
          - exact (eq_sym Hurl0).
          - apply map_ext. intros j. unfold attempt_url. fold N.
            rewrite Hix, Nat.Div0.add_mod_idemp_l.
            replace (index_of w + 1 + j)%nat with (index_of w + S j)%nat
              by lia.
            reflexivity. }
        destruct (result (run _ env w2)) as [d | e' |].
        -- destruct Hres as [Hlt' Hfin]. split; [lia |].
           rewrite Hfin, Hix, Nat.Div0.add_mod_idemp_l. f_equal. lia.
        -- destruct Hres as (Hkr & Hfin & Hmsg). split; [lia |]. split.
           ++ rewrite Hfin, Hix, Nat.Div0.add_mod_idemp_l. f_equal. lia.
           ++ cbn [List.rev].
              destruct (List.rev (choose post_error evs)) as [| f fs] eqn:Er.
              ** cbn [app]. exact Hmsg.
              ** cbn [app]. exact Hmsg.
        -- exact Hres.
Qed.

Lemma round_robin_NoDup i N m :
  (m <= N)%nat -> N <> 0%nat ->
  NoDup (map (fun j => ((i + j) mod N)%nat) (seq 0 m)).
Proof.
  intros Hm HN. apply NoDup_map_NoDup_ForallPairs; [| apply seq_NoDup].
  intros x y Hx Hy E. apply in_seq in Hx, Hy.
  pose proof (Nat.div_mod_eq (i + x) N) as Dx.
  pose proof (Nat.div_mod_eq (i + y) N) as Dy.
  rewrite E in Dx.
  assert (Hq : ((i + x) / N = (i + y) / N)%nat) by nia.
  rewrite Hq in Dx. lia.
Qed.

Lemma makeRpcCall_spec path data env w :
  (index_of w < List.length (endpoints_of w))%nat ->
  let N := List.length (endpoints_of w) in
  let out := run (makeRpcCall path data) env w in
  let evs := emitted (makeRpcCall path data) env w in
  let k := List.length (post_failures evs) in
  endpoints_of (final out) = endpoints_of w
  /\ (k <= N)%nat
  /\ posted_urls evs
     = map (attempt_url (endpoints_of w) (index_of w) path)
           (seq 0 (Nat.min (S k) N))
  /\ match result out with
     | Normal _ =>
         (k < N)%nat /\ index_of (final out) = ((index_of w + k) mod N)%nat
     | Thrown e =>
         k = N
         /\ index_of (final out) = ((index_of w + (N - 1)) mod N)%nat
         /\ exists f rest,
              List.rev (post_failures evs) = f :: rest
              /\ e = aggregate_error N f
     | Diverged => False
     end.
Proof.
  intros Hi N out evs k.
  pose proof (@makeRpcCall_loop_spec N 0 path data None env w
                eq_refl Hi) as H.
  cbv zeta in H. fold N in H.
  assert (Hrun : run (makeRpcCall path data) env w
                 = run (makeRpcCall_loop N 0 N path data None) env w)
    by reflexivity.
  destruct H as (evs' & Htr & Heps & Hk & Hurls & Hres).
  assert (Hevs : evs = evs').
  { subst evs. pose proof (trace_emitted (makeRpcCall path data) env w) as T.
    rewrite Hrun in T at 1. rewrite Htr in T.
    apply app_inv_head in T. symmetry. exact T. }
  subst k. rewrite Hevs. subst out. rewrite Hrun.
  split; [exact Heps |]. split; [exact Hk |]. split; [exact Hurls |].
  destruct (result _) as [d | e |]; auto.
  destruct Hres as (Hkr & Hfin & Hmsg). split; [exact Hkr |].
  split; [exact Hfin |].
  destruct (List.rev (post_failures evs')) as [| f rest] eqn:Er.
  - apply (f_equal (@List.length _)) in Er. rewrite length_rev in Er.
    simpl in Er. unfold N in Hkr. lia.
  - exists f, rest. auto.
Qed.

(** C7. Endpoint failover.  Within one call the attempts go to the
    configured endpoints in round-robin order from the current selection:
    attempt [j] goes to endpoint [(i + j) mod N].  A failure is followed by
    an attempt at the next endpoint, there are at most [N] attempts, and no
    endpoint is tried twice.  When all [N] fail the call throws the
    aggregate error whose text ends with the message of the last failure.
    The selection is a field of the service, so it is still there for the
    next call, whose first attempt goes to the endpoint this call ended on;
    it has moved by one for each failure that was followed by another
    attempt, and a call that succeeds at once leaves it where it was. *)
Theorem makeRpcCall_failover path data env w :
  (index_of w < List.length (endpoints_of w))%nat ->
  let N := List.length (endpoints_of w) in
  let out := run (makeRpcCall path data) env w in
  let evs := emitted (makeRpcCall path data) env w in
  let k := List.length (post_failures evs) in
  (k <= N)%nat
  /\ posted_urls evs
     = map (attempt_url (endpoints_of w) (index_of w) path)
           (seq 0 (Nat.min (S k) N))
  /\ NoDup (map (fun j => ((index_of w + j) mod N)%nat)
                (seq 0 (Nat.min (S k) N)))
  /\ match result out with
     | Normal _ =>
         (k < N)%nat /\ index_of (final out) = ((index_of w + k) mod N)%nat
     | Thrown e =>
         k = N
         /\ index_of (final out) = ((index_of w + (N - 1)) mod N)%nat
         /\ exists f rest,
              List.rev (post_failures evs) = f :: rest
              /\ e = aggregate_error N f
     | Diverged => False
     end
  /\ (k = 0%nat -> index_of (final out) = index_of w)
  /\ endpoints_of (final out) = endpoints_of w
  /\ forall path' data',
       hd_error (posted_urls
                   (emitted (makeRpcCall path' data') env (final out)))
       = Some (nth (index_of (final out)) (endpoints_of w) "undefined"
               ++ path_string path').
Proof.
  intros Hi N out evs k.
  destruct (makeRpcCall_spec path data env w Hi)
    as (Heps & Hk & Hurls & Hres).
  fold N out evs k in Heps, Hk, Hurls, Hres.
  assert (HN : N <> 0%nat) by (unfold N; lia).
  assert (Hfin : (index_of (final out) < N)%nat).
  { destruct (result out) as [d | e |].
    - destruct Hres as [_ E]. rewrite E. apply Nat.mod_upper_bound, HN.
    - destruct Hres as (_ & E & _). rewrite E.
      apply Nat.mod_upper_bound, HN.
    - destruct Hres. }
  split; [exact Hk |]. split; [exact Hurls |].
  split; [apply round_robin_NoDup; [lia | exact HN] |].
  split; [exact Hres |].
  split.
  { intros K0. destruct (result out) as [d | e |].
    - destruct Hres as [_ E]. rewrite E, K0, Nat.add_0_r.
      apply Nat.mod_small, Hi.
    - destruct Hres as (E & _). lia.
    - destruct Hres. }
  split; [exact Heps |].
  intros path' data'.
  assert (Hi' : (index_of (final out)
                 < List.length (endpoints_of (final out)))%nat)
    by (rewrite Heps; exact Hfin).
  destruct (makeRpcCall_spec path' data' env (final out) Hi')
    as (_ & _ & Hurls' & _).
  rewrite Hurls', Heps. fold N.
  set (k' := List.length (post_failures _)).
  replace (Nat.min (S k') N) with (S (Nat.min k' (N - 1))) by lia.
  cbn [seq map hd_error]. unfold attempt_url. fold N.
  rewrite Nat.add_0_r, Nat.mod_small by exact Hfin. reflexivity.
Qed.

Lemma makeRpcCall_failover_witness :
  (index_of w_two < List.length (endpoints_of w_two))%nat
  /\ let path := get_info in
     let data := EmptyBody in
     let env := env_first_down in
     let w := w_two in
     let N := List.length (endpoints_of w) in
     let out := run (makeRpcCall path data) env w in
     let evs := emitted (makeRpcCall path data) env w in
     let k := List.length (post_failures evs) in
     (k <= N)%nat
     /\ posted_urls evs
        = map (attempt_url (endpoints_of w) (index_of w) path)
              (seq 0 (Nat.min (S k) N))
     /\ NoDup (map (fun j => ((index_of w + j) mod N)%nat)
                   (seq 0 (Nat.min (S k) N)))
     /\ match result out with
        | Normal _ =>
            (k < N)%nat
            /\ index_of (final out) = ((index_of w + k) mod N)%nat
        | Thrown e =>
            k = N
            /\ index_of (final out) = ((index_of w + (N - 1)) mod N)%nat
            /\ exists f rest,
                 List.rev (post_failures evs) = f :: rest
                 /\ e = aggregate_error N f
        | Diverged => False
        end
     /\ (k = 0%nat -> index_of (final out) = index_of w)
     /\ endpoints_of (final out) = endpoints_of w
     /\ forall path' data',
          hd_error (posted_urls
                      (emitted (makeRpcCall path' data') env (final out)))
          = Some (nth (index_of (final out)) (endpoints_of w) "undefined"
                  ++ path_string path').
Proof.
  split; [unfold index_of, endpoints_of; simpl; lia |].
  apply (@makeRpcCall_failover get_info EmptyBody env_first_down w_two).
  unfold index_of, endpoints_of; simpl; lia.
Defined.

Example failover_two_endpoints_run :
  posted_urls (emitted (makeRpcCall get_info EmptyBody) env_first_down w_two)
  = ["https://a.example/v1/chain/get_info";
     "https://b.example/v1/chain/get_info"]
  /\ index_of (final (run (makeRpcCall get_info EmptyBody)
                          env_first_down w_two)) = 1%nat
  /\ result (run (makeRpcCall get_info EmptyBody) env_first_down w_two)
     = Normal (mkInfoJson 1330 1000 "chain").
Proof. repeat split; vm_compute; reflexivity. Qed.

(** ** Rules of the logic of events *)

Lemma emitted_intro A (p : Prog A) env w evs :
  trace (final (run p env w)) = (trace w ++ evs)%list ->
  emitted p env w = evs.
Proof.
  intros H. pose proof (trace_emitted p env w) as T. rewrite H in T.
  apply app_inv_head in T. symmetry. exact T.
Qed.

Lemma emitted_Log A l m (k : Prog A) env w :
  emitted (Log l m k) env w = EvLog l m :: emitted k env (record (EvLog l m) w).
Proof.
  apply emitted_intro. simpl. rewrite trace_emitted. simpl.
  rewrite <- app_assoc. reflexivity.
Qed.

Lemma emitted_Call A R (c : Cmd R) (k : R -> Prog A) env w :
  emitted (Call c k) env w
  = EvCall c (env R (trace w) c)
    :: emitted (k (env R (trace w) c)) env
         (record (EvCall c (env R (trace w) c)) w).
Proof.
  apply emitted_intro. simpl. rewrite trace_emitted. simpl.
  rewrite <- app_assoc. reflexivity.
Qed.

Lemma emitted_Update A f (k : Prog A) env w :
  emitted (Update f k) env w
  = emitted k env (mkWorld (f (heap w)) (trace w)).
Proof.
  apply emitted_intro. simpl. rewrite trace_emitted. reflexivity.
Qed.

Lemma emitted_nil A (p : Prog A) env w :
  final (run p env w) = w -> emitted p env w = [].
Proof.
  intros H. apply emitted_intro. rewrite H, app_nil_r. reflexivity.
Qed.

Lemma Holds_run A (Q : list Event -> Result A -> Prop) (p : Prog A) :
  Holds Q p -> forall env w, Q (emitted p env w) (result (run p env w)).
Proof.
  induction 1 as [Q a H | Q e H | Q H | Q k _ IH | Q f k _ IH
                  | Q l m k _ IH | Q R c k _ IH]; intros env w.
  - rewrite emitted_nil by reflexivity. exact H.
  - rewrite emitted_nil by reflexivity. exact H.
  - rewrite emitted_nil by reflexivity. exact H.
  - apply (IH (heap w) env w).
  - rewrite emitted_Update. apply IH.
  - rewrite emitted_Log. apply (IH env (record (EvLog l m) w)).
  - rewrite emitted_Call. apply IH.
Qed.

Lemma Holds_weaken A (Q Q' : list Event -> Result A -> Prop) p :
  Holds Q p -> (forall evs r, Q evs r -> Q' evs r) -> Holds Q' p.
Proof.
  intros H. revert Q'.
  induction H as [Q a H | Q e H | Q H | Q k _ IH | Q f k _ IH
                  | Q l m k _ IH | Q R c k _ IH]; intros Q' HQ;
    constructor; auto.
Qed.

Lemma Holds_bind A B (Q1 : list Event -> Result A -> Prop)
      (Q : list Event -> Result B -> Prop) (p : Prog A) (f : A -> Prog B) :
  Holds Q1 p ->
  (forall evs a, Q1 evs (Normal a) ->
                 Holds (fun evs2 r => Q (evs ++ evs2)%list r) (f a)) ->
  (forall evs e, Q1 evs (Thrown e) -> Q evs (Thrown e)) ->
  (forall evs, Q1 evs Diverged -> Q evs Diverged) ->
  Holds Q (bind p f).
Proof.
  intros H. revert Q.
  induction H as [Q1 a H | Q1 e H | Q1 H | Q1 k _ IH | Q1 g k _ IH
                  | Q1 l m k _ IH | Q1 R c k _ IH];
    intros Q Hn Ht Hd; simpl.
  - apply (Hn [] a H).
  - constructor. apply Ht, H.
  - constructor. apply Hd, H.
  - constructor. intros h. apply IH; assumption.
  - constructor. apply IH; assumption.
  - constructor. apply IH.
    + intros evs a Ha. apply (Hn (EvLog l m :: evs) a Ha).
    + intros evs e He. apply (Ht _ _ He).
    + intros evs He. apply (Hd _ He).
  - constructor. intros r. apply IH.
    + intros evs a Ha. apply (Hn (EvCall c r :: evs) a Ha).
    + intros evs e He. apply (Ht _ _ He).
    + intros evs He. apply (Hd _ He).
Qed.

Lemma Holds_tryCatch A (Q1 Q : list Event -> Result A -> Prop)
      (p : Prog A) (h : JsError -> Prog A) :
  Holds Q1 p ->
  (forall evs a, Q1 evs (Normal a) -> Q evs (Normal a)) ->
  (forall evs e, Q1 evs (Thrown e) ->
                 Holds (fun evs2 r => Q (evs ++ evs2)%list r) (h e)) ->
  (forall evs, Q1 evs Diverged -> Q evs Diverged) ->
  Holds Q (tryCatch p h).
Proof.
  intros H. revert Q.
  induction H as [Q1 a H | Q1 e H | Q1 H | Q1 k _ IH | Q1 g k _ IH
                  | Q1 l m k _ IH | Q1 R c k _ IH];
    intros Q Hn Ht Hd; simpl.
  - constructor. apply Hn, H.
  - apply (Ht [] e H).
  - constructor. apply Hd, H.
  - constructor. intros x. apply IH; assumption.
  - constructor. apply IH; assumption.
  - constructor. apply IH.
    + intros evs a Ha. apply (Hn _ _ Ha).
    + intros evs e He. apply (Ht (EvLog l m :: evs) e He).
    + intros evs He. apply (Hd _ He).
  - constructor. intros r. apply IH.
    + intros evs a Ha. apply (Hn _ _ Ha).
    + intros evs e He. apply (Ht (EvCall c r :: evs) e He).
    + intros evs He. apply (Hd _ He).
Qed.

(** ** The beacon client: blocks, seeds and targets *)

Lemma from_block_response_app pre evs post b :
  from_block_response evs b ->
  from_block_response (pre ++ evs ++ post) b.
Proof.
  intros (url & data & blk & Hin & Hb). exists url, data, blk.
  split; [| exact Hb]. apply in_or_app. right. apply in_or_app. left.
  exact Hin.
Qed.

Lemma from_block_response_pre pre evs b :
  from_block_response evs b -> from_block_response (pre ++ evs) b.
Proof.
  intros H. apply (from_block_response_app pre []) in H.
  rewrite app_nil_r in H. exact H.
Qed.

Lemma makeRpcCall_loop_answered r :
  forall a N path data last,
    Holds (answered path data) (makeRpcCall_loop r a N path data last).
Proof.
  induction r as [| r IH]; intros a N path data last.
  - simpl. destruct last; constructor;
      (split; [intros d H; discriminate H | constructor]).
  - simpl. constructor; intros h. constructor. constructor.
    intros [d | e]; simpl.
    + constructor. split.
      * intros d0 H. injection H as <-.
        eexists. right. left. reflexivity.
      * repeat constructor.
    + constructor.
      assert (W : forall pre,
                 Forall (eq (path, data)) (post_requests pre) ->
                 Holds (fun evs res => answered path data (pre ++ evs) res)
                       (makeRpcCall_loop r (S a) N path data (Some e))).
      { intros pre Hpre. eapply Holds_weaken; [apply IH |].
        intros evs res [H F]. split.
        - intros d Hd. destruct (H d Hd) as [url Hin].
          exists url. apply in_or_app. right. exact Hin.
        - unfold post_requests. rewrite choose_app.
          apply Forall_app. split; assumption. }
      destruct (a <? N - 1)%nat; simpl.
      * constructor; intros h'. constructor. constructor.
        apply (W [_; _; _; _]). repeat constructor.
      * apply (W [_; _; _]). repeat constructor.
Qed.

Lemma makeRpcCall_answered path data :
  Holds (answered path data) (makeRpcCall path data).
Proof.
  unfold makeRpcCall. simpl. constructor; intros h.
  apply makeRpcCall_loop_answered.
Qed.

Lemma getBlock_answered blockNum :
  Holds block_answered (getBlock blockNum).
Proof.
  unfold getBlock.
  eapply Holds_tryCatch with (Q1 := block_answered).
  - eapply Holds_bind; [apply makeRpcCall_answered | | | ].
    + intros evs blk [Hblk _]. simpl. constructor. constructor.
      intros b Hb. injection Hb as <-.
      destruct (Hblk blk eq_refl) as [url Hin].
      exists url, (BlockNumOrId blockNum), blk. split; [| reflexivity].
      apply in_or_app. left. exact Hin.
    + intros evs e _ b H. discriminate H.
    + intros evs _ b H. discriminate H.
  - auto.
  - intros evs e _.
    destruct (response_status e) as [status |];
      [destruct (status =? 400) |]; simpl;
      repeat constructor; intros b H; discriminate H.
  - intros evs _ b H. discriminate H.
Qed.

Lemma waitForBlock_loop_answered fuel :
  forall target startT maxWait,
    Holds block_returned (waitForBlock_loop fuel target startT maxWait).
Proof.
  induction fuel as [| fuel IH]; intros target startT maxWait.
  - constructor. intros b H. discriminate H.
  - cbn [waitForBlock_loop bind call]. constructor. intros now.
    destruct (now - startT <? maxWait);
      [| constructor; intros b H; discriminate H].
    eapply Holds_bind
      with (Q1 := fun evs r =>
                    forall b, r = Normal (Some b) ->
                              from_block_response (EvCall DateNow now :: evs) b).
    + eapply Holds_tryCatch
        with (Q1 := fun evs r =>
                      forall b, r = Normal (Some b) ->
                                from_block_response
                                  (EvCall DateNow now :: evs) b).
      * eapply Holds_bind; [apply getBlock_answered | | | ].
        -- intros evs [b |] Hb; simpl.
           ++ constructor. intros t. constructor. constructor.
              intros b' Hb'. injection Hb' as <-.
              apply (from_block_response_app [EvCall DateNow now] [_; _]).
              apply Hb. reflexivity.
           ++ constructor. intros []. constructor.
              intros b' Hb'. discriminate Hb'.
        -- intros evs e _ b H. discriminate H.
        -- intros evs _ b H. discriminate H.
      * auto.
      * intros evs e _. simpl. repeat constructor.
        intros b H. discriminate H.
      * intros evs _ b H. discriminate H.
    + intros evs [b |] Hb.
      * constructor. intros b' Hb'. injection Hb' as <-.
        rewrite app_nil_r. apply Hb. reflexivity.
      * eapply Holds_weaken; [apply IH |].
        intros evs2 r H b' Hb'.
        apply (from_block_response_pre (EvCall DateNow now :: evs)).
        apply H. exact Hb'.
    + intros evs e _ b H. discriminate H.
    + intros evs _ b H. discriminate H.
Qed.

Lemma waitForBlock_answered fuel target maxWait :
  Holds block_returned (waitForBlock fuel target maxWait).
Proof.
  unfold waitForBlock. cbn [bind call log].
  constructor. intros startT. constructor.
  eapply Holds_weaken; [apply waitForBlock_loop_answered |].
  intros evs r H b Hb.
  apply (from_block_response_pre [_; _]).
  apply H. exact Hb.
Qed.

Lemma getFutureBlockHash_answered fuel blocksInFuture :
  Holds seed_from_response (getFutureBlockHash fuel blocksInFuture).
Proof.
  unfold getFutureBlockHash.
  eapply Holds_tryCatch with (Q1 := seed_from_response).
  - cbn [bind readThis log]. constructor; intros h. constructor.
    eapply Holds_bind with (Q1 := fun _ _ => True).
    + eapply Holds_weaken with (Q := fun _ _ => True); [| auto].
      unfold getChainInfo.
      eapply Holds_tryCatch with (Q1 := fun _ _ => True); auto.
      * eapply Holds_bind with (Q1 := fun _ _ => True); auto.
        -- eapply Holds_weaken; [apply makeRpcCall_answered | auto].
        -- intros evs a _. simpl. repeat constructor.
      * intros evs e _. simpl. repeat constructor.
    + intros evs info _. cbn [bind log]. constructor.
      eapply Holds_bind; [apply waitForBlock_answered | | | ].
      * intros evs2 b Hb. simpl. constructor. constructor.
        intros eb Heb. injection Heb as <-.
        destruct (Hb b eq_refl) as (url & data & blk & Hin & ->).
        exists url, data, blk. split; [| reflexivity].
        right. apply in_or_app. right. right.
        apply in_or_app. left. exact Hin.
      * intros evs2 e _ eb H. discriminate H.
      * intros evs2 _ eb H. discriminate H.
    + intros evs e _ eb H. discriminate H.
    + intros evs _ eb H. discriminate H.
  - auto.
  - intros evs e _. simpl. repeat constructor. intros eb H. discriminate H.
  - intros evs _ eb H. discriminate H.
Qed.

Lemma prefix_0x_inv s :
  prefix "0x" s = true -> exists rest, s = String "0" (String "x" rest).
Proof.
  destruct s as [| c1 [| c2 rest]]; cbn [prefix]; try discriminate.
  - destruct (ascii_dec "0" c1); discriminate.
  - destruct (ascii_dec "0" c1) as [<- |]; [| discriminate].
    destruct (ascii_dec "x" c2) as [<- |]; [| discriminate].
    intros _. exists rest. reflexivity.
Qed.

Lemma normalizeBlockId_prefix s : prefix "0x" (normalizeBlockId s) = true.
Proof.
  unfold normalizeBlockId. destruct (prefix "0x" s) eqn:E; [exact E |].
  destruct s; reflexivity.
Qed.

Lemma matches_seed_regex_inv s :
  matches_seed_regex s = true ->
  exists rest, s = String "0" (String "x" rest) /\ is_hex64 rest = true.
Proof.
  destruct s as [| c1 s1]; [discriminate |].
  destruct c1 as [[] [] [] [] [] [] [] []]; try discriminate.
  destruct s1 as [| c2 rest]; [discriminate |].
  destruct c2 as [[] [] [] [] [] [] [] []]; try discriminate.
  intros H. exists rest. split; [reflexivity | exact H].
Qed.

Lemma normalizeBlockId_regex s :
  matches_seed_regex (normalizeBlockId s) = true
  <-> (is_hex64 s = true \/ matches_seed_regex s = true).
Proof.
  unfold normalizeBlockId. destruct (prefix "0x" s) eqn:E.
  - split; [auto |]. intros [H | H]; [| exact H].
    destruct (prefix_0x_inv s E) as [rest ->].
    unfold is_hex64 in H. simpl in H.
    rewrite andb_false_r in H. discriminate H.
  - change (matches_seed_regex ("0x" ++ s)) with (is_hex64 s).
    split; [auto |]. intros [H | H]; [exact H |].
    destruct (matches_seed_regex_inv s H) as (rest & -> & _).
    destruct rest; discriminate E.
Qed.

Lemma In_choose A B (f : A -> option B) x y l :
  In x l -> f x = Some y -> In y (choose f l).
Proof.
  induction l as [| a l IH]; simpl; [tauto |].
  intros [-> | H] E.
  - rewrite E. left. reflexivity.
  - destruct (f a); [right |]; auto.
Qed.

Lemma choose_In A B (f : A -> option B) y l :
  In y (choose f l) -> exists x, In x l /\ f x = Some y.
Proof.
  induction l as [| a l IH]; simpl; [tauto |].
  destruct (f a) as [b |] eqn:E.
  - intros [<- | H].
    + exists a. auto.
    + destruct (IH H) as (x & Hx & Fx). exists x. auto.
  - intros H. destruct (IH H) as (x & Hx & Fx). exists x. auto.
Qed.

Lemma block_requests_shape path data evs n :
  Forall (eq (path, data)) (post_requests evs) ->
  In n (block_requests evs) ->
  path = get_block /\ data = BlockNumOrId n.
Proof.
  intros F H. apply choose_In in H. destruct H as (ev & Hev & E).
  unfold block_request in E.
  destruct (post_request ev) as [[p d] |] eqn:P; [| discriminate E].
  rewrite Forall_forall in F.
  specialize (F (p, d) (In_choose post_request ev evs Hev P)).
  injection F as -> ->.
  destruct p; [discriminate E |]. destruct d; [discriminate E |].
  injection E as ->. auto.
Qed.

Lemma no_block_requests evs :
  Forall (eq (get_info, EmptyBody)) (post_requests evs) ->
  block_requests evs = [].
Proof.
  intros F. destruct (block_requests evs) as [| n l] eqn:E; [reflexivity |].
  assert (H : In n (block_requests evs)) by (rewrite E; left; reflexivity).
  destruct (@block_requests_shape _ _ _ _ F H) as [H1 _]. discriminate H1.
Qed.

Lemma getChainInfo_requests : Holds info_returned getChainInfo.
Proof.
  unfold getChainInfo.
  eapply Holds_tryCatch
    with (Q1 := fun evs r => info_returned evs r).
  - eapply Holds_bind; [apply makeRpcCall_answered | | | ].
    + intros evs i [Hi F]. simpl. constructor. constructor.
      pose proof (no_block_requests evs F) as Hn.
      split.
      * unfold block_requests in *. rewrite choose_app, Hn. reflexivity.
      * intros ci Hci. injection Hci as <-. exists i. split; [| reflexivity].
        destruct (Hi i eq_refl) as [url Hin].
        unfold info_answers. rewrite choose_app. apply in_or_app. left.
        apply (In_choose info_answer _ evs Hin). reflexivity.
    + intros evs e [_ F]. split; [apply no_block_requests, F |].
      intros ci H. discriminate H.
    + intros evs [_ F]. split; [apply no_block_requests, F |].
      intros ci H. discriminate H.
  - auto.
  - intros evs e [Hn _]. simpl. repeat constructor.
    + unfold block_requests in *. rewrite choose_app, Hn. reflexivity.
    + intros ci H. discriminate H.
  - auto.
Qed.

Lemma asks_for_app target evs1 evs2 :
  asks_for target evs1 -> asks_for target evs2 ->
  asks_for target (evs1 ++ evs2).
Proof.
  intros H1 H2 n Hn. unfold block_requests in Hn.
  rewrite choose_app in Hn. apply in_app_or in Hn.
  destruct Hn; auto.
Qed.

Lemma asks_for_quiet target evs :
  block_requests evs = [] -> asks_for target evs.
Proof. intros E n Hn. rewrite E in Hn. destruct Hn. Qed.

Lemma getBlock_requests blockNum :
  Holds (fun evs _ => asks_for blockNum evs) (getBlock blockNum).
Proof.
  unfold getBlock.
  eapply Holds_tryCatch with (Q1 := fun evs _ => asks_for blockNum evs).
  - eapply Holds_bind
      with (Q1 := fun evs _ => asks_for blockNum evs).
    + eapply Holds_weaken; [apply makeRpcCall_answered |].
      intros evs r [_ F] n Hn.
      destruct (@block_requests_shape _ _ _ _ F Hn) as [_ E].
      injection E as ->. reflexivity.
    + intros evs blk H. simpl. constructor. constructor.
      apply asks_for_app; [exact H | apply asks_for_quiet; reflexivity].
    + auto.
    + auto.
  - auto.
  - intros evs e H.
    destruct (response_status e) as [status |];
      [destruct (status =? 400) |]; simpl; repeat constructor;
      apply asks_for_app; try exact H; apply asks_for_quiet; reflexivity.
  - auto.
Qed.

Lemma waitForBlock_loop_requests fuel :
  forall target startT maxWait,
    Holds (fun evs _ => asks_for target evs)
          (waitForBlock_loop fuel target startT maxWait).
Proof.
  induction fuel as [| fuel IH]; intros target startT maxWait.
  - constructor. apply asks_for_quiet. reflexivity.
  - cbn [waitForBlock_loop bind call]. constructor. intros now.
    destruct (now - startT <? maxWait);
      [| constructor; apply asks_for_quiet; reflexivity].
    eapply Holds_bind
      with (Q1 := fun evs _ => asks_for target (EvCall DateNow now :: evs)).
    + eapply Holds_tryCatch
        with (Q1 := fun evs _ =>
                      asks_for target (EvCall DateNow now :: evs)).
      * eapply Holds_bind
          with (Q1 := fun evs _ => asks_for target evs);
          [apply getBlock_requests | | | ].
        -- intros evs [b |] Hb; simpl.
           ++ constructor. intros t. constructor. constructor.
              apply (asks_for_app (evs1 := [EvCall DateNow now])
                                  (evs2 := evs ++ [_; _]));
                [apply asks_for_quiet; reflexivity |].
              apply asks_for_app;
                [exact Hb | apply asks_for_quiet; reflexivity].
           ++ constructor. intros []. constructor.
              apply (asks_for_app (evs1 := [EvCall DateNow now])
                                  (evs2 := evs ++ [_]));
                [apply asks_for_quiet; reflexivity |].
              apply asks_for_app;
                [exact Hb | apply asks_for_quiet; reflexivity].
        -- intros evs e H.
           apply (asks_for_app (evs1 := [EvCall DateNow now]));
             [apply asks_for_quiet; reflexivity | exact H].
        -- intros evs H.
           apply (asks_for_app (evs1 := [EvCall DateNow now]));
             [apply asks_for_quiet; reflexivity | exact H].
      * auto.
      * intros evs e H. simpl. repeat constructor.
        apply (asks_for_app (evs1 := EvCall DateNow now :: evs));
          [exact H | apply asks_for_quiet; reflexivity].
      * auto.
    + intros evs [b |] Hb.
      * constructor. rewrite app_nil_r. exact Hb.
      * eapply Holds_weaken; [apply IH |].
        intros evs2 r H.
        apply (asks_for_app (evs1 := EvCall DateNow now :: evs));
          assumption.
    + auto.
    + auto.
Qed.

Lemma waitForBlock_requests fuel target maxWait :
  Holds (fun evs _ => asks_for target evs) (waitForBlock fuel target maxWait).
Proof.
  unfold waitForBlock. cbn [bind call log].
  constructor. intros startT. constructor.
  eapply Holds_weaken; [apply waitForBlock_loop_requests |].
  intros evs r H.
  apply (asks_for_app (evs1 := [_; _]));
    [apply asks_for_quiet; reflexivity | exact H].
Qed.

Lemma run_after_read A (p : Prog A) env w :
  run p env w = run (after_read p (heap w)) env w.
Proof. destruct p; reflexivity. Qed.

Lemma emitted_after_read A (p : Prog A) env w :
  emitted p env w = emitted (after_read p (heap w)) env w.
Proof. unfold emitted. rewrite <- run_after_read. reflexivity. Qed.

Lemma getFutureBlockHash_targets fuel blocksInFuture h :
  Holds (fun evs _ =>
           targets (js_or blocksInFuture (futureBlockOffset (eosService h)))
                   evs)
        (after_read (getFutureBlockHash fuel blocksInFuture) h).
Proof.
  set (d := js_or blocksInFuture (futureBlockOffset (eosService h))).
  assert (quiet : forall evs, block_requests evs = [] -> targets d evs).
  { intros evs E n Hn. rewrite E in Hn. destruct Hn. }
  assert (grow : forall evs1 evs2,
             targets d evs1 -> block_requests evs2 = [] ->
             targets d (evs1 ++ evs2)).
  { intros evs1 evs2 H E n Hn. unfold block_requests in *.
    rewrite choose_app, E, app_nil_r in Hn.
    destruct (H n Hn) as (i & Hi & Hni). exists i. split; [| exact Hni].
    unfold info_answers. rewrite choose_app. apply in_or_app. left.
    exact Hi. }
  unfold getFutureBlockHash. cbn [tryCatch bind readThis after_read log].
  fold d. constructor.
  change (Holds
            (fun evs _ =>
               targets d (EvLog info "Fetching future EOS block hash" :: evs))
            (tryCatch
               (chainInfo <- getChainInfo ;;
                Log info "Target block calculated"
                  (block <- waitForBlock fuel
                              (lastIrreversibleBlockNum chainInfo + d)
                              300000 ;;
                   Log info "Future block hash fetched successfully"
                     (Ret (mkEosBlock (blockNum block)
                             (normalizeBlockId (blockId block))
                             (blockTimestamp block) (blockProducer block)))))
               (fun err =>
                  Log error "Failed to get future block hash" (Throw err)))).
  eapply Holds_tryCatch
    with (Q1 := fun evs _ =>
                  targets d
                    (EvLog info "Fetching future EOS block hash" :: evs)).
  - eapply Holds_bind; [apply getChainInfo_requests | | | ].
    + intros evs ci [Hn Hci]. constructor.
      destruct (Hci ci eq_refl) as (i & Hi & Hlib).
      assert (combine : forall evs2 tail,
                 asks_for (lastIrreversibleBlockNum ci + d) evs2 ->
                 block_requests tail = [] ->
                 targets d
                   (EvLog info "Fetching future EOS block hash"
                    :: evs ++ EvLog info "Target block calculated"
                    :: evs2 ++ tail)).
      { intros evs2 tail H2 Ht n Hin.
        exists i. split.
        - unfold info_answers. cbn [choose info_answer].
          rewrite choose_app. apply in_or_app. left. exact Hi.
        - rewrite <- Hlib.
          assert (A : asks_for (lastIrreversibleBlockNum ci + d)
                        ([EvLog info "Fetching future EOS block hash"]
                         ++ evs ++ [EvLog info "Target block calculated"]
                         ++ evs2 ++ tail)).
          { repeat apply asks_for_app;
              try (apply asks_for_quiet; assumption || reflexivity).
            exact H2. }
          apply A. exact Hin. }
      eapply Holds_bind
        with (Q1 := fun evs2 _ =>
                      asks_for (lastIrreversibleBlockNum ci + d) evs2).
      * eapply Holds_weaken; [apply waitForBlock_requests |].
        intros evs2 r H. exact H.
      * intros evs2 b H. constructor. constructor.
        apply combine; [exact H | reflexivity].
      * intros evs2 e H.
        rewrite <- (app_nil_r evs2). apply combine; [exact H | reflexivity].
      * intros evs2 H.
        rewrite <- (app_nil_r evs2). apply combine; [exact H | reflexivity].
    + intros evs e [Hn _]. apply (quiet (_ :: evs)). exact Hn.
    + intros evs [Hn _]. apply (quiet (_ :: evs)). exact Hn.
  - auto.
  - intros evs e H. constructor. constructor.
    apply (grow (_ :: evs) [_]); [exact H | reflexivity].
  - auto.
Qed.

(** C3. What the code does when the block is not yet produced.  With one
    endpoint that answers [get_block] with HTTP 400, [getBlock] does not
    return [null]: it throws the aggregate error of [makeRpcCall], which
    has lost the HTTP response, and [waitForBlock] rethrows it without ever
    sleeping for a second poll.  Indeed [getBlock] returns [null] in no
    environment at all. *)
Theorem getBlock_not_yet_produced_throws :
  result (run (getBlock 1005) env_400 w0)
  = Thrown (aggregate_error 1 error_400)
  /\ result (run (waitForBlock 5 1005 300000) env_400 w0)
     = Thrown (aggregate_error 1 error_400)
  /\ count_ev (@is_sleep) (emitted (waitForBlock 5 1005 300000) env_400 w0)
     = 0%nat
  /\ (forall env w n, result (run (getBlock n) env w) <> Normal None).
Proof.
  split; [vm_compute; reflexivity |].
  split; [vm_compute; reflexivity |].
  split; [vm_compute; reflexivity |].
  intros env w n H.
  pose proof (Sat_run env w
                (@getBlock_Sat (fun _ _ => True) (fun _ _ _ => I) n)) as S.
  rewrite H in S. exact S.
Qed.

(** C4 as stated fails: an endpoint that answers with the
    block identifier [ABC] makes [getFutureBlockHash] succeed with the seed
    [0xABC], which the format rejects. *)
Lemma seed_format_counterexample :
  exists eb,
    result (run (getFutureBlockHash 1 None)
                (env_sample (sample_state 2 0 3) "ABC" 0 true) w0)
    = Normal eb
    /\ blockHash eb = "0xABC"
    /\ matches_seed_regex (blockHash eb) = false.
Proof.
  eexists. split; [vm_compute; reflexivity |].
  split; reflexivity.
Qed.

(** C4, amended.  The seed of every successful [getFutureBlockHash] is the
    identifier of a block an endpoint answered with, unchanged when it
    starts with [0x] and with [0x] put in front otherwise; so it always
    starts with [0x], and it has the format [^0x[0-9a-f]{64}$] exactly when
    the endpoint's identifier is 64 lowercase hex digits, with or without
    the prefix. *)
Theorem getFutureBlockHash_seed fuel blocksInFuture env w eb :
  result (run (getFutureBlockHash fuel blocksInFuture) env w) = Normal eb ->
  exists url data blk,
    In (EvCall (AxiosPost url get_block data) (Resolved blk))
       (emitted (getFutureBlockHash fuel blocksInFuture) env w)
    /\ blockHash eb = normalizeBlockId (id blk)
    /\ prefix "0x" (blockHash eb) = true
    /\ (matches_seed_regex (blockHash eb) = true
        <-> is_hex64 (id blk) = true \/ matches_seed_regex (id blk) = true).
Proof.
  intros H.
  destruct (Holds_run (getFutureBlockHash_answered fuel blocksInFuture)
                      env w eb H) as (url & data & blk & Hin & ->).
  exists url, data, blk. cbn [blockHash].
  split; [exact Hin |]. split; [reflexivity |].
  split; [apply normalizeBlockId_prefix | apply normalizeBlockId_regex].
Qed.

Lemma getFutureBlockHash_seed_witness :
  result (run (getFutureBlockHash 1 None)
              (env_sample (sample_state 2 0 3) sample_id 0 true) w0)
  = Normal (mkEosBlock 1005 ("0x" ++ sample_id)
                       "2025-10-15T12:00:02.500" "eosnation")
  /\ exists url data blk,
       In (EvCall (AxiosPost url get_block data) (Resolved blk))
          (emitted (getFutureBlockHash 1 None)
                   (env_sample (sample_state 2 0 3) sample_id 0 true) w0)
       /\ "0x" ++ sample_id = normalizeBlockId (id blk)
       /\ prefix "0x" ("0x" ++ sample_id) = true
       /\ (matches_seed_regex ("0x" ++ sample_id) = true
           <-> is_hex64 (id blk) = true
               \/ matches_seed_regex (id blk) = true).
Proof.
  split; [vm_compute; reflexivity |].
  apply (@getFutureBlockHash_seed 1 None
           (env_sample (sample_state 2 0 3) sample_id 0 true) w0
           (mkEosBlock 1005 ("0x" ++ sample_id)
                       "2025-10-15T12:00:02.500" "eosnation")).
  vm_compute. reflexivity.
Defined.

(** C10 as stated fails in one configuration: when the
    configured default offset is itself 0, [getFutureBlockHash(0)] asks for
    the last irreversible block, the finality pointer itself. *)
Lemma zero_offset_counterexample :
  let w := mkWorld (mkHeap (mkGameManager false)
                      (mkEosService ["https://eos.antelope.tools"] 0%nat 0)
                      None) [] in
  let evs := emitted (getFutureBlockHash 1 (Some 0))
                     (env_sample (sample_state 2 0 3) sample_id 0 true) w in
  info_answers evs = [sample_info]
  /\ block_requests evs = [last_irreversible_block_num sample_info].
Proof.
  split; vm_compute; reflexivity.
Qed.

(** C10, amended.  An offset of 0 passed to [getFutureBlockHash] is
    replaced by the configured default: the call is the very program that
    the call with [null] is, and the block it asks the beacon for is the
    last irreversible block it was told plus the configured default.  When
    that default is not 0, this is never the finality pointer itself. *)
Theorem getFutureBlockHash_zero_offset fuel env w :
  futureBlockOffset (eosService (heap w)) <> 0 ->
  getFutureBlockHash fuel (Some 0) = getFutureBlockHash fuel None
  /\ forall n,
       In n (block_requests (emitted (getFutureBlockHash fuel (Some 0))
                                     env w)) ->
       exists i,
         In i (info_answers (emitted (getFutureBlockHash fuel (Some 0))
                                     env w))
         /\ n = last_irreversible_block_num i
                + futureBlockOffset (eosService (heap w))
         /\ n <> last_irreversible_block_num i.
Proof.
  intros Hd. split; [reflexivity |].
  intros n Hn. rewrite emitted_after_read in Hn |- *.
  pose proof (Holds_run (getFutureBlockHash_targets fuel (Some 0) (heap w))
                        env w) as T.
  cbv beta in T. destruct (T n Hn) as (i & Hi & Hni).
  exists i. split; [exact Hi |].
  change (js_or (Some 0) (futureBlockOffset (eosService (heap w))))
    with (futureBlockOffset (eosService (heap w))) in Hni.
  split; [exact Hni | lia].
Qed.

Lemma getFutureBlockHash_zero_offset_witness :
  futureBlockOffset (eosService (heap w0)) <> 0
  /\ getFutureBlockHash 1 (Some 0) = getFutureBlockHash 1 None
  /\ forall n,
       In n (block_requests
               (emitted (getFutureBlockHash 1 (Some 0))
                  (env_sample (sample_state 2 0 3) sample_id 0 true) w0)) ->
       exists i,
         In i (info_answers
                 (emitted (getFutureBlockHash 1 (Some 0))
                    (env_sample (sample_state 2 0 3) sample_id 0 true) w0))
         /\ n = last_irreversible_block_num i
                + futureBlockOffset (eosService (heap w0))
         /\ n <> last_irreversible_block_num i.
Proof.
  assert (H : futureBlockOffset (eosService (heap w0)) <> 0)
    by (simpl; lia).
  split; [exact H |].
  apply (@getFutureBlockHash_zero_offset 1
           (env_sample (sample_state 2 0 3) sample_id 0 true) w0 H).
Defined.

(** ** The handlers, event by event *)

Lemma emitted_events A (p : Prog A) env w :
  emitted p env w = events p env w.
Proof.
  revert w.
  induction p as [a | e | | k IH | f k IH | l m k IH | R c k IH];
    intros w; try (apply emitted_nil; reflexivity).
  - apply (IH (heap w) w).
  - rewrite emitted_Update. apply IH.
  - rewrite emitted_Log. simpl. f_equal. apply IH.
  - rewrite emitted_Call. simpl. f_equal. apply IH.
Qed.

Ltac run_prog :=
  cbn [events run result final fst snd
       bind tryCatch tryFinally await call log readThis update
       handleIdlePhase handleBettingPhase handleLockedPhase
       handleCompletePhase lockGame finishGame createGameRound
       updateGameRound storeEosProof checkAndProcessGameState
       checkAndProcessGameState_with release
       record heap trace].

Ltac answer :=
  match goal with
  | |- context [match ?e ?R ?tr ?c with Resolved _ => _ | Rejected _ => _ end] =>
      let o := fresh "o" in
      destruct (e R tr c) as [o | o]
  end.

Ltac tally :=
  unfold count_ev; cbn [filter ev_is List.length app
                        is_lock is_ledger_write is_db_write is_beacon
                        is_cancel is_tx_wait is_ledger_read is_clock
                        is_sleep].

Lemma betting_events st (env : Env) w :
  let nowMs := env Z (trace w) DateNow in
  let currentTime := nowMs / 1000 in
  let expiryTime := startTime st + timerDuration (heap w) in
  let evs := events (handleBettingPhase st) env w in
  count_ev (@is_lock) evs
  = (if currentTime >=? expiryTime then 1 else 0)%nat
  /\ count_ev (@is_ledger_write) evs = count_ev (@is_lock) evs
  /\ count_ev (@is_cancel) evs = 0%nat
  /\ count_ev (@is_beacon) evs = 0%nat
  /\ (currentTime < expiryTime ->
      evs = EvCall DateNow nowMs
            :: (if at_log_threshold (expiryTime - currentTime)
                then [EvLog info "Game timer update"]
                else [])).
Proof.
  intros nowMs currentTime expiryTime evs. subst evs. run_prog.
  fold nowMs. fold currentTime. fold expiryTime.
  destruct (at_log_threshold (expiryTime - currentTime));
    destruct (currentTime >=? expiryTime) eqn:G; run_prog;
    repeat (try answer; run_prog); tally;
    repeat split; try reflexivity; try (intros; lia).
Qed.

Lemma events_bind A B (p : Prog A) (f : A -> Prog B) env w :
  events (bind p f) env w
  = (events p env w
     ++ match run p env w with
        | (w', Normal a) => events (f a) env w'
        | _ => []
        end)%list.
Proof.
  revert w.
  induction p as [a | e | | k IH | g k IH | l m k IH | R c k IH];
    intros w; simpl; auto.
  - rewrite IH. reflexivity.
  - rewrite IH. reflexivity.
Qed.

Lemma events_tryCatch A (p : Prog A) (h : JsError -> Prog A) env w :
  events (tryCatch p h) env w
  = (events p env w
     ++ match run p env w with
        | (w', Thrown e) => events (h e) env w'
        | _ => []
        end)%list.
Proof.
  revert w.
  induction p as [a | e | | k IH | g k IH | l m k IH | R c k IH];
    intros w; simpl; auto.
  - rewrite IH. reflexivity.
  - rewrite IH. reflexivity.
Qed.

Lemma events_tryFinally A (p : Prog A) (fin : Prog unit) env w :
  events (tryFinally p fin) env w
  = (events p env w
     ++ match run p env w with
        | (w', Normal a) => events fin env w'
        | (w', Thrown e) => events fin env w'
        | _ => []
        end)%list.
Proof.
  revert w.
  induction p as [a | e | | k IH | g k IH | l m k IH | R c k IH];
    intros w; simpl; auto.
  - rewrite events_bind.
    destruct (run fin env w) as [w' [[] | e |]];
      rewrite ?app_nil_r; reflexivity.
  - rewrite events_bind.
    destruct (run fin env w) as [w' [[] | e' |]];
      rewrite ?app_nil_r; reflexivity.
  - rewrite IH. reflexivity.
  - rewrite IH. reflexivity.
Qed.

Lemma dispatch_returns fuel st env w :
  result (run (dispatch (S fuel) st) env w) = Normal tt.
Proof.
  unfold dispatch.
  destruct (handlers_return fuel st env w) as (HI & HB & HL & HC).
  repeat match goal with
         | |- context [if ?b then _ else _] => destruct b
         end; auto.
Qed.

(** The events of a tick that finds the guard clear: the ledger read, then
    the events of the handler for the phase it reports. *)
Lemma tick_events fuel (env : Env) w :
  isProcessing (gameManager (heap w)) = false ->
  events (checkAndProcessGameState (S fuel)) env w
  = match env _ (trace w) GetPotState with
    | Rejected e =>
        [EvCall GetPotState (Rejected e);
         EvLog error "Error checking game state"]
    | Resolved st =>
        EvCall GetPotState (Resolved st)
        :: EvLog debug "Game state check"
        :: events (dispatch (S fuel) st) env
             (record (EvLog debug "Game state check")
                (record (EvCall GetPotState (Resolved st))
                   (mkWorld (set_isProcessing true (heap w)) (trace w))))
    end.
Proof.
  intros Hg. unfold checkAndProcessGameState, checkAndProcessGameState_with.
  cbn [bind readThis events]. rewrite Hg. cbn [bind update events].
  set (w1 := mkWorld (set_isProcessing true (heap w)) (trace w)).
  change (trace w) with (trace w1).
  rewrite events_tryFinally, events_tryCatch, run_tryCatch.
  cbn [bind await]. cbn [events run].
  destruct (env _ (trace w1) GetPotState) as [st | e].
  - cbn [bind log events run]. fold (dispatch (S fuel) st).
    set (w2 := record (EvLog debug "Game state check") _).
    pose proof (dispatch_returns fuel st env w2) as Hr.
    destruct (run (dispatch (S fuel) st) env w2) as [w' r].
    simpl in Hr. subst r. cbn [events update app]. rewrite !app_nil_r.
    reflexivity.
  - reflexivity.
Qed.

Lemma Sat_events okU (okC : forall R : Type, Cmd R -> Prop)
      A (Q : Result A -> Prop) (p : Prog A) env w :
  Sat okU okC Q p ->
  Forall (fun ev => match ev with
                    | EvCall c _ => okC _ c
                    | EvLog _ _ => True
                    end)
         (events p env w).
Proof.
  intros H. revert w.
  induction H as [a _ | e _ | _ | k _ IH | f k Hf _ IH | l m k _ IH
                  | R c k Hc _ IH]; intros w; simpl; auto.
Qed.

Lemma count_ev_none (cls : forall R : Type, Cmd R -> bool) evs :
  Forall (fun ev => match ev with
                    | EvCall c _ => cls _ c = false
                    | EvLog _ _ => True
                    end) evs ->
  count_ev cls evs = 0%nat.
Proof.
  unfold count_ev. induction 1 as [| ev evs Hev _ IH]; simpl; auto.
  destruct ev as [l m | R c r]; simpl; [exact IH |].
  rewrite Hev. exact IH.
Qed.

(** Outside a Locked round without tickets, the handler selected by the
    tick never calls the emergency cancel. *)
Lemma dispatch_no_cancel fuel st env w :
  ~ (phase st = GamePhase.LOCKED /\ tickets st = 0) ->
  count_ev (@is_cancel) (events (dispatch (S fuel) st) env w) = 0%nat.
Proof.
  intros Hn. apply count_ev_none.
  apply Sat_events with (okU := guardU) (Q := returns_unit).
  unfold dispatch.
  destruct (phase st =? GamePhase.IDLE);
    [apply handleIdlePhase_Sat; auto |].
  destruct (phase st =? GamePhase.BETTING);
    [apply handleBettingPhase_Sat; auto |].
  destruct (phase st =? GamePhase.LOCKED) eqn:EL.
  - apply handleLockedPhase_Sat; [auto |].
    intros Ht. exfalso. apply Hn. apply Z.eqb_eq in EL. auto.
  - destruct (phase st =? GamePhase.COMPLETE);
      [apply handleCompletePhase_Sat | repeat constructor].
Qed.

Lemma locked_no_tickets_events fuel st (env : Env) w :
  tickets st = 0 ->
  let evs := events (handleLockedPhase fuel st) env w in
  count_ev (@is_cancel) evs = 1%nat
  /\ count_ev (@is_ledger_write) evs = 1%nat
  /\ count_ev (@is_beacon) evs = 0%nat
  /\ count_ev (@is_db_write) evs = 0%nat
  /\ exists o rest,
       evs = EvLog info "Game in LOCKED phase - fetching randomness"
             :: EvLog warn "No tickets sold - cancelling game"
             :: EvCall EmergencyCancel o
             :: rest.
Proof.
  intros Ht evs. subst evs. run_prog. rewrite Ht.
  change (0 =? 0) with true. run_prog.
  repeat (try answer; run_prog); tally;
    repeat split; try reflexivity; eexists _, _; reflexivity.
Qed.

(** C6. Betting phase.  With [currentTime] the clock reading in whole
    seconds and [expiryTime = startTime + timer] (60 seconds when the
    setting is absent), the handler submits the lock exactly once when
    [currentTime >= expiryTime] and not at all otherwise, and the lock is
    the only ledger transaction it ever submits.  While time remains it
    does nothing but read the clock and, at 30, 10 or 5 seconds left, log
    the timer.  A tick that reads the clock at 61 seconds, for a Betting
    round started at 0 with the 60 second timer, submits exactly one
    lock. *)
Theorem betting_locks_at_expiry st (env : Env) w :
  let nowMs := env Z (trace w) DateNow in
  let currentTime := nowMs / 1000 in
  let expiryTime := startTime st + timerDuration (heap w) in
  let evs := emitted (handleBettingPhase st) env w in
  count_ev (@is_lock) evs
  = (if currentTime >=? expiryTime then 1 else 0)%nat
  /\ count_ev (@is_ledger_write) evs = count_ev (@is_lock) evs
  /\ (currentTime < expiryTime ->
      evs = EvCall DateNow nowMs
            :: (if at_log_threshold (expiryTime - currentTime)
                then [EvLog info "Game timer update"]
                else []))
  /\ (GAME_TIMER_DURATION (heap w) = None -> timerDuration (heap w) = 60)
  /\ (forall fuel (env' : Env) w' st',
         isProcessing (gameManager (heap w')) = false ->
         env' _ (trace w') GetPotState = Resolved st' ->
         phase st' = GamePhase.BETTING ->
         let nowMs' :=
           env' Z (trace w' ++ [EvCall GetPotState (Resolved st');
                                EvLog debug "Game state check"])%list
               DateNow in
         let tick_evs :=
           emitted (checkAndProcessGameState (S fuel)) env' w' in
         count_ev (@is_lock) tick_evs
         = (if nowMs' / 1000 >=? startTime st' + timerDuration (heap w')
            then 1 else 0)%nat
         /\ count_ev (@is_ledger_write) tick_evs
            = count_ev (@is_lock) tick_evs)
  /\ (forall fuel (env' : Env) w' st',
         isProcessing (gameManager (heap w')) = false ->
         GAME_TIMER_DURATION (heap w') = None ->
         env' _ (trace w') GetPotState = Resolved st' ->
         phase st' = GamePhase.BETTING ->
         startTime st' = 0 ->
         (forall tr, env' Z tr DateNow = 61 * 1000) ->
         count_ev (@is_lock)
                  (emitted (checkAndProcessGameState (S fuel)) env' w')
         = 1%nat).
Proof.
  intros nowMs currentTime expiryTime evs. subst evs.
  rewrite emitted_events.
  destruct (betting_events st env w) as (H1 & H2 & _ & _ & H5).
  split; [exact H1 |]. split; [exact H2 |]. split; [exact H5 |].
  split; [intros E; unfold timerDuration; rewrite E; reflexivity |].
  split.
  { intros fuel env' w' st' Hg Hst Hph nowMs' tick_evs. subst tick_evs.
    rewrite emitted_events, tick_events by exact Hg.
    rewrite Hst. unfold dispatch. rewrite Hph.
    change (GamePhase.BETTING =? GamePhase.IDLE) with false.
    change (GamePhase.BETTING =? GamePhase.BETTING) with true.
    cbv iota.
    set (w2 := record _ _).
    destruct (betting_events st' env' w2) as (K1 & K2 & _).
    unfold count_ev in *. cbn [filter ev_is is_lock is_ledger_write].
    rewrite K2, K1.
    assert (Etr : trace w2
                  = (trace w' ++ [EvCall GetPotState (Resolved st');
                                  EvLog debug "Game state check"])%list).
    { subst w2. unfold record. cbn [trace heap].
      rewrite <- app_assoc. reflexivity. }
    rewrite Etr. fold nowMs'. split; reflexivity. }
  intros fuel env' w' st' Hg Ht Hst Hph Hs Hclock.
  rewrite emitted_events, tick_events by exact Hg.
  rewrite Hst. unfold dispatch. rewrite Hph.
  change (GamePhase.BETTING =? GamePhase.IDLE) with false.
  change (GamePhase.BETTING =? GamePhase.BETTING) with true.
  cbv iota.
  set (w2 := record _ _).
  destruct (betting_events st' env' w2) as (K & _).
  unfold count_ev in *. cbn [filter ev_is is_lock].
  rewrite K, Hclock, Hs.
  unfold timerDuration. subst w2. cbn [heap record set_isProcessing
                                       GAME_TIMER_DURATION].
  rewrite Ht. reflexivity.
Qed.

Lemma betting_locks_at_expiry_witness :
  let st := sample_state GamePhase.BETTING 0 3 in
  let env := env_sample st sample_id (61 * 1000) true in
  (isProcessing (gameManager (heap w0)) = false
   /\ GAME_TIMER_DURATION (heap w0) = None
   /\ env _ (trace w0) GetPotState = Resolved st
   /\ phase st = GamePhase.BETTING
   /\ startTime st = 0
   /\ (forall tr, env Z tr DateNow = 61 * 1000))
  /\ count_ev (@is_lock) (emitted (checkAndProcessGameState 1) env w0)
     = 1%nat.
Proof.
  intros st env.
  split; [repeat split |].
  apply (proj2 (proj2 (proj2 (proj2 (proj2
           (betting_locks_at_expiry st env w0)))))
           0%nat env w0 st eq_refl eq_refl eq_refl eq_refl eq_refl).
  intros tr. reflexivity.
Defined.

(** C5. Locked phase without tickets.  When the ticket count is zero the
    handler calls the emergency cancel once, and nothing else: no request
    goes to a beacon endpoint, no other ledger transaction is submitted and
    nothing is written to the database.  And this is the only way a tick
    ever cancels: a tick that calls the emergency cancel has read a Locked
    round with zero tickets from the ledger. *)
Theorem locked_zero_tickets_cancels :
  (forall fuel st (env : Env) w,
      tickets st = 0 ->
      let evs := emitted (handleLockedPhase fuel st) env w in
      count_ev (@is_cancel) evs = 1%nat
      /\ count_ev (@is_ledger_write) evs = 1%nat
      /\ count_ev (@is_beacon) evs = 0%nat
      /\ count_ev (@is_db_write) evs = 0%nat)
  /\ (forall fuel (env : Env) w st,
         isProcessing (gameManager (heap w)) = false ->
         env _ (trace w) GetPotState = Resolved st ->
         phase st = GamePhase.LOCKED -> tickets st = 0 ->
         let evs := emitted (checkAndProcessGameState (S fuel)) env w in
         count_ev (@is_cancel) evs = 1%nat
         /\ count_ev (@is_beacon) evs = 0%nat)
  /\ (forall fuel (env : Env) w,
         count_ev (@is_cancel)
                  (emitted (checkAndProcessGameState (S fuel)) env w)
         <> 0%nat ->
         exists st,
           env _ (trace w) GetPotState = Resolved st
           /\ phase st = GamePhase.LOCKED /\ tickets st = 0).
Proof.
  split; [| split].
  - intros fuel st env w Ht evs. subst evs. rewrite emitted_events.
    destruct (locked_no_tickets_events fuel st env w Ht)
      as (H1 & H2 & H3 & H4 & _). auto.
  - intros fuel env w st Hg Hst Hph Ht evs. subst evs.
    rewrite emitted_events, tick_events by exact Hg.
    rewrite Hst. unfold dispatch. rewrite Hph.
    change (GamePhase.LOCKED =? GamePhase.IDLE) with false.
    change (GamePhase.LOCKED =? GamePhase.BETTING) with false.
    change (GamePhase.LOCKED =? GamePhase.LOCKED) with true.
    cbv iota. set (w2 := record _ _).
    destruct (locked_no_tickets_events (S fuel) st env w2 Ht)
      as (H1 & _ & H3 & _).
    unfold count_ev in *. cbn [filter ev_is is_cancel is_beacon]. auto.
  - intros fuel env w Hc. rewrite emitted_events in Hc.
    destruct (isProcessing (gameManager (heap w))) eqn:Hg.
    + exfalso. apply Hc.
      unfold checkAndProcessGameState, checkAndProcessGameState_with.
      cbn [bind readThis events]. rewrite Hg. reflexivity.
    + rewrite tick_events in Hc by exact Hg.
      destruct (env _ (trace w) GetPotState) as [st | e].
      * exists st. split; [reflexivity |].
        destruct (Z.eq_dec (phase st) GamePhase.LOCKED) as [Hp | Hp];
          [destruct (Z.eq_dec (tickets st) 0) as [Ht | Ht] |]; auto;
          exfalso; apply Hc;
          unfold count_ev; cbn [filter ev_is is_cancel];
          apply dispatch_no_cancel; tauto.
      * exfalso. apply Hc. reflexivity.
Qed.

Lemma locked_zero_tickets_cancels_witness :
  let st := sample_state GamePhase.LOCKED 0 0 in
  let env := env_sample st sample_id 0 true in
  (isProcessing (gameManager (heap w0)) = false
   /\ env _ (trace w0) GetPotState = Resolved st
   /\ phase st = GamePhase.LOCKED
   /\ tickets st = 0)
  /\ count_ev (@is_cancel) (emitted (checkAndProcessGameState 1) env w0)
     = 1%nat
  /\ count_ev (@is_beacon) (emitted (checkAndProcessGameState 1) env w0)
     = 0%nat.
Proof.
  intros st env.
  split; [repeat split |].
  apply (proj1 (proj2 locked_zero_tickets_cancels)
           0%nat env w0 st eq_refl eq_refl eq_refl eq_refl).
Defined.

(** C9. Database failures do not touch round progression.  Each of
    [createGameRound], [updateGameRound] and [storeEosProof] returns
    normally whatever the database answers, after exactly one write
    attempt.  [lockGame] and [finishGame] end as the ledger call ends: they
    return when it resolves and rethrow its error when it rejects, whatever
    the database does afterwards; the Idle handler always returns and
    submits [startGame] once.  None of them attempts a write twice.  So two
    environments that differ only in what the database answers give each
    action the same outcome. *)
Theorem db_failures_do_not_affect_round :
  (forall pot (env : Env) w,
      result (run (createGameRound pot) env w) = Normal tt
      /\ count_ev (@is_db_write) (emitted (createGameRound pot) env w)
         = 1%nat)
  /\ (forall pot u (env : Env) w,
         result (run (updateGameRound pot u) env w) = Normal tt
         /\ count_ev (@is_db_write) (emitted (updateGameRound pot u) env w)
            = 1%nat)
  /\ (forall pot eb (env : Env) w,
         result (run (storeEosProof pot eb) env w) = Normal tt
         /\ count_ev (@is_db_write) (emitted (storeEosProof pot eb) env w)
            = 1%nat)
  /\ (forall st (env : Env) w,
         let o := env _ (trace w ++ [EvLog info "Locking game"])%list
                      ContractLockGame in
         let evs := emitted (lockGame st) env w in
         result (run (lockGame st) env w)
         = match o with
           | Resolved _ => Normal tt
           | Rejected e => Thrown e
           end
         /\ count_ev (@is_ledger_write) evs = 1%nat
         /\ count_ev (@is_db_write) evs
            = match o with
              | Resolved _ => 1%nat
              | Rejected _ => 0%nat
              end)
  /\ (forall st eb (env : Env) w,
         let o := env _ (trace w ++ [EvLog info "Finishing game"])%list
                      (ContractFinishGame (blockHash eb)) in
         let evs := emitted (finishGame st eb) env w in
         result (run (finishGame st eb) env w)
         = match o with
           | Resolved _ => Normal tt
           | Rejected e => Thrown e
           end
         /\ count_ev (@is_ledger_write) evs = 1%nat
         /\ count_ev (@is_db_write) evs
            = match o with
              | Resolved _ => 2%nat
              | Rejected _ => 0%nat
              end)
  /\ (forall st (env : Env) w,
         let evs := emitted (handleIdlePhase st) env w in
         result (run (handleIdlePhase st) env w) = Normal tt
         /\ count_ev (@is_ledger_write) evs = 1%nat
         /\ (count_ev (@is_db_write) evs <= 1)%nat)
  /\ (forall st eb (env1 env2 : Env) w,
         (forall R tr (c : Cmd R),
             is_db_write c = false -> env1 R tr c = env2 R tr c) ->
         result (run (lockGame st) env1 w) = result (run (lockGame st) env2 w)
         /\ result (run (finishGame st eb) env1 w)
            = result (run (finishGame st eb) env2 w)
         /\ result (run (handleIdlePhase st) env1 w)
            = result (run (handleIdlePhase st) env2 w)).
Proof.
  assert (L : forall st (env : Env) w,
             let o := env _ (trace w ++ [EvLog info "Locking game"])%list
                          ContractLockGame in
             let evs := emitted (lockGame st) env w in
             result (run (lockGame st) env w)
             = match o with
               | Resolved _ => Normal tt
               | Rejected e => Thrown e
               end
             /\ count_ev (@is_ledger_write) evs = 1%nat
             /\ count_ev (@is_db_write) evs
                = match o with
                  | Resolved _ => 1%nat
                  | Rejected _ => 0%nat
                  end).
  { intros st env w o evs. subst o evs. rewrite emitted_events. run_prog.
    repeat (try answer; run_prog); tally; repeat split; reflexivity. }
  assert (F : forall st eb (env : Env) w,
             let o := env _ (trace w ++ [EvLog info "Finishing game"])%list
                          (ContractFinishGame (blockHash eb)) in
             let evs := emitted (finishGame st eb) env w in
             result (run (finishGame st eb) env w)
             = match o with
               | Resolved _ => Normal tt
               | Rejected e => Thrown e
               end
             /\ count_ev (@is_ledger_write) evs = 1%nat
             /\ count_ev (@is_db_write) evs
                = match o with
                  | Resolved _ => 2%nat
                  | Rejected _ => 0%nat
                  end).
  { intros st eb env w o evs. subst o evs. rewrite emitted_events. run_prog.
    repeat (try answer; run_prog); tally; repeat split; reflexivity. }
  assert (I0 : forall st (env : Env) w,
             let evs := emitted (handleIdlePhase st) env w in
             result (run (handleIdlePhase st) env w) = Normal tt
             /\ count_ev (@is_ledger_write) evs = 1%nat
             /\ (count_ev (@is_db_write) evs <= 1)%nat).
  { intros st env w evs. subst evs. rewrite emitted_events. run_prog.
    repeat (try answer; run_prog); tally; repeat split;
      try reflexivity; lia. }
  repeat split.
  - run_prog. repeat (try answer; run_prog); reflexivity.
  - rewrite emitted_events. run_prog.
    repeat (try answer; run_prog); tally; reflexivity.
  - run_prog. repeat (try answer; run_prog); reflexivity.
  - rewrite emitted_events. run_prog.
    repeat (try answer; run_prog); tally; reflexivity.
  - run_prog. repeat (try answer; run_prog); reflexivity.
  - rewrite emitted_events. run_prog.
    repeat (try answer; run_prog); tally; reflexivity.
  - apply L.
  - apply L.
  - apply L.
  - apply F.
  - apply F.
  - apply F.
  - apply I0.
  - apply I0.
  - apply I0.
  - destruct (L st env1 w) as [-> _]. destruct (L st env2 w) as [-> _].
    rewrite (H _ _ ContractLockGame eq_refl). reflexivity.
  - destruct (F st eb env1 w) as [-> _]. destruct (F st eb env2 w) as [-> _].
    rewrite (H _ _ (ContractFinishGame (blockHash eb)) eq_refl). reflexivity.
  - destruct (I0 st env1 w) as [-> _]. destruct (I0 st env2 w) as [-> _].
    reflexivity.
Qed.

Lemma db_failures_do_not_affect_round_witness :
  let st := sample_state GamePhase.LOCKED 0 3 in
  let eb := mkEosBlock 1005 ("0x" ++ sample_id) "2025-10-15T12:00:02.500"
                       "eosnation" in
  let env1 := env_sample st sample_id 0 true in
  let env2 := env_sample st sample_id 0 false in
  (forall R tr (c : Cmd R),
      is_db_write c = false -> env1 R tr c = env2 R tr c)
  /\ result (run (lockGame st) env1 w0) = result (run (lockGame st) env2 w0)
  /\ result (run (finishGame st eb) env1 w0)
     = result (run (finishGame st eb) env2 w0)
  /\ result (run (handleIdlePhase st) env1 w0)
     = result (run (handleIdlePhase st) env2 w0).
Proof.
  intros st eb env1 env2.
  assert (H : forall R tr (c : Cmd R),
             is_db_write c = false -> env1 R tr c = env2 R tr c).
  { intros R tr c. destruct c; intros E; try reflexivity; discriminate E. }
  split; [exact H |].
  apply (proj2 (proj2 (proj2 (proj2 (proj2 (proj2
           db_failures_do_not_affect_round)))))
           st eb env1 env2 w0 H).
Defined.

(** C2 as stated fails: a tick that reads a Complete round
    from the ledger logs two lines and writes nothing to the database, the
    first time as any other time. *)
Lemma complete_tick_counterexample :
  let st := sample_state GamePhase.COMPLETE 0 3 in
  let env := env_sample st sample_id 0 true in
  emitted (checkAndProcessGameState 1) env w0
  = [EvCall GetPotState (Resolved st);
     EvLog debug "Game state check";
     EvLog info "Game in COMPLETE phase - waiting for transition to IDLE"]
  /\ db_writes (emitted (checkAndProcessGameState 1) env w0) = []
  /\ ~ (exists ev, In ev (emitted (checkAndProcessGameState 1) env w0)
                   /\ ev_is (@is_db_write) ev = true).
Proof.
  split; [vm_compute; reflexivity |].
  split; [vm_compute; reflexivity |].
  intros (ev & Hin & Hev).
  assert (E : emitted (checkAndProcessGameState 1)
                (env_sample (sample_state GamePhase.COMPLETE 0 3)
                            sample_id 0 true) w0
              = [EvCall GetPotState
                   (Resolved (sample_state GamePhase.COMPLETE 0 3));
                 EvLog debug "Game state check";
                 EvLog info
                   "Game in COMPLETE phase - waiting for transition to IDLE"])
    by (vm_compute; reflexivity).
  rewrite E in Hin.
  destruct Hin as [<- | [<- | [<- | []]]]; discriminate Hev.
Qed.

(** C2, amended.  The Complete-phase handler only logs: it submits no
    ledger transaction and writes nothing to the database, so running it
    once, twice or never leaves the same records.  The winner and the seed
    proof of a round are written by the finish action of the Locked phase:
    once the ledger's finish call has resolved, [finishGame] writes one
    update of the round, carrying the winner, the finish transaction and
    the seed, and one proof record, in this order. *)
Theorem complete_phase_records_nothing :
  (forall st (env : Env) w,
      emitted (handleCompletePhase st) env w
      = [EvLog info "Game in COMPLETE phase - waiting for transition to IDLE"]
      /\ db_writes (emitted (handleCompletePhase st) env w) = []
      /\ db_writes (emitted (handleCompletePhase st ;;;
                             handleCompletePhase st) env w) = []
      /\ heap (final (run (handleCompletePhase st) env w)) = heap w)
  /\ (forall st eb (env : Env) w res,
         env _ (trace w ++ [EvLog info "Finishing game"])%list
             (ContractFinishGame (blockHash eb)) = Resolved res ->
         exists t1 t2,
           db_writes (emitted (finishGame st eb) env w)
           = [WUpdateRound (potId st)
                (CompleteUpdate (winner res) t1 (txHash res)
                   (eos_blockNum eb) (blockHash eb) (eos_timestamp eb));
              WCreateProof
                (mkProofRow (potId st) (eos_blockNum eb) (blockHash eb)
                   (eos_timestamp eb) (eos_producer eb) t2)])
  /\ (forall st eb (env : Env) w e,
         env _ (trace w ++ [EvLog info "Finishing game"])%list
             (ContractFinishGame (blockHash eb)) = Rejected e ->
         db_writes (emitted (finishGame st eb) env w) = []).
Proof.
  split; [| split].
  - intros st env w. rewrite !emitted_events. repeat split.
  - intros st eb env w res Hres. rewrite emitted_events. run_prog.
    rewrite Hres. run_prog.
    unfold db_writes.
    repeat (try answer; run_prog); cbn [choose db_write];
      eexists _, _; reflexivity.
  - intros st eb env w e Hres. rewrite emitted_events. run_prog.
    rewrite Hres. run_prog. reflexivity.
Qed.

Lemma complete_phase_records_nothing_witness :
  let st := sample_state GamePhase.LOCKED 0 3 in
  let eb := mkEosBlock 1005 ("0x" ++ sample_id) "2025-10-15T12:00:02.500"
                       "eosnation" in
  let env := env_sample st sample_id 0 true in
  let res := mkFinishResult (Some "0xwinner") "0xfinish" 8 in
  env _ (trace w0 ++ [EvLog info "Finishing game"])%list
      (ContractFinishGame (blockHash eb)) = Resolved res
  /\ exists t1 t2,
       db_writes (emitted (finishGame st eb) env w0)
       = [WUpdateRound (potId st)
            (CompleteUpdate (winner res) t1 (txHash res)
               (eos_blockNum eb) (blockHash eb) (eos_timestamp eb));
          WCreateProof
            (mkProofRow (potId st) (eos_blockNum eb) (blockHash eb)
               (eos_timestamp eb) (eos_producer eb) t2)].
Proof.
  intros st eb env res.
  split; [reflexivity |].
  apply (proj1 (proj2 complete_phase_records_nothing)
           st eb env w0 res eq_refl).
Defined.

(** ** Concrete ticks *)

(** A Locked round with three tickets, the last irreversible block 1000 and
    the offset 5: the tick asks the beacon for block 1005, hands its
    prefixed identifier to the ledger and records winner and proof. *)
Example locked_tick_with_tickets :
  let env := env_sample (sample_state GamePhase.LOCKED 0 3) sample_id 0 true in
  let evs := emitted (checkAndProcessGameState 1) env w0 in
  block_requests evs = [1005]
  /\ choose (fun ev => match ev with
                       | EvCall (ContractFinishGame h) _ => Some h
                       | _ => None
                       end) evs
     = ["0x" ++ sample_id]
  /\ db_writes evs
     = [WUpdateRound "42"
          (CompleteUpdate (Some "0xwinner") 0 "0xfinish" 1005
             ("0x" ++ sample_id) "2025-10-15T12:00:02.500");
        WCreateProof
          (mkProofRow "42" 1005 ("0x" ++ sample_id)
             "2025-10-15T12:00:02.500" "eosnation" 0)]
  /\ isProcessing (gameManager (heap (final (run (checkAndProcessGameState 1)
                                                env w0)))) = false.
Proof. repeat split; vm_compute; reflexivity. Qed.

(** A Locked round without tickets: one cancel, no beacon request. *)
Example locked_tick_without_tickets :
  let env := env_sample (sample_state GamePhase.LOCKED 0 0) sample_id 0 true in
  emitted (checkAndProcessGameState 1) env w0
  = [EvCall GetPotState (Resolved (sample_state GamePhase.LOCKED 0 0));
     EvLog debug "Game state check";
     EvLog info "Game in LOCKED phase - fetching randomness";
     EvLog warn "No tickets sold - cancelling game";
     EvCall EmergencyCancel (Resolved (mkTx "0xcancel"));
     EvCall (TxWait (mkTx "0xcancel")) (Resolved tt);
     EvLog info "Game cancelled - no participants"].
Proof. vm_compute. reflexivity. Qed.

(** A Betting round started at 0, read at 61 seconds while the database is
    down: one lock, and the tick returns. *)
Example betting_tick_at_61 :
  let env := env_sample (sample_state GamePhase.BETTING 0 3) sample_id 61000
                        false in
  count_ev (@is_lock) (emitted (checkAndProcessGameState 1) env w0) = 1%nat
  /\ result (run (checkAndProcessGameState 1) env w0) = Normal tt.
Proof. split; vm_compute; reflexivity. Qed.

(** * More of the code *)

(** ** verifyBlockHash *)

Lemma verifyBlockHash_answered blockNum expectedHash :
  Holds (verified_against expectedHash)
        (verifyBlockHash blockNum expectedHash).
Proof.
  unfold verifyBlockHash.
  eapply Holds_tryCatch with (Q1 := verified_against expectedHash).
  - eapply Holds_bind; [apply getBlock_answered | | | ].
    + intros evs [b |] Hb.
      * cbn [bind log]. constructor. constructor.
        intros m' Hm. injection Hm as <-.
        destruct (Hb b eq_refl) as (url & data & blk & Hin & ->).
        exists url, data, blk. split; [| reflexivity].
        apply in_or_app. left. exact Hin.
      * constructor. intros m' Hm. discriminate Hm.
    + intros evs e _ m' Hm. discriminate Hm.
    + intros evs _ m' Hm. discriminate Hm.
  - auto.
  - intros evs e _. cbn [bind log]. repeat constructor.
    intros m' Hm. discriminate Hm.
  - intros evs _ m' Hm. discriminate Hm.
Qed.

Lemma verifyBlockHash_requests blockNum expectedHash :
  Holds (fun evs _ => asks_for blockNum evs)
        (verifyBlockHash blockNum expectedHash).
Proof.
  unfold verifyBlockHash.
  eapply Holds_tryCatch with (Q1 := fun evs _ => asks_for blockNum evs).
  - eapply Holds_bind with (Q1 := fun evs _ => asks_for blockNum evs);
      [apply getBlock_requests | | | ]; auto.
    intros evs [b |] Hb.
    + cbn [bind log]. constructor. constructor.
      apply asks_for_app; [exact Hb | apply asks_for_quiet; reflexivity].
    + constructor. rewrite app_nil_r. exact Hb.
  - auto.
  - intros evs e Hb. cbn [bind log]. repeat constructor.
    apply asks_for_app; [exact Hb | apply asks_for_quiet; reflexivity].
  - auto.
Qed.

(** X1. [verifyBlockHash] answers from the chain: when it returns, an
    endpoint has answered a [get_block] request of this call, every such
    request asked for the block number given, and the value returned says
    whether the answered identifier, prefixed with [0x] if need be, equals
    the expected hash up to letter case. *)
Theorem verifyBlockHash_sound blockNum expectedHash env w m :
  result (run (verifyBlockHash blockNum expectedHash) env w) = Normal m ->
  let evs := emitted (verifyBlockHash blockNum expectedHash) env w in
  (exists url data blk,
      In (EvCall (AxiosPost url get_block data) (Resolved blk)) evs
      /\ m = String.eqb (toLowerCase (normalizeBlockId (id blk)))
                        (toLowerCase expectedHash))
  /\ (forall n, In n (block_requests evs) -> n = blockNum).
Proof.
  intros H evs. subst evs. split.
  - exact (Holds_run (verifyBlockHash_answered blockNum expectedHash)
                     env w m H).
  - exact (Holds_run (verifyBlockHash_requests blockNum expectedHash) env w).
Qed.

Lemma verifyBlockHash_sound_witness :
  let env := env_sample (sample_state 2 0 3) sample_id 0 true in
  let expected := "0x" ++ sample_id in
  result (run (verifyBlockHash 1005 expected) env w0) = Normal true
  /\ (exists url data blk,
         In (EvCall (AxiosPost url get_block data) (Resolved blk))
            (emitted (verifyBlockHash 1005 expected) env w0)
         /\ true = String.eqb (toLowerCase (normalizeBlockId (id blk)))
                              (toLowerCase expected))
  /\ (forall n,
         In n (block_requests (emitted (verifyBlockHash 1005 expected) env w0))
         -> n = 1005).
Proof.
  intros env expected.
  assert (H : result (run (verifyBlockHash 1005 expected) env w0)
              = Normal true) by (vm_compute; reflexivity).
  split; [exact H |].
  exact (verifyBlockHash_sound 1005 expected env w0 H).
Defined.

(** X2. Audit round trip.  The seed [getFutureBlockHash] returned verifies:
    whenever [verifyBlockHash] is later asked about that seed and returns,
    it returns [true] as long as the chain still answers with the
    identifier the seed was made from. *)
Theorem verify_accepts_fetched_seed fuel blocksInFuture env w eb :
  result (run (getFutureBlockHash fuel blocksInFuture) env w) = Normal eb ->
  exists url0 data0 blk0,
    In (EvCall (AxiosPost url0 get_block data0) (Resolved blk0))
       (emitted (getFutureBlockHash fuel blocksInFuture) env w)
    /\ forall env' w' m,
         result (run (verifyBlockHash (eos_blockNum eb) (blockHash eb))
                     env' w') = Normal m ->
         (forall url data blk,
             In (EvCall (AxiosPost url get_block data) (Resolved blk))
                (emitted (verifyBlockHash (eos_blockNum eb) (blockHash eb))
                         env' w') ->
             id blk = id blk0) ->
         m = true.
Proof.
  intros H.
  destruct (Holds_run (getFutureBlockHash_answered fuel blocksInFuture)
                      env w eb H) as (url0 & data0 & blk0 & Hin0 & ->).
  exists url0, data0, blk0. split; [exact Hin0 |].
  cbn [eos_blockNum blockHash]. intros env' w' m Hm Hsame.
  destruct (Holds_run (verifyBlockHash_answered _ _) env' w' m Hm)
    as (url & data & blk & Hin & ->).
  rewrite (Hsame url data blk Hin). apply String.eqb_refl.
Qed.

Lemma verify_accepts_fetched_seed_witness :
  let env := env_sample (sample_state 2 0 3) sample_id 0 true in
  let eb := mkEosBlock 1005 ("0x" ++ sample_id) "2025-10-15T12:00:02.500"
                       "eosnation" in
  result (run (getFutureBlockHash 1 None) env w0) = Normal eb
  /\ exists url0 data0 blk0,
       In (EvCall (AxiosPost url0 get_block data0) (Resolved blk0))
          (emitted (getFutureBlockHash 1 None) env w0)
       /\ forall env' w' m,
            result (run (verifyBlockHash (eos_blockNum eb) (blockHash eb))
                        env' w') = Normal m ->
            (forall url data blk,
                In (EvCall (AxiosPost url get_block data) (Resolved blk))
                   (emitted (verifyBlockHash (eos_blockNum eb) (blockHash eb))
                            env' w') ->
                id blk = id blk0) ->
            m = true.
Proof.
  intros env eb.
  assert (H : result (run (getFutureBlockHash 1 None) env w0) = Normal eb)
    by (vm_compute; reflexivity).
  split; [exact H |].
  exact (verify_accepts_fetched_seed 1 None env w0 H).
Defined.

(** ** The endpoint selection stays good *)

Lemma same_config_refl w : same_config w w.
Proof. repeat split. Qed.

Lemma same_config_trans w1 w2 w3 :
  same_config w1 w2 -> same_config w2 w3 -> same_config w1 w3.
Proof.
  intros (A1 & A2 & A3) (B1 & B2 & B3). repeat split; congruence.
Qed.

Lemma keeps_Ret A (a : A) : keeps_service (Ret a).
Proof.
  intros env w Hw. simpl. split; [exact Hw |].
  split; [apply same_config_refl | constructor].
Qed.

Lemma keeps_Throw A e : keeps_service (@Throw A e).
Proof.
  intros env w Hw. simpl. split; [exact Hw |].
  split; [apply same_config_refl | constructor].
Qed.

Lemma keeps_Spin A : keeps_service (@Spin A).
Proof.
  intros env w Hw. simpl. split; [exact Hw |].
  split; [apply same_config_refl | constructor].
Qed.

Lemma keeps_ReadThis A (k : Heap -> Prog A) :
  (forall h, keeps_service (k h)) -> keeps_service (ReadThis k).
Proof. intros H env w Hw. apply (H (heap w) env w Hw). Qed.

Lemma keeps_Log A l m (k : Prog A) :
  keeps_service k -> keeps_service (Log l m k).
Proof.
  intros H env w Hw. simpl.
  apply (H env (record (EvLog l m) w) Hw).
Qed.

Lemma keeps_Update A f (k : Prog A) :
  serviceU f -> keeps_service k -> keeps_service (Update f k).
Proof.
  intros Hf H env w Hw. simpl.
  set (w1 := mkWorld (f (heap w)) (trace w)).
  destruct (Hf (heap w)) as [E1 E2].
  assert (S1 : same_config w w1).
  { unfold same_config, endpoints_of. subst w1. cbn [heap].
    rewrite E1, E2. repeat split. }
  assert (O1 : endpoint_ok w1).
  { unfold endpoint_ok, index_of, endpoints_of in *. subst w1. cbn [heap].
    rewrite E1. exact Hw. }
  destruct (H env w1 O1) as (K1 & K2 & K3).
  split; [exact K1 |]. split; [exact (same_config_trans S1 K2) |].
  destruct S1 as [<- _]. exact K3.
Qed.

Lemma keeps_Call A R (c : Cmd R) (k : R -> Prog A) :
  is_beacon c = false ->
  (forall r, keeps_service (k r)) -> keeps_service (Call c k).
Proof.
  intros Hc H env w Hw. simpl.
  destruct (H (env R (trace w) c) env
              (record (EvCall c (env R (trace w) c)) w) Hw)
    as (K1 & K2 & K3).
  split; [exact K1 |]. split; [exact K2 |].
  unfold posted_urls. cbn [choose post_url].
  destruct c; try discriminate Hc; exact K3.
Qed.

Lemma keeps_bind A B (p : Prog A) (f : A -> Prog B) :
  keeps_service p -> (forall a, keeps_service (f a)) ->
  keeps_service (bind p f).
Proof.
  intros Hp Hf env w Hw. rewrite run_bind, events_bind.
  destruct (Hp env w Hw) as (K1 & K2 & K3).
  unfold posted_urls in *. rewrite choose_app.
  destruct (run p env w) as [w1 [a | e |]]; cbn [final fst] in *.
  - destruct (Hf a env w1 K1) as (L1 & L2 & L3).
    split; [exact L1 |]. split; [exact (same_config_trans K2 L2) |].
    apply Forall_app. split; [exact K3 |].
    destruct K2 as [<- _]. exact L3.
  - rewrite app_nil_r. auto.
  - rewrite app_nil_r. auto.
Qed.

Lemma keeps_tryCatch A (p : Prog A) (h : JsError -> Prog A) :
  keeps_service p -> (forall e, keeps_service (h e)) ->
  keeps_service (tryCatch p h).
Proof.
  intros Hp Hh env w Hw. rewrite run_tryCatch, events_tryCatch.
  destruct (Hp env w Hw) as (K1 & K2 & K3).
  unfold posted_urls in *. rewrite choose_app.
  destruct (run p env w) as [w1 [a | e |]]; cbn [final fst] in *.
  - rewrite app_nil_r. auto.
  - destruct (Hh e env w1 K1) as (L1 & L2 & L3).
    split; [exact L1 |]. split; [exact (same_config_trans K2 L2) |].
    apply Forall_app. split; [exact K3 |].
    destruct K2 as [<- _]. exact L3.
  - rewrite app_nil_r. auto.
Qed.

Lemma keeps_tryFinally A (p : Prog A) (fin : Prog unit) :
  keeps_service p -> keeps_service fin -> keeps_service (tryFinally p fin).
Proof.
  intros Hp Hf env w Hw. rewrite run_tryFinally, events_tryFinally.
  destruct (Hp env w Hw) as (K1 & K2 & K3).
  unfold posted_urls in *. rewrite choose_app.
  destruct (run p env w) as [w1 [a | e |]]; cbn [final fst] in *.
  - rewrite run_bind. destruct (Hf env w1 K1) as (L1 & L2 & L3).
    assert (E : final (match run fin env w1 with
                       | (w', Normal _) => run (Ret a) env w'
                       | (w', Thrown e) => (w', Thrown e)
                       | (w', Diverged) => (w', Diverged)
                       end) = final (run fin env w1))
      by (destruct (run fin env w1) as [w2 [[] | e |]]; reflexivity).
    rewrite E.
    split; [exact L1 |]. split; [exact (same_config_trans K2 L2) |].
    apply Forall_app. split; [exact K3 |].
    destruct K2 as [<- _]. exact L3.
  - rewrite run_bind. destruct (Hf env w1 K1) as (L1 & L2 & L3).
    assert (E : final (match run fin env w1 with
                       | (w', Normal _) => run (@Throw A e) env w'
                       | (w', Thrown e) => (w', Thrown e)
                       | (w', Diverged) => (w', Diverged)
                       end) = final (run fin env w1))
      by (destruct (run fin env w1) as [w2 [[] | e' |]]; reflexivity).
    rewrite E.
    split; [exact L1 |]. split; [exact (same_config_trans K2 L2) |].
    apply Forall_app. split; [exact K3 |].
    destruct K2 as [<- _]. exact L3.
  - rewrite app_nil_r. auto.
Qed.

(** The loop of [makeRpcCall] changes nothing of the heap but the endpoint
    selection. *)
Lemma makeRpcCall_loop_frame r :
  forall a N path data last env w,
    let w' := final (run (makeRpcCall_loop r a N path data last) env w) in
    same_config w w'
    /\ gameManager (heap w') = gameManager (heap w).
Proof.
  induction r as [| r IH]; intros a N path data last env w.
  - simpl. destruct last; simpl; repeat split.
  - cbv zeta. rewrite run_makeRpcCall_loop_S. cbv zeta.
    destruct (env _ _ (AxiosPost _ path data)) as [d | e].
    + simpl. repeat split.
    + destruct (a <? N - 1)%nat.
      * match goal with
        | |- context [run _ env ?w2] =>
            destruct (IH (S a) N path data (Some e) env w2) as [S2 G2];
            split; [| rewrite G2; reflexivity];
            apply (@same_config_trans w w2); [repeat split | exact S2]
        end.
      * match goal with
        | |- context [run _ env ?w2] =>
            destruct (IH (S a) N path data (Some e) env w2) as [S2 G2];
            split; [| rewrite G2; reflexivity];
            apply (@same_config_trans w w2); [repeat split | exact S2]
        end.
Qed.

Lemma attempt_url_configured eps i path j :
  eps <> [] -> configured_url eps (attempt_url eps i path j).
Proof.
  intros Hne. exists (nth ((i + j) mod List.length eps)%nat eps "undefined"),
    path.
  split; [| reflexivity]. apply nth_In. apply Nat.mod_upper_bound.
  destruct eps; [contradiction | discriminate].
Qed.

Lemma keeps_makeRpcCall path data : keeps_service (makeRpcCall path data).
Proof.
  intros env w Hw.
  destruct (makeRpcCall_spec path data env w Hw)
    as (Heps & Hk & Hurls & Hres).
  assert (Hne : endpoints_of w <> []).
  { unfold endpoint_ok in Hw. destruct (endpoints_of w); simpl in Hw;
      [lia | discriminate]. }
  assert (HN : List.length (endpoints_of w) <> 0%nat).
  { destruct (endpoints_of w); [contradiction | discriminate]. }
  split; [| split].
  - unfold endpoint_ok. rewrite Heps.
    destruct (result _) as [d | e |].
    + destruct Hres as [_ ->]. apply Nat.mod_upper_bound, HN.
    + destruct Hres as (_ & -> & _). apply Nat.mod_upper_bound, HN.
    + destruct Hres.
  - apply (makeRpcCall_loop_frame
             (List.length (rpcEndpoints (eosService (heap w)))) 0
             (List.length (rpcEndpoints (eosService (heap w))))
             path data None env w).
  - rewrite <- emitted_events, Hurls. apply Forall_forall.
    intros u Hu. apply in_map_iff in Hu. destruct Hu as (j & <- & _).
    apply attempt_url_configured, Hne.
Qed.

Lemma serviceU_guard b : serviceU (set_isProcessing b).
Proof. intros h. split; reflexivity. Qed.

Ltac keeps_step :=
  match goal with
  | |- keeps_service (Ret _) => apply keeps_Ret
  | |- keeps_service (Throw _) => apply keeps_Throw
  | |- keeps_service Spin => apply keeps_Spin
  | |- keeps_service (makeRpcCall _ _) => apply keeps_makeRpcCall
  | |- keeps_service (Log _ _ _) => apply keeps_Log
  | |- keeps_service (Call _ _) => apply keeps_Call; [reflexivity | intros ?]
  | |- keeps_service (ReadThis _) => apply keeps_ReadThis; intros ?
  | |- keeps_service (Update _ _) =>
      apply keeps_Update; [apply serviceU_guard |]
  | |- keeps_service (bind _ _) => apply keeps_bind; [| intros ?]
  | |- keeps_service (tryCatch _ _) => apply keeps_tryCatch; [| intros ?]
  | |- keeps_service (tryFinally _ _) => apply keeps_tryFinally
  | |- keeps_service (log _ _) => unfold log
  | |- keeps_service (update _) => unfold update
  | |- keeps_service (call _) => unfold call
  | |- keeps_service (await _) => unfold await
  | |- keeps_service (if ?b then _ else _) => destruct b
  | |- keeps_service (match ?x with _ => _ end) => destruct x
  end.

Ltac keeps :=
  cbn [bind tryCatch tryFinally await call log readThis update];
  repeat (keeps_step;
          cbn [bind tryCatch tryFinally await call log readThis update]).

Lemma keeps_getChainInfo : keeps_service getChainInfo.
Proof. unfold getChainInfo. keeps. Qed.

Lemma keeps_getBlock n : keeps_service (getBlock n).
Proof. unfold getBlock. keeps. Qed.

Lemma keeps_waitForBlock_loop fuel :
  forall target startT maxWait,
    keeps_service (waitForBlock_loop fuel target startT maxWait).
Proof.
  induction fuel as [| fuel IH]; intros target startT maxWait.
  - apply keeps_Spin.
  - cbn [waitForBlock_loop]. keeps; try apply keeps_getBlock; try apply IH.
Qed.

Lemma keeps_waitForBlock fuel target maxWait :
  keeps_service (waitForBlock fuel target maxWait).
Proof. unfold waitForBlock. keeps. apply keeps_waitForBlock_loop. Qed.

Lemma keeps_getFutureBlockHash fuel blocksInFuture :
  keeps_service (getFutureBlockHash fuel blocksInFuture).
Proof.
  unfold getFutureBlockHash. keeps;
    try apply keeps_getChainInfo; try apply keeps_waitForBlock.
Qed.

Lemma keeps_verifyBlockHash n expected :
  keeps_service (verifyBlockHash n expected).
Proof. unfold verifyBlockHash. keeps; apply keeps_getBlock. Qed.

Lemma keeps_tick fuel : keeps_service (checkAndProcessGameState fuel).
Proof.
  unfold checkAndProcessGameState, checkAndProcessGameState_with,
    handleIdlePhase, handleBettingPhase, handleLockedPhase,
    handleCompletePhase, lockGame, finishGame, createGameRound,
    updateGameRound, storeEosProof.
  keeps; try apply keeps_getFutureBlockHash.
Qed.

Lemma keeps_repeat n (p : Prog unit) :
  keeps_service p -> keeps_service (repeat_prog n p).
Proof.
  intros Hp. induction n as [| n IH]; simpl.
  - apply keeps_Ret.
  - apply keeps_bind; [exact Hp | intros _; exact IH].
Qed.

(** X3. The endpoint selection stays good.  Started with the selection
    inside the endpoint list, any number of ticks in a row, and so also a
    seed fetch or an audit on its own, end with the selection inside the
    list and with the endpoint list, the default offset and the timer
    setting as they were; and every HTTP request made on the way went to
    one of the configured endpoints, at a chain API path. *)
Theorem endpoint_selection_stays_good n fuel env w :
  endpoint_ok w ->
  let ticks := repeat_prog n (checkAndProcessGameState fuel) in
  (endpoint_ok (final (run ticks env w))
   /\ same_config w (final (run ticks env w))
   /\ Forall (configured_url (endpoints_of w))
             (posted_urls (emitted ticks env w)))
  /\ (forall blocksInFuture,
         let p := getFutureBlockHash fuel blocksInFuture in
         endpoint_ok (final (run p env w))
         /\ same_config w (final (run p env w))
         /\ Forall (configured_url (endpoints_of w))
                   (posted_urls (emitted p env w)))
  /\ (forall blockNum expectedHash,
         let p := verifyBlockHash blockNum expectedHash in
         endpoint_ok (final (run p env w))
         /\ same_config w (final (run p env w))
         /\ Forall (configured_url (endpoints_of w))
                   (posted_urls (emitted p env w))).
Proof.
  intros Hw ticks. split; [| split].
  - rewrite emitted_events.
    apply (keeps_repeat n (keeps_tick fuel)); exact Hw.
  - intros b p. subst p. rewrite emitted_events.
    apply keeps_getFutureBlockHash; exact Hw.
  - intros bn ex p. subst p. rewrite emitted_events.
    apply keeps_verifyBlockHash; exact Hw.
Qed.

Lemma endpoint_selection_stays_good_witness :
  let env := env_first_down in
  let ticks := repeat_prog 3 (checkAndProcessGameState 1) in
  endpoint_ok w_two
  /\ endpoint_ok (final (run ticks env w_two))
  /\ same_config w_two (final (run ticks env w_two))
  /\ Forall (configured_url (endpoints_of w_two))
            (posted_urls (emitted ticks env w_two)).
Proof.
  intros env ticks.
  assert (H : endpoint_ok w_two)
    by (unfold endpoint_ok, index_of, endpoints_of; simpl; lia).
  split; [exact H |].
  exact (proj1 (@endpoint_selection_stays_good 3 1 env w_two H)).
Defined.

(** ** Round robin *)

Lemma run_switchToNextEndpoint env w :
  let w' := final (run switchToNextEndpoint env w) in
  index_of w' = ((index_of w + 1) mod List.length (endpoints_of w))%nat
  /\ endpoints_of w' = endpoints_of w
  /\ result (run switchToNextEndpoint env w) = Normal tt.
Proof. repeat split. Qed.

Lemma run_switches k :
  forall env w,
    endpoint_ok w ->
    let w' := final (run (repeat_prog k switchToNextEndpoint) env w) in
    index_of w' = ((index_of w + k) mod List.length (endpoints_of w))%nat
    /\ endpoints_of w' = endpoints_of w.
Proof.
  induction k as [| k IH]; intros env w Hw.
  - simpl. split; [| reflexivity].
    rewrite Nat.add_0_r. symmetry. apply Nat.mod_small. exact Hw.
  - cbv zeta. cbn [repeat_prog]. rewrite run_bind.
    destruct (run_switchToNextEndpoint env w) as (I1 & E1 & R1).
    destruct (run switchToNextEndpoint env w) as [w1 r1].
    cbn [final fst result snd] in I1, E1, R1. subst r1.
    assert (HN : List.length (endpoints_of w) <> 0%nat)
      by (unfold endpoint_ok in Hw; lia).
    assert (Hw1 : endpoint_ok w1).
    { unfold endpoint_ok. rewrite I1, E1. apply Nat.mod_upper_bound, HN. }
    destruct (IH env w1 Hw1) as [I2 E2].
    split; [| congruence].
    rewrite I2, I1, E1, Nat.Div0.add_mod_idemp_l. f_equal. lia.
Qed.

(** X4. Round robin.  With [N] endpoints and a good selection, [k] calls of
    [switchToNextEndpoint] move the selection [k] places round the list:
    after [N] switches it is back where it started, and after fewer (and at
    least one) it is somewhere else.  The endpoint list is not touched. *)
Theorem switchToNextEndpoint_cycles k env w :
  endpoint_ok w ->
  let N := List.length (endpoints_of w) in
  let after j :=
    final (run (repeat_prog j switchToNextEndpoint) env w) in
  index_of (after k) = ((index_of w + k) mod N)%nat
  /\ endpoints_of (after k) = endpoints_of w
  /\ index_of (after N) = index_of w
  /\ ((0 < k < N)%nat -> index_of (after k) <> index_of w).
Proof.
  intros Hw N after. subst after. cbv beta.
  destruct (@run_switches k env w Hw) as [Ik Ek].
  destruct (@run_switches N env w Hw) as [IN _].
  fold N in Ik, IN.
  assert (HN : N <> 0%nat) by (unfold endpoint_ok in Hw; unfold N; lia).
  split; [exact Ik |]. split; [exact Ek |]. split.
  - rewrite IN.
    replace (index_of w + N)%nat with (index_of w + 1 * N)%nat by lia.
    rewrite Nat.Div0.mod_add. apply Nat.mod_small. exact Hw.
  - intros Hk E. rewrite Ik in E.
    pose proof (Nat.div_mod_eq (index_of w + k) N) as D.
    rewrite E in D. unfold endpoint_ok in Hw. fold N in Hw.
    assert (Q : ((index_of w + k) / N = 0 \/ (index_of w + k) / N >= 1)%nat)
      by lia.
    destruct Q as [Q | Q]; [rewrite Q in D; lia | nia].
Qed.

Lemma switchToNextEndpoint_cycles_witness :
  let N := List.length (endpoints_of w_two) in
  let after j :=
    final (run (repeat_prog j switchToNextEndpoint) env_first_down w_two) in
  endpoint_ok w_two
  /\ index_of (after 1%nat) = ((index_of w_two + 1) mod N)%nat
  /\ endpoints_of (after 1%nat) = endpoints_of w_two
  /\ index_of (after N) = index_of w_two
  /\ ((0 < 1 < N)%nat -> index_of (after 1%nat) <> index_of w_two).
Proof.
  intros N after.
  assert (H : endpoint_ok w_two)
    by (unfold endpoint_ok, index_of, endpoints_of; simpl; lia).
  split; [exact H |].
  exact (@switchToNextEndpoint_cycles 1 env_first_down w_two H).
Defined.

(** ** [waitForBlock]: one deadline check, one request round *)

Lemma posted_urls_app evs1 evs2 :
  posted_urls (evs1 ++ evs2) = (posted_urls evs1 ++ posted_urls evs2)%list.
Proof. apply choose_app. Qed.






(** ** A tick that has nothing to act on *)

Lemma getPhaseLabel_cases ph :
  (ph = GamePhase.IDLE /\ getPhaseLabel ph = "IDLE")
  \/ (ph = GamePhase.BETTING /\ getPhaseLabel ph = "BETTING")
  \/ (ph = GamePhase.LOCKED /\ getPhaseLabel ph = "LOCKED")
  \/ (ph = GamePhase.COMPLETE /\ getPhaseLabel ph = "COMPLETE")
  \/ ((ph =? GamePhase.IDLE) = false /\ (ph =? GamePhase.BETTING) = false
      /\ (ph =? GamePhase.LOCKED) = false
      /\ (ph =? GamePhase.COMPLETE) = false
      /\ getPhaseLabel ph = "UNKNOWN").
Proof.
  unfold getPhaseLabel, labels. cbn [property].
  destruct (ph =? GamePhase.IDLE) eqn:E0;
    [apply Z.eqb_eq in E0; auto |].
  destruct (ph =? GamePhase.BETTING) eqn:E1;
    [apply Z.eqb_eq in E1; auto |].
  destruct (ph =? GamePhase.LOCKED) eqn:E2;
    [apply Z.eqb_eq in E2; auto 6 |].
  destruct (ph =? GamePhase.COMPLETE) eqn:E3;
    [apply Z.eqb_eq in E3; auto 6 |].
  do 4 right. auto 6.
Qed.

Lemma heap_released h :
  isProcessing (gameManager h) = false ->
  set_isProcessing false (set_isProcessing true h) = h.
Proof.
  destruct h as [[b] e t]. simpl. intros ->. reflexivity.
Qed.

(** X6. A tick with nothing to act on.  When the ledger read is rejected,
    or reports a phase that [getPhaseLabel] labels UNKNOWN (which it does
    exactly for the phases outside the four of the [switch]), the tick
    makes no call besides that read, logs the problem, returns, and leaves
    the manager and the beacon client as they were, the guard clear. *)
Theorem tick_without_known_phase fuel (env : Env) w :
  isProcessing (gameManager (heap w)) = false ->
  let p := checkAndProcessGameState fuel in
  (forall e,
      env _ (trace w) GetPotState = Rejected e ->
      emitted p env w
      = [EvCall GetPotState (Rejected e);
         EvLog error "Error checking game state"]
      /\ result (run p env w) = Normal tt
      /\ heap (final (run p env w)) = heap w)
  /\ (forall st,
         env _ (trace w) GetPotState = Resolved st ->
         getPhaseLabel (phase st) = "UNKNOWN" ->
         emitted p env w
         = [EvCall GetPotState (Resolved st);
            EvLog debug "Game state check";
            EvLog error "Unknown game phase"]
         /\ result (run p env w) = Normal tt
         /\ heap (final (run p env w)) = heap w)
  /\ (forall ph,
         getPhaseLabel ph = "UNKNOWN"
         <-> ~ In ph [GamePhase.IDLE; GamePhase.BETTING;
                      GamePhase.LOCKED; GamePhase.COMPLETE]).
Proof.
  intros Hg p. subst p. split; [| split].
  - intros e He. rewrite emitted_events.
    unfold checkAndProcessGameState, checkAndProcessGameState_with.
    cbn [bind readThis run events]. rewrite Hg.
    cbn [bind update tryFinally tryCatch await run events heap trace].
    rewrite He. run_prog. rewrite (heap_released _ Hg). auto.
  - intros st Hst Hlab. rewrite emitted_events.
    destruct (getPhaseLabel_cases (phase st))
      as [[_ H] | [[_ H] | [[_ H] | [[_ H] | (E0 & E1 & E2 & E3 & _)]]]];
      try (rewrite H in Hlab; discriminate Hlab).
    unfold checkAndProcessGameState, checkAndProcessGameState_with.
    cbn [bind readThis run events]. rewrite Hg.
    cbn [bind update tryFinally tryCatch await run events heap trace].
    rewrite Hst. cbn [bind log tryFinally tryCatch run events].
    rewrite E0, E1, E2, E3. run_prog. rewrite (heap_released _ Hg). auto.
  - intros ph.
    destruct (getPhaseLabel_cases ph)
      as [[-> H] | [[-> H] | [[-> H] | [[-> H] | (E0 & E1 & E2 & E3 & H)]]]];
      rewrite H; split; try discriminate;
      try (intros Hn; exfalso; apply Hn; simpl; auto; fail).
    + intros _ [<- | [<- | [<- | [<- | []]]]]; discriminate.
    + reflexivity.
Qed.

Lemma tick_without_known_phase_witness :
  let st := sample_state 7 0 3 in
  let env := env_sample st sample_id 0 true in
  emitted (checkAndProcessGameState 0) env w0
  = [EvCall GetPotState (Resolved st);
     EvLog debug "Game state check";
     EvLog error "Unknown game phase"]
  /\ result (run (checkAndProcessGameState 0) env w0) = Normal tt
  /\ heap (final (run (checkAndProcessGameState 0) env w0)) = heap w0.
Proof.
  intros st env.
  apply (proj1 (proj2 (@tick_without_known_phase 0%nat env w0 eq_refl)) st);
    reflexivity.
Defined.

(** ** The Locked phase with tickets, step by step *)

Lemma handleLockedPhase_events fuel st (env : Env) w :
  tickets st <> 0 ->
  let w1 := record (EvLog info "Fetching EOS randomness")
              (record (EvLog info "Game in LOCKED phase - fetching randomness")
                 w) in
  let fetch := getFutureBlockHash fuel None in
  events (handleLockedPhase fuel st) env w
  = (EvLog info "Game in LOCKED phase - fetching randomness"
     :: EvLog info "Fetching EOS randomness"
     :: events fetch env w1
     ++ match run fetch env w1 with
        | (w2, Normal eosBlock) =>
            let w3 := record (EvLog info "EOS randomness fetched") w2 in
            EvLog info "EOS randomness fetched"
            :: events (finishGame st eosBlock) env w3
            ++ match result (run (finishGame st eosBlock) env w3) with
               | Thrown _ => [EvLog error "Error handling locked phase"]
               | _ => []
               end
        | (_, Thrown _) => [EvLog error "Error handling locked phase"]
        | (_, Diverged) => []
        end)%list.
Proof.
  intros Ht w1 fetch. unfold handleLockedPhase.
  apply Z.eqb_neq in Ht. rewrite Ht.
  cbn [bind log events]. f_equal.
  rewrite events_tryCatch. cbn [events run app]. f_equal. fold w1.
  rewrite events_bind, run_bind. fold fetch.
  rewrite <- app_assoc. f_equal.
  destruct (run fetch env w1) as [w2 [eb | e |]]; try reflexivity.
  cbn [events run app]. f_equal.
  set (w3 := record (EvLog info "EOS randomness fetched") w2).
  destruct (run (finishGame st eb) env w3) as [w4 [[] | e |]];
    reflexivity.
Qed.

Lemma choose_none A B (f : A -> option B) (P : A -> Prop) l :
  (forall x, P x -> f x = None) -> Forall P l -> choose f l = [].
Proof.
  intros Hf. induction 1 as [| x l Hx _ IH]; simpl; auto.
  rewrite (Hf x Hx). exact IH.
Qed.

(** A seed fetch talks to the clock and to the beacon only. *)
Lemma fetch_is_quiet fuel blocksInFuture env w :
  let evs := events (getFutureBlockHash (S fuel) blocksInFuture) env w in
  db_writes evs = [] /\ finish_seeds evs = []
  /\ result (run (getFutureBlockHash (S fuel) blocksInFuture) env w)
     <> Diverged.
Proof.
  intros evs.
  pose (okC := fun R (c : Cmd R) => is_clock c || is_beacon c = true).
  assert (S : Sat guardU okC terminates
                  (getFutureBlockHash (S fuel) blocksInFuture)).
  { apply getFutureBlockHash_Sat; intros R c H; unfold okC; rewrite H;
      auto using orb_true_r. }
  pose proof (Sat_events env w S) as F. fold evs in F.
  split; [| split].
  - eapply choose_none; [| exact F].
    intros [l m | R c r]; [reflexivity |].
    unfold okC. destruct c; simpl; intros; reflexivity || discriminate.
  - eapply choose_none; [| exact F].
    intros [l m | R c r]; [reflexivity |].
    unfold okC. destruct c; simpl; intros; reflexivity || discriminate.
  - pose proof (Sat_run env w S) as T. intros E. rewrite E in T. exact T.
Qed.

Lemma finishGame_events st eb (env : Env) w :
  let evs := events (finishGame st eb) env w in
  finish_seeds evs = [blockHash eb]
  /\ match env _ (trace w ++ [EvLog info "Finishing game"])%list
               (ContractFinishGame (blockHash eb)) with
     | Resolved res =>
         In (EvCall (ContractFinishGame (blockHash eb)) (Resolved res)) evs
         /\ exists t1 t2,
              db_writes evs
              = [WUpdateRound (potId st)
                   (CompleteUpdate (winner res) t1 (txHash res)
                      (eos_blockNum eb) (blockHash eb) (eos_timestamp eb));
                 WCreateProof
                   (mkProofRow (potId st) (eos_blockNum eb) (blockHash eb)
                      (eos_timestamp eb) (eos_producer eb) t2)]
     | Rejected _ => db_writes evs = []
     end.
Proof.
  intros evs. subst evs. run_prog.
  destruct (env _ _ (ContractFinishGame (blockHash eb))) as [res | e];
    run_prog; unfold finish_seeds, db_writes.
  - repeat (try answer; run_prog); cbn [choose finish_seed db_write];
      (split; [reflexivity |]);
      (split; [right; left; reflexivity | eexists _, _; reflexivity]).
  - split; reflexivity.
Qed.

Ltac in_events := repeat (first [left; reflexivity | right]).

Lemma tick_seed_source fuel (env : Env) w :
  isProcessing (gameManager (heap w)) = false ->
  seed_from_beacon (emitted (checkAndProcessGameState (S fuel)) env w).
Proof.
  intros Hg. unfold seed_from_beacon. rewrite emitted_events, (tick_events _ _ _ Hg).
  destruct (env _ (trace w) GetPotState) as [st | e]; [| left; reflexivity].
  set (w1 := record _ _). unfold dispatch.
  destruct (phase st =? GamePhase.IDLE).
  { left. run_prog. unfold finish_seeds.
    repeat (try answer; run_prog); reflexivity. }
  destruct (phase st =? GamePhase.BETTING).
  { left. run_prog. unfold finish_seeds.
    destruct (at_log_threshold _); destruct (_ >=? _); run_prog;
      repeat (try answer; run_prog); reflexivity. }
  destruct (phase st =? GamePhase.LOCKED) eqn:EL;
    [| left; destruct (phase st =? GamePhase.COMPLETE); reflexivity].
  apply Z.eqb_eq in EL.
  destruct (Z.eq_dec (tickets st) 0) as [Ht | Ht].
  { left. run_prog. rewrite Ht. change (0 =? 0) with true.
    unfold finish_seeds. run_prog.
    repeat (try answer; run_prog); reflexivity. }
  rewrite handleLockedPhase_events by exact Ht.
  set (w2 := record _ (record _ w1)).
  destruct (fetch_is_quiet fuel None env w2) as (_ & Q & _).
  pose proof (Holds_run (getFutureBlockHash_answered (S fuel) None) env w2)
    as A.
  rewrite emitted_events in A.
  unfold finish_seeds in *.
  destruct (run (getFutureBlockHash (S fuel) None) env w2)
    as [w3 [eb | e |]]; cbn [result snd] in A.
  - right. destruct (A eb eq_refl) as (url & data & blk & Hin & ->).
    exists st, url, data, blk.
    split; [left; reflexivity |]. split; [exact EL |].
    split; [exact Ht |]. split; [| split].
    + do 4 right. apply in_or_app. left. exact Hin.
    + cbn [choose finish_seed]. rewrite choose_app, Q.
      cbn [choose finish_seed app]. rewrite choose_app.
      rewrite (proj1 (finishGame_events st _ env _)).
      cbn [blockHash app].
      destruct (result _) as [[] | e |]; reflexivity.
    + apply normalizeBlockId_prefix.
  - left. cbn [choose finish_seed]. rewrite choose_app, Q. reflexivity.
  - left. cbn [choose finish_seed]. rewrite choose_app, Q. reflexivity.
Qed.
(** X7. The seed a tick finishes a round with is the beacon's.  A tick
    hands the ledger at most one seed, and only in the Locked phase with
    tickets sold; that seed is the identifier of a block an endpoint
    answered a [get_block] request of this very tick with, with [0x] put
    in front unless it was there already.  So when the seed fetch fails,
    the tick does not finish the round. *)
Theorem tick_finishes_with_beacon_seed fuel (env : Env) w :
  isProcessing (gameManager (heap w)) = false ->
  let evs := emitted (checkAndProcessGameState (S fuel)) env w in
  finish_seeds evs = []
  \/ exists st url data blk,
       In (EvCall GetPotState (Resolved st)) evs
       /\ phase st = GamePhase.LOCKED /\ tickets st <> 0
       /\ In (EvCall (AxiosPost url get_block data) (Resolved blk)) evs
       /\ finish_seeds evs = [normalizeBlockId (id blk)]
       /\ prefix "0x" (normalizeBlockId (id blk)) = true.
Proof. intros Hg. exact (tick_seed_source fuel env w Hg). Qed.

Lemma tick_finishes_with_beacon_seed_witness :
  let st := sample_state GamePhase.LOCKED 0 3 in
  let env := env_sample st sample_id 0 true in
  let evs := emitted (checkAndProcessGameState 1) env w0 in
  finish_seeds evs = []
  \/ exists st url data blk,
       In (EvCall GetPotState (Resolved st)) evs
       /\ phase st = GamePhase.LOCKED /\ tickets st <> 0
       /\ In (EvCall (AxiosPost url get_block data) (Resolved blk)) evs
       /\ finish_seeds evs = [normalizeBlockId (id blk)]
       /\ prefix "0x" (normalizeBlockId (id blk)) = true.
Proof.
  intros st env.
  apply (@tick_finishes_with_beacon_seed 0%nat env w0). reflexivity.
Defined.

Lemma tick_writes_source fuel (env : Env) w :
  isProcessing (gameManager (heap w)) = false ->
  writes_follow_ledger (emitted (checkAndProcessGameState (S fuel)) env w).
Proof.
  intros Hg. unfold writes_follow_ledger. rewrite emitted_events, (tick_events _ _ _ Hg).
  destruct (env _ (trace w) GetPotState) as [st | e]; [| left; reflexivity].
  set (w1 := record _ _). unfold dispatch.
  destruct (phase st =? GamePhase.IDLE) eqn:EI.
  { apply Z.eqb_eq in EI. run_prog. unfold db_writes.
    repeat (try answer; try destruct o; run_prog);
      first [ left; reflexivity
            | right; left; eexists st, _, _;
              split; [left; reflexivity |];
              split; [exact EI |];
              split; [in_events |];
              split; [in_events | reflexivity] ]. }
  destruct (phase st =? GamePhase.BETTING) eqn:EB.
  { apply Z.eqb_eq in EB. run_prog. unfold db_writes.
    destruct (at_log_threshold _); destruct (_ >=? _); run_prog;
      repeat (try answer; run_prog);
      first [ left; reflexivity
            | right; right; left; eexists st, _, _;
              split; [left; reflexivity |];
              split; [exact EB |];
              split; [in_events | reflexivity] ]. }
  destruct (phase st =? GamePhase.LOCKED) eqn:EL;
    [| left; destruct (phase st =? GamePhase.COMPLETE); reflexivity].
  apply Z.eqb_eq in EL.
  destruct (Z.eq_dec (tickets st) 0) as [Ht | Ht].
  { left. run_prog. rewrite Ht. change (0 =? 0) with true.
    unfold db_writes. run_prog.
    repeat (try answer; run_prog); reflexivity. }
  rewrite handleLockedPhase_events by exact Ht.
  set (w2 := record _ (record _ w1)).
  destruct (fetch_is_quiet fuel None env w2) as (Q & _ & _).
  unfold db_writes in *.
  destruct (run (getFutureBlockHash (S fuel) None) env w2)
    as [w3 [eb | e |]];
    [| left; cbn [choose db_write]; rewrite choose_app, Q; reflexivity ..].
  set (w4 := record _ w3).
  destruct (finishGame_events st eb env w4) as [_ F].
  unfold db_writes in F.
  destruct (env _ _ (ContractFinishGame (blockHash eb))) as [res | e].
  - destruct F as (Hin & t1 & t2 & Hdb).
    do 3 right. exists st, res, eb, t1, t2.
    split; [left; reflexivity |]. split; [exact EL |].
    split; [exact Ht |]. split.
    + do 4 right. apply in_or_app. right. right.
      apply in_or_app. left. exact Hin.
    + cbn [choose db_write]. rewrite choose_app, Q.
      cbn [choose db_write app]. rewrite choose_app, Hdb.
      destruct (result _) as [[] | e |]; reflexivity.
  - left. cbn [choose db_write]. rewrite choose_app, Q.
    cbn [choose db_write app]. rewrite choose_app, F.
    destruct (result _) as [[] | e' |]; reflexivity.
Qed.
(** X8. A tick writes to the database only what the ledger has confirmed.
    The database writes of a tick are none at all, or one of: the new
    round row, in the Idle phase, after [startGame] resolved and its
    transaction was mined; the Locked update carrying the hash of the lock
    transaction, in the Betting phase, after the lock call resolved; the
    Complete update and then the seed proof, in the Locked phase with
    tickets, after the finish call resolved, both carrying the seed that
    call was given and the update the winner and transaction it answered
    with.  Every write is for the pot the ledger read reported. *)
Theorem tick_db_follows_ledger fuel (env : Env) w :
  isProcessing (gameManager (heap w)) = false ->
  let evs := emitted (checkAndProcessGameState (S fuel)) env w in
  db_writes evs = []
  \/ (exists st tx t,
         In (EvCall GetPotState (Resolved st)) evs
         /\ phase st = GamePhase.IDLE
         /\ In (EvCall StartGame (Resolved tx)) evs
         /\ In (EvCall (TxWait tx) (Resolved tt)) evs
         /\ db_writes evs
            = [WCreateRound (mkRoundRow (potId st) "BETTING" t "0" 0 0)])
  \/ (exists st res t,
         In (EvCall GetPotState (Resolved st)) evs
         /\ phase st = GamePhase.BETTING
         /\ In (EvCall ContractLockGame (Resolved res)) evs
         /\ db_writes evs
            = [WUpdateRound (potId st) (LockedUpdate t (lock_txHash res))])
  \/ (exists st res eb t1 t2,
         In (EvCall GetPotState (Resolved st)) evs
         /\ phase st = GamePhase.LOCKED /\ tickets st <> 0
         /\ In (EvCall (ContractFinishGame (blockHash eb)) (Resolved res))
               evs
         /\ db_writes evs
            = [WUpdateRound (potId st)
                 (CompleteUpdate (winner res) t1 (txHash res)
                    (eos_blockNum eb) (blockHash eb) (eos_timestamp eb));
               WCreateProof
                 (mkProofRow (potId st) (eos_blockNum eb) (blockHash eb)
                    (eos_timestamp eb) (eos_producer eb) t2)]).
Proof. intros Hg. exact (tick_writes_source fuel env w Hg). Qed.

Lemma tick_db_follows_ledger_witness :
  let st := sample_state GamePhase.IDLE 0 0 in
  let env := env_sample st sample_id 0 true in
  let evs := emitted (checkAndProcessGameState 1) env w0 in
  isProcessing (gameManager (heap w0)) = false
  /\ (db_writes evs = []
      \/ (exists st tx t,
             In (EvCall GetPotState (Resolved st)) evs
             /\ phase st = GamePhase.IDLE
             /\ In (EvCall StartGame (Resolved tx)) evs
             /\ In (EvCall (TxWait tx) (Resolved tt)) evs
             /\ db_writes evs
                = [WCreateRound (mkRoundRow (potId st) "BETTING" t "0" 0 0)])
      \/ (exists st res t,
             In (EvCall GetPotState (Resolved st)) evs
             /\ phase st = GamePhase.BETTING
             /\ In (EvCall ContractLockGame (Resolved res)) evs
             /\ db_writes evs
                = [WUpdateRound (potId st)
                     (LockedUpdate t (lock_txHash res))])
      \/ (exists st res eb t1 t2,
             In (EvCall GetPotState (Resolved st)) evs
             /\ phase st = GamePhase.LOCKED /\ tickets st <> 0
             /\ In (EvCall (ContractFinishGame (blockHash eb))
                           (Resolved res)) evs
             /\ db_writes evs
                = [WUpdateRound (potId st)
                     (CompleteUpdate (winner res) t1 (txHash res)
                        (eos_blockNum eb) (blockHash eb)
                        (eos_timestamp eb));
                   WCreateProof
                     (mkProofRow (potId st) (eos_blockNum eb)
                        (blockHash eb) (eos_timestamp eb)
                        (eos_producer eb) t2)])).
Proof.
  intros st env evs. split; [reflexivity |].
  exact (@tick_db_follows_ledger 0%nat env w0 eq_refl).
Defined.

(** X9. An explicit offset.  Given a non-zero number of blocks, a seed
    fetch asks only for the block that many past a last irreversible block
    an endpoint reported in this fetch, the configured default playing no
    part; so it asks for no block when no [get_info] request was answered.
    The number is not checked: a negative one makes it ask for a block
    before the last irreversible one. *)
Theorem getFutureBlockHash_explicit_offset fuel d env w :
  d <> 0 ->
  let evs := emitted (getFutureBlockHash fuel (Some d)) env w in
  (forall n, In n (block_requests evs) ->
             exists i, In i (info_answers evs)
                       /\ n = last_irreversible_block_num i + d
                       /\ (d < 0 -> n < last_irreversible_block_num i))
  /\ (info_answers evs = [] -> block_requests evs = []).
Proof.
  intros Hd evs.
  assert (T : forall n, In n (block_requests evs) ->
                        exists i, In i (info_answers evs)
                                  /\ n = last_irreversible_block_num i + d).
  { intros n Hn. subst evs. rewrite emitted_after_read in Hn |- *.
    pose proof (Holds_run
                  (getFutureBlockHash_targets fuel (Some d) (heap w))
                  env w) as T.
    cbv beta in T. destruct (T n Hn) as (i & Hi & Hni).
    exists i. split; [exact Hi |].
    unfold js_or in Hni. apply Z.eqb_neq in Hd. rewrite Hd in Hni.
    exact Hni. }
  split.
  - intros n Hn. destruct (T n Hn) as (i & Hi & E).
    exists i. repeat split; auto. lia.
  - intros E. destruct (block_requests evs) as [| n rest] eqn:B;
      [reflexivity |].
    destruct (T n (or_introl eq_refl)) as (i & Hi & _).
    rewrite E in Hi. destruct Hi.
Qed.

Lemma getFutureBlockHash_explicit_offset_witness :
  let st := sample_state GamePhase.LOCKED 0 3 in
  let env := env_sample st sample_id 0 true in
  let evs := emitted (getFutureBlockHash 1 (Some (-2))) env w0 in
  -2 <> 0
  /\ block_requests evs = [998]
  /\ (forall n, In n (block_requests evs) ->
                exists i, In i (info_answers evs)
                          /\ n = last_irreversible_block_num i + -2
                          /\ (-2 < 0 -> n < last_irreversible_block_num i)).
Proof.
  intros st env evs.
  assert (H : -2 <> 0) by lia.
  split; [exact H |]. split; [vm_compute; reflexivity |].
  exact (proj1 (@getFutureBlockHash_explicit_offset 1%nat (-2) env w0 H)).
Defined.

(** ** The ledger gateway *)

Lemma test_hash_regex_inv s :
  test_hash_regex s = true ->
  exists rest, s = String "0" (String "x" rest) /\ is_hex64_any rest = true.
Proof.
  destruct s as [| c1 s1]; [discriminate |].
  destruct c1 as [[] [] [] [] [] [] [] []]; try discriminate.
  destruct s1 as [| c2 rest]; [discriminate |].
  destruct c2 as [[] [] [] [] [] [] [] []]; try discriminate.
  intros H. exists rest. split; [reflexivity | exact H].
Qed.

Lemma normalizeBlockId_hash_regex s :
  test_hash_regex (normalizeBlockId s) = true
  <-> (is_hex64_any s = true \/ test_hash_regex s = true).
Proof.
  unfold normalizeBlockId. destruct (prefix "0x" s) eqn:E.
  - split; [auto |]. intros [H | H]; [| exact H].
    destruct (prefix_0x_inv s E) as [rest ->].
    unfold is_hex64_any in H. simpl in H.
    rewrite andb_false_r in H. discriminate H.
  - change (test_hash_regex ("0x" ++ s)) with (is_hex64_any s).
    split; [auto |]. intros [H | H]; [exact H |].
    destruct (test_hash_regex_inv s H) as (rest & -> & _).
    destruct rest; discriminate E.
Qed.

Lemma find_none_Forall A (f : A -> bool) l :
  find f l = None <-> Forall (fun x => f x = false) l.
Proof.
  induction l as [| x l IH]; simpl.
  - split; auto.
  - destruct (f x) eqn:E.
    + split; [discriminate |]. intros H. inversion H. congruence.
    + rewrite IH. split; [auto | intros H; inversion H; auto].
Qed.

(** X10. No malformed seed reaches the chain.  The gateway's [finishGame]
    submits the finish transaction only when it is initialized and the seed
    matches [^0x[0-9a-fA-F]{64}$]; otherwise it rejects, with the
    not-initialized error first and the format error second, having sent
    nothing.  When it resolves it has submitted that one transaction and
    waited for it; the result carries the receipt's hash and block number,
    and as winner the [args.winner] of the first receipt log whose event is
    [GameFinished], or [null] exactly when the receipt has no such log. *)
Theorem gateway_finishGame_gate initialized ledger h :
  let out := ContractService.finishGame initialized ledger h in
  (forall s, In (SentFinishGame s) (fst out) ->
             s = h /\ initialized = true /\ test_hash_regex h = true)
  /\ (initialized = false ->
      out = ([], Rejected ContractService.not_initialized))
  /\ (initialized = true -> test_hash_regex h = false ->
      out = ([], Rejected (new_Error "Invalid EOS block hash format")))
  /\ (forall r, snd out = Resolved r ->
        exists tx receipt,
          fst out = [SentFinishGame h; Waited tx]
          /\ core_finishGame ledger h = Resolved tx
          /\ tx_wait ledger tx = Resolved receipt
          /\ txHash r = receipt_hash receipt
          /\ blockNumber r = receipt_blockNumber receipt
          /\ (winner r = None
              <-> Forall (fun l => ContractService.is_GameFinished l = false)
                         (logs receipt))
          /\ (forall a, winner r = Some a ->
                exists pre l post,
                  logs receipt = (pre ++ l :: post)%list
                  /\ Forall (fun l' =>
                               ContractService.is_GameFinished l' = false) pre
                  /\ ContractService.is_GameFinished l = true
                  /\ args_winner l = a)).
Proof.
  intros out. subst out. unfold ContractService.finishGame.
  destruct initialized; cbn [negb].
  2:{ split; [intros s [] |]. split; [reflexivity |].
      split; [discriminate |]. intros r Hr. discriminate Hr. }
  destruct (test_hash_regex h) eqn:T; cbn [negb].
  2:{ split; [intros s [] |]. split; [discriminate |].
      split; [reflexivity |]. intros r Hr. discriminate Hr. }
  unfold ContractService.bind, ContractService.await, ContractService.ret.
  destruct (core_finishGame ledger h) as [tx | e] eqn:Hs.
  2:{ cbn [fst snd]. split; [| split; [| split]]; try discriminate.
      intros s [H | []]. injection H as <-. auto. }
  destruct (tx_wait ledger tx) as [receipt | e] eqn:Hw.
  2:{ cbn [fst snd app]. split; [| split; [| split]]; try discriminate.
      intros s [H | [H | []]]; [| discriminate H].
      injection H as <-. auto. }
  cbn [fst snd app]. split; [| split; [| split]]; try discriminate.
  - intros s [H | [H | []]]; [| discriminate H].
    injection H as <-. auto.
  - intros r Hr. injection Hr as <-. exists tx, receipt.
    cbn [winner txHash blockNumber].
    split; [reflexivity |]. split; [reflexivity |].
    split; [exact Hw |]. split; [reflexivity |].
    split; [reflexivity |]. split; [split |].
    + intros H. apply find_none_Forall.
      destruct (find _ _); [discriminate H | reflexivity].
    + intros H. apply find_none_Forall in H. rewrite H. reflexivity.
    + intros a Ha.
      destruct (find ContractService.is_GameFinished (logs receipt))
        as [l |] eqn:F; [| discriminate Ha].
      injection Ha as <-.
      clear - F. induction (logs receipt) as [| x ls IH]; [discriminate F |].
      simpl in F. destruct (ContractService.is_GameFinished x) eqn:G.
      * injection F as ->. exists [], l, ls. auto.
      * destruct (IH F) as (pre & l' & post & -> & Hpre & Hl & Ha).
        exists (x :: pre), l', post. auto.
Qed.

Lemma gateway_finishGame_gate_witness :
  ContractService.finishGame true sample_ledger ("0x" ++ sample_id)
  = ([SentFinishGame ("0x" ++ sample_id); Waited (mkTx "0xfinish")],
     Resolved (mkFinishResult (Some "0xwinner") "0xfinish" 8))
  /\ ContractService.finishGame true sample_ledger "0xABC"
     = ([], Rejected (new_Error "Invalid EOS block hash format")).
Proof.
  split; [vm_compute; reflexivity |].
  apply (proj1 (proj2 (proj2
           (gateway_finishGame_gate true sample_ledger "0xABC"))));
    reflexivity.
Defined.

(** ** The tick in front of the gateway *)

(** Every answer among the events of a run is the collaborators' answer to
    that call at some point of the history. *)
Lemma events_answers A (p : Prog A) (env : Env) w :
  Forall (fun ev => match ev with
                    | EvCall c r => exists tr, r = env _ tr c
                    | EvLog _ _ => True
                    end)
         (events p env w).
Proof.
  revert w.
  induction p as [a | e | | k IH | f k IH | l m k IH | R c k IH];
    intros w; simpl; auto.
  constructor; [exists (trace w); reflexivity | apply IH].
Qed.

Lemma finish_through_gateway A (p : Prog A) initialized ledger base w h o :
  In (EvCall (ContractFinishGame h) o)
     (events p (env_through_gateway initialized ledger base) w) ->
  exists tr,
    o = snd (ContractService.finishGame initialized (ledger tr) h).
Proof.
  intros Hin.
  pose proof (events_answers p (env_through_gateway initialized ledger base)
                w) as F.
  rewrite Forall_forall in F. exact (F _ Hin).
Qed.

(** X11. A round is finished only with a well-formed block identifier.
    With the gateway in front of the ledger, a finish call of a tick
    resolves only if the gateway is initialized and the seed matches
    [^0x[0-9a-fA-F]{64}$]; the seed being the normalized identifier of a
    block the beacon answered with in this tick, that identifier is 64 hex
    digits, with or without [0x] in front.  A seed that does not match is
    answered with the format error.  So every seed proof a tick stores
    carries a seed of that format. *)
Theorem tick_finish_needs_wellformed_block_id
    fuel initialized ledger base w :
  isProcessing (gameManager (heap w)) = false ->
  let env := env_through_gateway initialized ledger base in
  let evs := emitted (checkAndProcessGameState (S fuel)) env w in
  (forall h res,
      In (EvCall (ContractFinishGame h) (Resolved res)) evs ->
      initialized = true /\ test_hash_regex h = true
      /\ exists url data blk,
           In (EvCall (AxiosPost url get_block data) (Resolved blk)) evs
           /\ h = normalizeBlockId (id blk)
           /\ (is_hex64_any (id blk) = true
               \/ test_hash_regex (id blk) = true))
  /\ (forall h o,
         In (EvCall (ContractFinishGame h) o) evs ->
         initialized = true -> test_hash_regex h = false ->
         o = Rejected (new_Error "Invalid EOS block hash format"))
  /\ (forall proof,
         In (WCreateProof proof) (db_writes evs) ->
         test_hash_regex (proof_block_hash proof) = true).
Proof.
  intros Hg env evs.
  assert (Gate : forall h res,
             In (EvCall (ContractFinishGame h) (Resolved res)) evs ->
             initialized = true /\ test_hash_regex h = true).
  { intros h res Hin. subst evs. rewrite emitted_events in Hin.
    destruct (finish_through_gateway _ _ _ _ _ _ _ Hin) as [tr E].
    unfold ContractService.finishGame in E.
    destruct initialized; [| discriminate E].
    destruct (test_hash_regex h); [auto | discriminate E]. }
  split; [| split].
  - intros h res Hin. destruct (Gate h res Hin) as [Hi Hr].
    split; [exact Hi |]. split; [exact Hr |].
    assert (Hs : In h (finish_seeds evs)).
    { unfold finish_seeds. eapply In_choose; [exact Hin | reflexivity]. }
    destruct (tick_seed_source fuel env w Hg)
      as [E | (st & url & data & blk & _ & _ & _ & Hb & E & _)];
      fold evs in E; rewrite E in Hs; [destruct Hs |].
    destruct Hs as [<- | []]. exists url, data, blk.
    split; [exact Hb |]. split; [reflexivity |].
    apply normalizeBlockId_hash_regex. exact Hr.
  - intros h o Hin Hi Hr. subst evs. rewrite emitted_events in Hin.
    destruct (finish_through_gateway _ _ _ _ _ _ _ Hin) as [tr ->].
    unfold ContractService.finishGame. rewrite Hi, Hr. reflexivity.
  - intros proof Hp.
    destruct (tick_writes_source fuel env w Hg)
      as [E | [(st & tx & t & _ & _ & _ & _ & E)
              | [(st & res & t & _ & _ & _ & E)
                | (st & res & eb & t1 & t2 & _ & _ & _ & Hf & E)]]];
      fold evs in E; rewrite E in Hp.
    + destruct Hp.
    + destruct Hp as [H | []]. discriminate H.
    + destruct Hp as [H | []]. discriminate H.
    + destruct Hp as [H | [H | []]]; [discriminate H |].
      injection H as <-. cbn [proof_block_hash].
      fold evs in Hf. exact (proj2 (Gate _ _ Hf)).
Qed.

Lemma tick_finish_needs_wellformed_block_id_witness :
  let st := sample_state GamePhase.LOCKED 0 3 in
  let env := env_through_gateway true (fun _ => sample_ledger)
               (env_sample st sample_id 0 true) in
  let evs := emitted (checkAndProcessGameState 1) env w0 in
  isProcessing (gameManager (heap w0)) = false
  /\ finish_seeds evs = ["0x" ++ sample_id]
  /\ (forall proof,
         In (WCreateProof proof) (db_writes evs) ->
         test_hash_regex (proof_block_hash proof) = true).
Proof.
  intros st env evs. split; [reflexivity |].
  split; [vm_compute; reflexivity |].
  exact (proj2 (proj2 (@tick_finish_needs_wellformed_block_id
                         0%nat true (fun _ => sample_ledger)
                         (env_sample st sample_id 0 true) w0 eq_refl))).
Defined.

(** ** The life cycle of the manager *)

Lemma Inv_fresh : Lifecycle.Inv Lifecycle.fresh.
Proof. left. repeat split. Qed.

Lemma Inv_initialize sv n :
  Lifecycle.Inv n -> Lifecycle.Inv (fst (Lifecycle.initialize sv n)).
Proof.
  unfold Lifecycle.Inv, Lifecycle.initialize.
  destruct n as [[job run ini] live k lg]. simpl.
  intros H.
  destruct ini; simpl; [exact H |].
  destruct (if Lifecycle.contract_isInitialized sv then _ else _);
    simpl; [| exact H].
  destruct (if Lifecycle.supabase_isInitialized sv then _ else _);
    simpl; [| exact H].
  destruct H as [H | (H1 & H2 & H3)]; [left; exact H | discriminate H2].
Qed.

Lemma Inv_start n :
  Lifecycle.Inv n -> Lifecycle.Inv (fst (Lifecycle.start n)).
Proof.
  unfold Lifecycle.Inv, Lifecycle.start.
  destruct n as [[job run ini] live k lg]. simpl.
  intros H.
  destruct run; simpl; [exact H |].
  destruct ini; simpl; [| exact H].
  destruct H as [(_ & _ & ->) | (H & _)]; [| discriminate H].
  right. repeat split. exists k. split; reflexivity.
Qed.

Lemma Inv_stop n :
  Lifecycle.Inv n ->
  Lifecycle.Inv (fst (Lifecycle.stop n))
  /\ Lifecycle.running (fst (Lifecycle.stop n)) = [].
Proof.
  unfold Lifecycle.Inv, Lifecycle.stop.
  destruct n as [[job run ini] live k lg]. simpl.
  intros [(H1 & H2 & H3) | (H1 & H2 & j & H3 & H4)]; subst; simpl.
  - split; [left |]; repeat split.
  - unfold Lifecycle.job_stop. simpl.
    destruct (Nat.eq_dec j j) as [_ | N]; [| destruct N; reflexivity].
    simpl. split; [left |]; repeat split.
Qed.

Lemma Inv_shutdown signal n :
  Lifecycle.Inv n ->
  Lifecycle.Inv (fst (Lifecycle.shutdown signal n))
  /\ Lifecycle.running (fst (Lifecycle.shutdown signal n)) = [].
Proof.
  intros H. unfold Lifecycle.shutdown.
  set (n1 := Lifecycle.log info _ n).
  assert (H1 : Lifecycle.Inv n1) by exact H.
  unfold Lifecycle.isManagerRunning.
  destruct (Lifecycle.isRunning (Lifecycle.manager n1)) eqn:R.
  - destruct (Inv_stop H1) as [I E].
    destruct (Lifecycle.stop n1) as [n2 [[] | e |]]; simpl in *; auto.
  - simpl. split; [exact H1 |].
    destruct H1 as [(_ & _ & E) | (E & _)]; [exact E |].
    rewrite R in E. discriminate E.
Qed.

Lemma Inv_apply op n :
  Lifecycle.Inv n -> Lifecycle.Inv (fst (Lifecycle.apply op n)).
Proof.
  intros H. destruct op as [sv | | | signal]; simpl.
  - apply Inv_initialize, H.
  - apply Inv_start, H.
  - apply Inv_stop, H.
  - apply Inv_shutdown, H.
Qed.

Lemma Inv_after ops :
  forall n, Lifecycle.Inv n -> Lifecycle.Inv (Lifecycle.after ops n).
Proof.
  induction ops as [| op ops IH]; intros n H; simpl; [exact H |].
  apply IH, Inv_apply, H.
Qed.

(** X12. At most one cron task.  Whatever sequence of [initialize],
    [start], [stop] and shutdown signals the manager goes through from its
    construction, with whatever answers from the services, afterwards
    either it is stopped, holds no task and no task is running, or it is
    running, initialized, and the task it holds is the only task running.
    So there is never a second task firing ticks, and no task outlives a
    [stop] or a shutdown signal. *)
Theorem lifecycle_single_cron_job ops :
  let n := Lifecycle.after ops Lifecycle.fresh in
  ((Lifecycle.isManagerRunning n = false
    /\ Lifecycle.cronJob (Lifecycle.manager n) = None
    /\ Lifecycle.running n = [])
   \/ (Lifecycle.isManagerRunning n = true
       /\ Lifecycle.initialized (Lifecycle.manager n) = true
       /\ exists job, Lifecycle.cronJob (Lifecycle.manager n) = Some job
                      /\ Lifecycle.running n = [job]))
  /\ (List.length (Lifecycle.running n) <= 1)%nat
  /\ Lifecycle.running (fst (Lifecycle.stop n)) = []
  /\ (forall signal,
         Lifecycle.running (fst (Lifecycle.shutdown signal n)) = []).
Proof.
  intros n.
  assert (H : Lifecycle.Inv n) by (apply Inv_after, Inv_fresh).
  split; [exact H |]. split; [| split].
  - destruct H as [(_ & _ & ->) | (_ & _ & j & _ & ->)]; simpl; lia.
  - apply Inv_stop, H.
  - intros signal. apply Inv_shutdown, H.
Qed.

Lemma apply_initialized op n :
  Lifecycle.initialized (Lifecycle.manager (fst (Lifecycle.apply op n)))
  = true
  <-> (Lifecycle.initialized (Lifecycle.manager n) = true
       \/ exists sv, op = Lifecycle.Initialize sv
                     /\ snd (Lifecycle.apply op n) = Normal tt).
Proof.
  destruct n as [[job run ini] live k lg].
  destruct op as [sv | | | signal]; simpl.
  - unfold Lifecycle.initialize. simpl.
    destruct ini; simpl; [split; auto |].
    destruct (if Lifecycle.contract_isInitialized sv then _ else _);
      simpl.
    + destruct (if Lifecycle.supabase_isInitialized sv then _ else _);
        simpl.
      * split; [intros _; right; exists sv; auto | auto].
      * split; [discriminate |].
        intros [H | (sv' & _ & H)]; discriminate H.
    + split; [discriminate |].
      intros [H | (sv' & _ & H)]; discriminate H.
  - unfold Lifecycle.start. simpl.
    destruct run; simpl; [| destruct ini; simpl];
      (split; [auto |]); intros [H | (sv & H & _)];
      try exact H; discriminate H.
  - unfold Lifecycle.stop. simpl.
    destruct run; simpl; [destruct job; simpl |];
      (split; [auto |]); intros [H | (sv & H & _)];
      try exact H; discriminate H.
  - unfold Lifecycle.shutdown, Lifecycle.isManagerRunning, Lifecycle.stop.
    simpl.
    destruct run; simpl; [destruct job; simpl |];
      (split; [auto |]); intros [H | (sv & H & _)];
      try exact H; discriminate H.
Qed.

Lemma initialized_after ops :
  forall n,
    Lifecycle.initialized (Lifecycle.manager (Lifecycle.after ops n)) = true
    <-> (Lifecycle.initialized (Lifecycle.manager n) = true
         \/ exists sv, In (Lifecycle.Initialize sv, Normal tt)
                          (Lifecycle.outcomes ops n)).
Proof.
  induction ops as [| op ops IH]; intros n; simpl.
  - split; [auto |]. intros [H | (sv & [])]. exact H.
  - rewrite IH, apply_initialized. split.
    + intros [[H | (sv & -> & H)] | (sv & H)]; auto.
      * right. exists sv. left. rewrite <- H. reflexivity.
      * right. exists sv. right. exact H.
    + intros [H | (sv & [H | H])]; auto.
      * left. right. exists sv. injection H as -> H. auto.
      * right. exists sv. exact H.
Qed.

(** X13. [start] needs a successful [initialize].  After any sequence of
    operations from construction, the manager is initialized exactly when
    one of the [initialize] calls so far has returned.  If none has,
    [start] throws the not-initialized error and changes nothing, no task
    being scheduled; if one has, [start] returns with the manager running.
    An [initialize] on a manager not yet initialized returns only if
    neither service it awaits rejects; when one does, it rethrows that
    error and the manager stays uninitialized. *)
Theorem start_needs_initialize ops :
  let n := Lifecycle.after ops Lifecycle.fresh in
  (Lifecycle.initialized (Lifecycle.manager n) = true
   <-> exists sv, In (Lifecycle.Initialize sv, Normal tt)
                     (Lifecycle.outcomes ops Lifecycle.fresh))
  /\ (Lifecycle.initialized (Lifecycle.manager n) = false ->
      Lifecycle.start n = (n, Thrown Lifecycle.not_initialized))
  /\ (Lifecycle.initialized (Lifecycle.manager n) = true ->
      snd (Lifecycle.start n) = Normal tt
      /\ Lifecycle.isManagerRunning (fst (Lifecycle.start n)) = true)
  /\ (forall sv e,
         Lifecycle.initialized (Lifecycle.manager n) = false ->
         snd (Lifecycle.initialize sv n) = Thrown e ->
         Lifecycle.initialized
           (Lifecycle.manager (fst (Lifecycle.initialize sv n))) = false
         /\ ((Lifecycle.contract_isInitialized sv = false
              /\ Lifecycle.contract_initialize sv = Rejected e)
             \/ (Lifecycle.supabase_isInitialized sv = false
                 /\ Lifecycle.supabase_initialize sv = Rejected e))).
Proof.
  intros n.
  assert (H : Lifecycle.Inv n) by (apply Inv_after, Inv_fresh).
  split; [| split; [| split]].
  - unfold n. rewrite initialized_after. simpl.
    split; [intros [H0 | H0]; [discriminate H0 | exact H0] | auto].
  - intros Hi. unfold Lifecycle.start.
    destruct H as [(-> & _) | (_ & Hi' & _)]; [| congruence].
    rewrite Hi. reflexivity.
  - intros Hi. unfold Lifecycle.start, Lifecycle.isManagerRunning.
    destruct (Lifecycle.isRunning (Lifecycle.manager n)) eqn:R;
      [split; [reflexivity | exact R] |].
    rewrite Hi. split; reflexivity.
  - intros sv e Hi. unfold Lifecycle.initialize. rewrite Hi.
    destruct (Lifecycle.contract_isInitialized sv); simpl.
    + destruct (Lifecycle.supabase_isInitialized sv); simpl;
        [discriminate |].
      destruct (Lifecycle.supabase_initialize sv) as [[] | e'] eqn:S;
        simpl; [discriminate |].
      intros E. injection E as ->. split; [exact Hi | auto].
    + destruct (Lifecycle.contract_initialize sv) as [[] | e'] eqn:C;
        simpl.
      * destruct (Lifecycle.supabase_isInitialized sv); simpl;
          [discriminate |].
        destruct (Lifecycle.supabase_initialize sv) as [[] | e'] eqn:S;
          simpl; [discriminate |].
        intros E. injection E as ->. split; [exact Hi | auto].
      * intros E. injection E as ->. split; [exact Hi | auto].
Qed.

(** ** The constructor of the beacon client *)

Lemma split_cons sep s : exists piece rest, split sep s = piece :: rest.
Proof.
  destruct s as [| c s]; simpl; [eauto |].
  destruct (Ascii.eqb c sep); [eauto |].
  destruct (split sep s); eauto.
Qed.

Lemma length_split sep s :
  List.length (split sep s) = S (count_char sep s).
Proof.
  induction s as [| c s IH]; simpl; [reflexivity |].
  destruct (Ascii.eqb c sep); simpl; [rewrite IH; reflexivity |].
  destruct (split sep s) as [| piece rest]; simpl in *; [discriminate IH |].
  exact IH.
Qed.

Lemma concat_split sep s :
  String.concat (String sep EmptyString) (split sep s) = s.
Proof.
  induction s as [| c s IH]; simpl; [reflexivity |].
  destruct (Ascii.eqb c sep) eqn:E.
  - apply Ascii.eqb_eq in E. subst c.
    destruct (split_cons sep s) as (piece & rest & Hs).
    rewrite Hs in *.
    change (String sep (String.concat (String sep EmptyString)
                          (piece :: rest)) = String sep s).
    rewrite IH. reflexivity.
  - destruct (split sep s) as [| piece [| p2 rest]]; simpl in *.
    + subst s. reflexivity.
    + subst s. reflexivity.
    + rewrite IH. reflexivity.
Qed.

Lemma ends_with_space_trimEnd s : ends_with_space (trimEnd s) = false.
Proof.
  induction s as [| c s IH]; simpl; [reflexivity |].
  destruct (trimEnd s) as [| c' t] eqn:E.
  - destruct (is_space c) eqn:S; simpl; [reflexivity | exact S].
  - exact IH.
Qed.

Lemma starts_with_space_trimStart s :
  starts_with_space (trimStart s) = false.
Proof.
  induction s as [| c s IH]; simpl; [reflexivity |].
  destruct (is_space c) eqn:S; [exact IH | simpl; exact S].
Qed.

Lemma starts_with_space_trimEnd s :
  starts_with_space s = false -> starts_with_space (trimEnd s) = false.
Proof.
  destruct s as [| c s]; simpl; [auto |].
  intros S. destruct (trimEnd s); [rewrite S |]; simpl; auto.
Qed.

Lemma trim_clean s :
  starts_with_space (trim s) = false /\ ends_with_space (trim s) = false.
Proof.
  unfold trim. split.
  - apply starts_with_space_trimEnd, starts_with_space_trimStart.
  - apply ends_with_space_trimEnd.
Qed.

(** X14. What the constructor sets up.  From any setting of the endpoint
    list, the beacon client starts with the first endpoint selected and at
    least one endpoint, so the selection is inside the list; unset or
    empty, the setting gives the one default endpoint.  There is one
    endpoint for each comma of the setting and one more, empty pieces
    being kept; the pieces, joined by commas again, are the setting; and
    no endpoint starts or ends with white space.  A second [getInstance]
    returns the first instance, whatever the settings have become. *)
Theorem new_EosService_endpoints endpoints_setting offset_setting
    manager timer history :
  let service := new_EosService endpoints_setting offset_setting in
  let setting :=
    or_default endpoints_setting "https://eos.antelope.tools" in
  endpoint_ok (mkWorld (mkHeap manager service timer) history)
  /\ List.length (rpcEndpoints service) = S (count_char "," setting)
  /\ String.concat "," (split "," setting) = setting
  /\ Forall (fun ep => starts_with_space ep = false
                       /\ ends_with_space ep = false)
            (rpcEndpoints service)
  /\ (endpoints_setting = None \/ endpoints_setting = Some "" ->
      rpcEndpoints service = ["https://eos.antelope.tools"])
  /\ (forall setting' offset',
         let (first, instance) :=
           getInstance None endpoints_setting offset_setting in
         getInstance instance setting' offset' = (service, Some service)).
Proof.
  intros service setting.
  assert (L : List.length (rpcEndpoints service)
              = S (count_char "," setting)).
  { unfold service, new_EosService. cbn [rpcEndpoints].
    rewrite length_map. apply length_split. }
  split; [| split; [| split; [| split; [| split]]]].
  - unfold endpoint_ok, index_of, endpoints_of. cbn [heap eosService].
    rewrite L. simpl. lia.
  - exact L.
  - apply (concat_split "," setting).
  - unfold service, new_EosService. cbn [rpcEndpoints].
    apply Forall_forall. intros ep Hep.
    apply in_map_iff in Hep. destruct Hep as (piece & <- & _).
    apply trim_clean.
  - intros [-> | ->]; vm_compute; reflexivity.
  - intros setting' offset'. reflexivity.
Qed.

(** ** What one tick may do *)

Lemma count_ev_app cls evs1 evs2 :
  count_ev cls (evs1 ++ evs2) = (count_ev cls evs1 + count_ev cls evs2)%nat.
Proof. unfold count_ev. rewrite filter_app, length_app. reflexivity. Qed.

Lemma fetch_calls fuel blocksInFuture env w :
  let evs := events (getFutureBlockHash (S fuel) blocksInFuture) env w in
  count_ev (@is_ledger_write) evs = 0%nat
  /\ count_ev (@is_ledger_read) evs = 0%nat.
Proof.
  intros evs. split; apply count_ev_none;
    apply Sat_events with (okU := guardU) (Q := terminates);
    apply getFutureBlockHash_Sat;
    intros R c; destruct c; simpl; intros; reflexivity || discriminate.
Qed.

(** X15. One tick, one transaction.  A tick that finds the guard clear
    reads the ledger state exactly once and submits at most one
    state-changing transaction, whatever it is answered; and it sends
    requests to the beacon only when that read reported a Locked round
    with tickets sold. *)
Theorem tick_at_most_one_transaction fuel (env : Env) w :
  isProcessing (gameManager (heap w)) = false ->
  let evs := emitted (checkAndProcessGameState (S fuel)) env w in
  count_ev (@is_ledger_read) evs = 1%nat
  /\ (count_ev (@is_ledger_write) evs <= 1)%nat
  /\ (count_ev (@is_beacon) evs <> 0%nat ->
      exists st, In (EvCall GetPotState (Resolved st)) evs
                 /\ phase st = GamePhase.LOCKED /\ tickets st <> 0).
Proof.
  intros Hg evs. subst evs. rewrite emitted_events, (tick_events _ _ _ Hg).
  destruct (env _ (trace w) GetPotState) as [st | e];
    [| tally; repeat split; auto; intros H; destruct H; reflexivity].
  set (w1 := record _ _). unfold dispatch.
  destruct (phase st =? GamePhase.IDLE).
  { run_prog. repeat (try answer; run_prog); tally;
      repeat split; auto; intros H; destruct H; reflexivity. }
  destruct (phase st =? GamePhase.BETTING).
  { run_prog.
    destruct (at_log_threshold _); destruct (_ >=? _); run_prog;
      repeat (try answer; run_prog); tally;
      repeat split; auto; intros H; destruct H; reflexivity. }
  destruct (phase st =? GamePhase.LOCKED) eqn:EL.
  2:{ destruct (phase st =? GamePhase.COMPLETE); tally;
        repeat split; auto; intros H; destruct H; reflexivity. }
  apply Z.eqb_eq in EL.
  destruct (Z.eq_dec (tickets st) 0) as [Ht | Ht].
  { run_prog. rewrite Ht. change (0 =? 0) with true. run_prog.
    repeat (try answer; run_prog); tally;
      repeat split; auto; intros H; destruct H; reflexivity. }
  split; [| split].
  - rewrite handleLockedPhase_events by exact Ht.
    set (w2 := record _ (record _ w1)).
    destruct (fetch_calls fuel None env w2) as [_ Q].
    change (count_ev (@is_ledger_read)
              ([EvCall GetPotState (Resolved st);
                EvLog debug "Game state check";
                EvLog info "Game in LOCKED phase - fetching randomness";
                EvLog info "Fetching EOS randomness"]
               ++ (events (getFutureBlockHash (S fuel) None) env w2
                   ++ match run (getFutureBlockHash (S fuel) None) env w2
                      with
                      | (w3, Normal eb) =>
                          [EvLog info "EOS randomness fetched"]
                          ++ events (finishGame st eb) env
                               (record (EvLog info "EOS randomness fetched")
                                       w3)
                          ++ match result (run (finishGame st eb) env
                                     (record
                                        (EvLog info "EOS randomness fetched")
                                        w3)) with
                             | Thrown _ =>
                                 [EvLog error "Error handling locked phase"]
                             | _ => []
                             end
                      | (_, Thrown _) =>
                          [EvLog error "Error handling locked phase"]
                      | (_, Diverged) => []
                      end)) = 1%nat).
    rewrite !count_ev_app, Q.
    destruct (run (getFutureBlockHash (S fuel) None) env w2)
      as [w3 [eb | e |]]; try reflexivity.
    rewrite !count_ev_app.
    set (w4 := record _ w3).
    assert (F : count_ev (@is_ledger_read) (events (finishGame st eb) env w4)
                = 0%nat).
    { run_prog. repeat (try answer; run_prog); reflexivity. }
    rewrite F. destruct (result _) as [[] | e |]; reflexivity.
  - rewrite handleLockedPhase_events by exact Ht.
    set (w2 := record _ (record _ w1)).
    destruct (fetch_calls fuel None env w2) as [Q _].
    change (count_ev (@is_ledger_write)
              ([EvCall GetPotState (Resolved st);
                EvLog debug "Game state check";
                EvLog info "Game in LOCKED phase - fetching randomness";
                EvLog info "Fetching EOS randomness"]
               ++ (events (getFutureBlockHash (S fuel) None) env w2
                   ++ match run (getFutureBlockHash (S fuel) None) env w2
                      with
                      | (w3, Normal eb) =>
                          [EvLog info "EOS randomness fetched"]
                          ++ events (finishGame st eb) env
                               (record (EvLog info "EOS randomness fetched")
                                       w3)
                          ++ match result (run (finishGame st eb) env
                                     (record
                                        (EvLog info "EOS randomness fetched")
                                        w3)) with
                             | Thrown _ =>
                                 [EvLog error "Error handling locked phase"]
                             | _ => []
                             end
                      | (_, Thrown _) =>
                          [EvLog error "Error handling locked phase"]
                      | (_, Diverged) => []
                      end)) <= 1)%nat.
    rewrite !count_ev_app, Q.
    destruct (run (getFutureBlockHash (S fuel) None) env w2)
      as [w3 [eb | e |]]; try (unfold count_ev; simpl; lia).
    rewrite !count_ev_app.
    set (w4 := record _ w3).
    assert (F : count_ev (@is_ledger_write) (events (finishGame st eb) env w4)
                = 1%nat).
    { run_prog. repeat (try answer; run_prog); reflexivity. }
    rewrite F. destruct (result _) as [[] | e |]; unfold count_ev; simpl; lia.
  - intros _. exists st. split; [left; reflexivity | auto].
Qed.

Lemma tick_at_most_one_transaction_witness :
  let st := sample_state GamePhase.LOCKED 0 3 in
  let env := env_sample st sample_id 0 true in
  let evs := emitted (checkAndProcessGameState 1) env w0 in
  isProcessing (gameManager (heap w0)) = false
  /\ count_ev (@is_ledger_read) evs = 1%nat
  /\ (count_ev (@is_ledger_write) evs <= 1)%nat.
Proof.
  intros st env evs. split; [reflexivity |].
  destruct (@tick_at_most_one_transaction 0%nat env w0 eq_refl)
    as (A & B & _).
  split; [exact A | exact B].
Defined.
